(** * minimal-autodiff: the scalar reverse-mode engine of [tensor.py]

    A shallow embedding of the [Tensor] class (graph construction,
    [build_topo], [backward], [clear_derivatives], the operator layer)
    over an explicit object store, followed by the properties of the
    engine.

    Python objects live in a store; a reference is the position at which
    the object was allocated, so object identity is position equality and
    two distinct objects may carry equal values.  The arithmetic of the
    [float] fields is an interface ([Scalar]) with two instances: IEEE
    binary64 (what the program runs on) and the integers (exact
    arithmetic, used where a statement is about the mathematical
    derivative). *)

From Stdlib Require Import ZArith Ring PrimFloat FloatOps SpecFloat.
From stdpp Require Import gmap list relations strings.

(** ** Scalars *)

(** The operations the engine performs on [float] fields: [+], [-], [*],
    the literal [1.0] and the conversion [float(n)] of a Python [int],
    which raises [OverflowError] when [n] is out of range. *)
Class Scalar (F : Type) := {
  fadd : F → F → F;
  fsub : F → F → F;
  fmul : F → F → F;
  float_one : F;
  float_of_int : Z → F;
  int_too_large : Z → bool;
}.

(** [float(n)] on binary64: round to nearest, ties to even. *)
Definition float_of_Z (z : Z) : float :=
  SF2Prim (binary_normalize prec emax z 0 false).

(** binary64, the program's [float]. *)
#[export] Instance float_scalar : Scalar float := {
  fadd := PrimFloat.add;
  fsub := PrimFloat.sub;
  fmul := PrimFloat.mul;
  float_one := 1%float;
  float_of_int := float_of_Z;
  int_too_large z := PrimFloat.is_infinity (float_of_Z z);
}.

(** Exact arithmetic. *)
#[export] Instance Z_scalar : Scalar Z := {
  fadd := Z.add;
  fsub := Z.sub;
  fmul := Z.mul;
  float_one := 1%Z;
  float_of_int z := z;
  int_too_large _ := false;
}.

(** ** Objects and the store *)

(** A reference: the position of the object in the store. *)
Abbreviation loc := nat (only parsing).

(** The fields [__init__] creates.  [args] and [local_derivatives] are
    [None] or a tuple of references, [derivative] is [None] or a float. *)
Record Tensor (F : Type) := mkTensor {
  value : F;
  args : option (list loc);
  local_derivatives : option (list loc);
  derivative : option F;
  name : option string;
}.
Arguments mkTensor {F}.
Arguments value {F}.
Arguments args {F}.
Arguments local_derivatives {F}.
Arguments derivative {F}.
Arguments name {F}.

(** The store: all objects allocated so far, in allocation order. *)
Abbreviation heap F := (list (Tensor F)) (only parsing).

(** Attribute assignments [t.args = v], [t.local_derivatives = v],
    [t.derivative = v]. *)
Definition set_args {F} (v : option (list loc)) (t : Tensor F) : Tensor F :=
  mkTensor (value t) v (local_derivatives t) (derivative t) (name t).
Definition set_local_derivatives {F} (v : option (list loc)) (t : Tensor F)
  : Tensor F :=
  mkTensor (value t) (args t) v (derivative t) (name t).
Definition set_derivative {F} (v : option F) (t : Tensor F) : Tensor F :=
  mkTensor (value t) (args t) (local_derivatives t) v (name t).

(** ** A state and exception monad over the store *)

(** The exceptions a run can end in.  [TypeError]: an absent value used
    as a number or as an iterable, or an operator nobody implements.
    [OverflowError]: [float(n)] out of range.  [RecursionError]: the
    recursion budget of [build_topo] is used up.  [DanglingRef]: a
    reference outside the store, which no Python program can hold. *)
Inductive exn := TypeError | OverflowError | RecursionError | DanglingRef.

Inductive result (A : Type) :=
  | Ok (a : A)
  | Raise (e : exn).
Arguments Ok {A}.
Arguments Raise {A}.

Definition M (F A : Type) := heap F → result (A * heap F).

Definition ret {F A} (a : A) : M F A := λ h, Ok (a, h).
Definition bind {F A B} (m : M F A) (k : A → M F B) : M F B :=
  λ h, match m h with Ok (a, h') => k a h' | Raise e => Raise e end.
Definition raise {F A} (e : exn) : M F A := λ _, Raise e.

Declare Scope heap_scope.
Delimit Scope heap_scope with heap.
Notation "'let!' x := m 'in' k" := (bind m (λ x, k))
  (at level 10, x pattern, m at level 100, k at level 200) : heap_scope.
Notation "m ;;; k" := (bind m (λ _, k))
  (at level 100, k at level 200, right associativity) : heap_scope.
Open Scope heap_scope.

(** Read the object behind a reference. *)
Definition deref {F} (l : loc) : M F (Tensor F) :=
  λ h, match h !! l with Some t => Ok (t, h) | None => Raise DanglingRef end.
(** Assign to an attribute of the object behind a reference. *)
Definition setattr {F} (l : loc) (f : Tensor F → Tensor F) : M F unit :=
  λ h, match h !! l with
       | Some t => Ok (tt, <[l := f t]> h)
       | None => Raise DanglingRef
       end.
(** Allocate a new object; its identity is the next free position. *)
Definition alloc {F} (t : Tensor F) : M F loc :=
  λ h, Ok (length h, h ++ [t]).

(** A [for] loop over a Python iterable. *)
Fixpoint for_each {F A} (xs : list A) (body : A → M F unit) : M F unit :=
  match xs with
  | [] => ret tt
  | x :: xs' => body x ;;; for_each xs' body
  end.

(** A loop that threads a value through a fallible step. *)
Fixpoint fold_result {S A} (step : A → S → result S) (xs : list A) (s : S)
  : result S :=
  match xs with
  | [] => Ok s
  | x :: xs' =>
      match step x s with
      | Ok s' => fold_result step xs' s'
      | Raise e => Raise e
      end
  end.

Section Engine.
Context {F : Type} {SF : Scalar F}.

(** [Tensor(value, name)] for a [value] that is already a float:
    [float(value)] is the identity and every other field starts absent. *)
Definition Tensor__init__ (v : F) (nm : option string) : M F loc :=
  alloc (mkTensor v None None None nm).

(** ** Elementary operations *)

(** [result = Tensor(a.value + b.value)],
    [result.local_derivatives = (Tensor(1), Tensor(1))],
    [result.args = (a, b)].  The three objects are allocated in this
    order; [float(1)] is in range, so [Tensor(1)] never raises. *)
Definition _add (a b : loc) : M F loc :=
  let! ta := deref a in
  let! tb := deref b in
  let! result := Tensor__init__ (fadd (value ta) (value tb)) None in
  let! d_a := Tensor__init__ (float_of_int 1) None in
  let! d_b := Tensor__init__ (float_of_int 1) None in
  setattr result (set_local_derivatives (Some [d_a; d_b])) ;;;
  setattr result (set_args (Some [a; b])) ;;;
  ret result.

(** The same with [a.value - b.value] and [(Tensor(1), Tensor(-1))]. *)
Definition _sub (a b : loc) : M F loc :=
  let! ta := deref a in
  let! tb := deref b in
  let! result := Tensor__init__ (fsub (value ta) (value tb)) None in
  let! d_a := Tensor__init__ (float_of_int 1) None in
  let! d_b := Tensor__init__ (float_of_int (-1)) None in
  setattr result (set_local_derivatives (Some [d_a; d_b])) ;;;
  setattr result (set_args (Some [a; b])) ;;;
  ret result.

(** [result = Tensor(a.value * b.value)],
    [result.local_derivatives = (b, a)]: the operand objects themselves,
    no new ones. *)
Definition _mul (a b : loc) : M F loc :=
  let! ta := deref a in
  let! tb := deref b in
  let! result := Tensor__init__ (fmul (value ta) (value tb)) None in
  setattr result (set_local_derivatives (Some [b; a])) ;;;
  setattr result (set_args (Some [a; b])) ;;;
  ret result.

(** ** Graph builder *)

(** [build_topo(self, order, visited)].  [order] and [visited] are the
    caller's list and set, mutated in place: they are threaded through
    the recursion.  [visited] holds objects by identity.  [fuel] is the
    recursion budget: the interpreter's recursion limit. *)
Fixpoint build_topo (fuel : nat) (h : heap F) (self : loc)
    (st : list loc * gset loc) : result (list loc * gset loc) :=
  match fuel with
  | O => Raise RecursionError
  | S fuel' =>
      let '(order, visited) := st in
      if decide (self ∈ visited) then Ok st
      else
        match h !! self with
        | None => Raise DanglingRef
        | Some t =>
            let st1 := (order, {[self]} ∪ visited) in
            match
              match args t with
              | None => Ok st1
              | Some xs => fold_result (build_topo fuel' h) xs st1
              end
            with
            | Ok (order', visited') => Ok (order' ++ [self], visited')
            | Raise e => Raise e
            end
        end
  end.

(** [order = []; visited = set(); self.build_topo(order, visited)]. *)
Definition topo_order (fuel : nat) (self : loc) : M F (list loc) :=
  λ h, match build_topo fuel h self ([], ∅) with
       | Ok (order, _) => Ok (order, h)
       | Raise e => Raise e
       end.

(** ** Backward engine *)

(** [if arg.derivative is None: arg.derivative = contrib
     else: arg.derivative += contrib]. *)
Definition accumulate (arg : loc) (contrib : F) : M F unit :=
  let! ta := deref arg in
  match derivative ta with
  | None => setattr arg (set_derivative (Some contrib))
  | Some d => setattr arg (set_derivative (Some (fadd d contrib)))
  end.

(** One iteration of the inner loop: [node.derivative] is read again on
    every iteration. *)
Definition push (node : loc) (edge : loc * loc) : M F unit :=
  let '(arg, local_derivative) := edge in
  let! tn := deref node in
  let! tl := deref local_derivative in
  match derivative tn with
  | None => raise TypeError
  | Some d => accumulate arg (fmul d (value tl))
  end.

(** The body of the outer loop. *)
Definition backward_node (node : loc) : M F unit :=
  let! t := deref node in
  match args t with
  | None => ret tt
  | Some xs =>
      match local_derivatives t with
      | None => raise TypeError
      | Some ls => for_each (zip xs ls) (push node)
      end
  end.

(** [self.derivative = 1.0], the traversal, then the loop over
    [reversed(order)]. *)
Definition backward (fuel : nat) (self : loc) : M F unit :=
  setattr self (set_derivative (Some float_one)) ;;;
  let! order := topo_order fuel self in
  for_each (reverse order) backward_node.

(** The traversal, then [node.derivative = None] for every node of
    [order]. *)
Definition clear_derivatives (fuel : nat) (self : loc) : M F unit :=
  let! order := topo_order fuel self in
  for_each order (λ node, setattr node (set_derivative None)).

(** ** Operator layer *)

(** What the other operand of an operator can be: a [Tensor], an [int]
    (which includes [bool]), a [float], or a value of any other type. *)
Inductive operand :=
  | OTensor (x : loc)
  | OInt (n : Z)
  | OFloat (v : F)
  | OOther.

(** What an operator method returns: a new [Tensor] or the
    [NotImplemented] singleton. *)
Inductive method_result :=
  | RTensor (r : loc)
  | RNotImplemented.

(** [Tensor(n, name)] for a Python [int]: [__init__] applies [float] to
    it first, which raises [OverflowError] out of range. *)
Definition Tensor_of_int (n : Z) (nm : option string) : M F loc :=
  if int_too_large n then raise OverflowError
  else Tensor__init__ (float_of_int n) nm.

(** [return m]: the method returns the [Tensor] that [m] builds. *)
Definition returned (m : M F loc) : M F method_result :=
  let! r := m in ret (RTensor r).

(** The six operator methods: [isinstance(x, Tensor)], then
    [isinstance(x, (int, float))] with [x] wrapped by [Tensor(x)] before
    the operation is called, else [NotImplemented]. *)
Definition __add__ (self : loc) (x : operand) : M F method_result :=
  match x with
  | OTensor x => returned (_add self x)
  | OInt n => returned (let! k := Tensor_of_int n None in _add self k)
  | OFloat v => returned (let! k := Tensor__init__ v None in _add self k)
  | OOther => ret RNotImplemented
  end.

Definition __radd__ (self : loc) (x : operand) : M F method_result :=
  match x with
  | OTensor x => returned (_add x self)
  | OInt n => returned (let! k := Tensor_of_int n None in _add k self)
  | OFloat v => returned (let! k := Tensor__init__ v None in _add k self)
  | OOther => ret RNotImplemented
  end.

Definition __sub__ (self : loc) (x : operand) : M F method_result :=
  match x with
  | OTensor x => returned (_sub self x)
  | OInt n => returned (let! k := Tensor_of_int n None in _sub self k)
  | OFloat v => returned (let! k := Tensor__init__ v None in _sub self k)
  | OOther => ret RNotImplemented
  end.

Definition __rsub__ (self : loc) (x : operand) : M F method_result :=
  match x with
  | OTensor x => returned (_sub x self)
  | OInt n => returned (let! k := Tensor_of_int n None in _sub k self)
  | OFloat v => returned (let! k := Tensor__init__ v None in _sub k self)
  | OOther => ret RNotImplemented
  end.

Definition __mul__ (self : loc) (x : operand) : M F method_result :=
  match x with
  | OTensor x => returned (_mul self x)
  | OInt n => returned (let! k := Tensor_of_int n None in _mul self k)
  | OFloat v => returned (let! k := Tensor__init__ v None in _mul self k)
  | OOther => ret RNotImplemented
  end.

Definition __rmul__ (self : loc) (x : operand) : M F method_result :=
  match x with
  | OTensor x => returned (_mul x self)
  | OInt n => returned (let! k := Tensor_of_int n None in _mul k self)
  | OFloat v => returned (let! k := Tensor__init__ v None in _mul k self)
  | OOther => ret RNotImplemented
  end.

(** The interpreter's side of an operator expression, for an operand
    whose own type does not implement the operator for a [Tensor] (every
    built-in type; [Tensor], [int] and [float] among them).  [self ∘ x]
    calls the method of the left operand; [x ∘ self] with a left operand
    that is not a [Tensor] ends in the reflected method of [self], the
    left operand's type having declined.  A [NotImplemented] nobody
    picks up becomes a [TypeError] in the caller.  The call of the other
    operand's own method, which the interpreter makes in between, is
    left out here: [binary_op] and [reflected_binary_op] below have it,
    and come to these when that method declines. *)
Definition or_type_error (m : M F method_result) : M F loc :=
  let! r := m in
  match r with
  | RTensor r => ret r
  | RNotImplemented => raise TypeError
  end.

(** [self ∘ x]. *)
Definition tensor_op (method : loc → operand → M F method_result)
    (self : loc) (x : operand) : M F loc :=
  or_type_error (method self x).

(** [x ∘ self]. *)
Definition reflected_op
    (method rmethod : loc → operand → M F method_result)
    (x : operand) (self : loc) : M F loc :=
  match x with
  | OTensor x => or_type_error (method x (OTensor self))
  | _ => or_type_error (rmethod self x)
  end.

(** The interpreter's side in full, for an operand of any type.  The
    methods of the other operand's own type are not this program's: the
    call of one is given as its run, which returns a value or declines
    with [NotImplemented]; [None] stands for a type that does not define
    the method.  The operands are instances of [Tensor] itself, not of a
    subclass that overrides a reflected method. *)

(** What an operator expression evaluates to: a [Tensor] or an object of
    another type. *)
Inductive py_value :=
  | VTensor (r : loc)
  | VObject.

(** What a method of the other operand's type does with a [Tensor]. *)
Inductive answer :=
  | Returned (v : py_value)
  | Declined.

Definition other_method : Type := option (M F answer).

(** The interpreter calls the other type's method, if there is one, and
    goes on with [otherwise] when there is none or it declines. *)
Definition ask_other (other : other_method) (otherwise : M F py_value)
  : M F py_value :=
  match other with
  | None => otherwise
  | Some m =>
      let! a := m in
      match a with
      | Returned v => ret v
      | Declined => otherwise
      end
  end.

(** [self ∘ x]: the method of [self]; when it answers [NotImplemented],
    the reflected method of the type of [x]; [TypeError] when that is
    missing or declines too. *)
Definition binary_op (method : loc → operand → M F method_result)
    (self : loc) (x : operand) (x_reflected : other_method) : M F py_value :=
  let! r := method self x in
  match r with
  | RTensor r => ret (VTensor r)
  | RNotImplemented => ask_other x_reflected (raise TypeError)
  end.

(** [x ∘ self] for an [x] that is not a [Tensor]: the method of the type
    of [x] first; when it is missing or declines, the reflected method
    of [self]; [TypeError] when that answers [NotImplemented]. *)
Definition reflected_binary_op
    (rmethod : loc → operand → M F method_result)
    (x : operand) (x_method : other_method) (self : loc) : M F py_value :=
  ask_other x_method
    (let! r := rmethod self x in
     match r with
     | RTensor r => ret (VTensor r)
     | RNotImplemented => raise TypeError
     end).

End Engine.

(** * Specification vocabulary

    The predicates in which the properties of the engine are stated and
    proved: graphs in the store, the invariants of the traversal and of
    the passes, the shapes of the objects the operations build. *)

Section Specification.
Context {F : Type} {SF : Scalar F}.
Implicit Types (h : heap F) (t : Tensor F) (n a b root self : loc).

(** ** Graphs in the store *)

(** [edge h n a]: [a] is one of the [args] of [n]. *)
Definition edge h n a : Prop :=
  ∃ t xs, h !! n = Some t ∧ args t = Some xs ∧ a ∈ xs.

(** [n] is [root] or is reached from it along [args]. *)
Definition reachable h root n : Prop := rtc (edge h) root n.

(** No node is reached from itself along one or more [args] links. *)
Definition acyclic h : Prop := ∀ n, ¬ tc (edge h) n n.

(** What every object of the store satisfies when the store was filled
    through [Tensor(...)] and the operations: a node with [args] has as
    many [local_derivatives], and all references are allocated. *)
Definition node_ok h t : Prop :=
  match args t with
  | None => True
  | Some xs =>
      match local_derivatives t with
      | None => False
      | Some ls =>
          length ls = length xs
          ∧ Forall (λ a, a < length h) xs
          ∧ Forall (λ l, l < length h) ls
      end
  end.

(** The store is well formed. *)
Definition graph_ok h : Prop := Forall (node_ok h) h.

(** No reachable node holds a derivative yet. *)
Definition fresh h root : Prop :=
  ∀ n t, reachable h root n → h !! n = Some t → derivative t = None.

(** Every node comes after its [args] in [order]. *)
Definition topo_sorted h (order : list loc) : Prop :=
  ∀ i n a, order !! i = Some n → edge h n a →
    ∃ j, j < i ∧ order !! j = Some a.

(** A checkable sufficient condition for [acyclic]: [args] only refer to
    objects allocated earlier, as the operations build them. *)
Fixpoint args_point_back (i : nat) (h : heap F) : bool :=
  match h with
  | [] => true
  | t :: h' =>
      match args t with
      | None => true
      | Some xs => forallb (λ a, a <? i) xs
      end && args_point_back (S i) h'
  end.

(** ** The traversal *)

(** The invariant of the traversal; [gray] is the chain of calls in
    progress: marked visited, not yet appended. *)
Definition dfs_inv h (gray order : list loc) (visited : gset loc) : Prop :=
  NoDup order
  ∧ (∀ x, x ∈ visited ↔ x ∈ order ∨ x ∈ gray)
  ∧ (∀ x, x ∈ order → x ∉ gray)
  ∧ topo_sorted h order.

(** What one call of [build_topo] on [self] establishes. *)
Definition topo_post h (gray : list loc) self
    (order : list loc) (visited : gset loc)
    (order' : list loc) (visited' : gset loc) : Prop :=
  dfs_inv h gray order' visited'
  ∧ self ∈ visited'
  ∧ (∃ new, order' = order ++ new ∧ ∀ x, x ∈ new → reachable h self x)
  ∧ (self ∉ visited → ∃ mid, order' = mid ++ [self]).

(** [build_topo] with this much fuel meets [topo_post]. *)
Definition topo_spec_at (fuel : nat) h : Prop :=
  ∀ self gray order visited order' visited',
    build_topo fuel h self (order, visited) = Ok (order', visited') →
    dfs_inv h gray order visited →
    (∀ g, g ∈ gray → reachable h g self) →
    topo_post h gray self order visited order' visited'.

(** The allocated objects not yet marked: every call that passes the
    [visited] test marks one more, so the depth of the recursion is
    bounded by this number. *)
Definition unvisited h (visited : gset loc) : nat :=
  size ((set_seq 0 (length h) : gset nat) ∖ visited).

(** [build_topo] with this much fuel returns whenever the fuel exceeds
    the number of unvisited objects. *)
Definition topo_total_at (fuel : nat) h : Prop :=
  ∀ self order visited,
    self < length h → unvisited h visited < fuel →
    ∃ order' visited',
      build_topo fuel h self (order, visited) = Ok (order', visited')
      ∧ visited ⊆ visited'.

(** ** Frames *)

(** Two states of one object that differ at most in [derivative]. *)
Definition same_fields t t' : Prop :=
  value t' = value t ∧ args t' = args t
  ∧ local_derivatives t' = local_derivatives t ∧ name t' = name t.

(** Two stores with the same objects, up to their [derivative] fields. *)
Definition same_graph h h' : Prop := Forall2 same_fields h h'.

(** Every object of [h] is in [h'], up to its [derivative]. *)
Definition covers h h' : Prop :=
  ∀ l t, h !! l = Some t → ∃ t', h' !! l = Some t' ∧ same_fields t t'.

(** [h'] differs from [h] only in the [derivative] of objects in [P]. *)
Definition only_derivatives (P : loc → Prop) h h' : Prop :=
  same_graph h h' ∧ ∀ n, ¬ P n → h' !! n = h !! n.

(** ** The backward pass *)

(** The object holds a derivative (not the absent marker). *)
Definition present h n : Prop :=
  ∃ t d, h !! n = Some t ∧ derivative t = Some d.

(** The value [accumulate] stores. *)
Definition accumulated (old : option F) (contrib : F) : F :=
  match old with
  | None => contrib
  | Some d => fadd d contrib
  end.

(** Every node of [rs] but the root comes after one of its users: what
    the reversed traversal order provides. *)
Definition users_first h root (rs : list loc) : Prop :=
  ∀ pre m post, rs = pre ++ m :: post →
    m = root ∨ ∃ c, c ∈ pre ∧ edge h c m.

(** Every node of [rs] comes before its [args]. *)
Definition args_later h (rs : list loc) : Prop :=
  ∀ pre n post a, rs = pre ++ n :: post → edge h n a → a ∈ post.

(** ** Objects the operations build *)

(** The node an operation builds. *)
Definition op_result (v : F) (a b d_a d_b : loc) : Tensor F :=
  mkTensor v (Some [a; b]) (Some [d_a; d_b]) None None.

(** The leaf [Tensor(v)]. *)
Definition leaf (v : F) (nm : option string) : Tensor F :=
  mkTensor v None None None nm.

(** [build_topo] with this much fuel appends only nodes reachable from
    its start, whatever the graph. *)
Definition topo_reach_at (fuel : nat) h : Prop :=
  ∀ self order visited order' visited',
    build_topo fuel h self (order, visited) = Ok (order', visited') →
    ∃ new, order' = order ++ new ∧ ∀ x, x ∈ new → reachable h self x.

(** ** Stores built through the interface *)

(** The shapes of the objects that [Tensor(...)], [_add], [_sub] and
    [_mul] put into the store: a leaf, *)
Definition leaf_node h m : Prop :=
  ∃ t, h !! m = Some t ∧ args t = None.

(** the result of [_add(a, b)], *)
Definition add_node h m a b : Prop :=
  ∃ t ta tb la lb tla tlb,
    h !! m = Some t ∧ h !! a = Some ta ∧ h !! b = Some tb
    ∧ args t = Some [a; b] ∧ local_derivatives t = Some [la; lb]
    ∧ h !! la = Some tla ∧ h !! lb = Some tlb
    ∧ value t = fadd (value ta) (value tb)
    ∧ value tla = float_of_int 1 ∧ value tlb = float_of_int 1.

(** the result of [_sub(a, b)], *)
Definition sub_node h m a b : Prop :=
  ∃ t ta tb la lb tla tlb,
    h !! m = Some t ∧ h !! a = Some ta ∧ h !! b = Some tb
    ∧ args t = Some [a; b] ∧ local_derivatives t = Some [la; lb]
    ∧ h !! la = Some tla ∧ h !! lb = Some tlb
    ∧ value t = fsub (value ta) (value tb)
    ∧ value tla = float_of_int 1 ∧ value tlb = float_of_int (-1).

(** the result of [_mul(a, b)]. *)
Definition mul_node h m a b : Prop :=
  ∃ t ta tb,
    h !! m = Some t ∧ h !! a = Some ta ∧ h !! b = Some tb
    ∧ args t = Some [a; b] ∧ local_derivatives t = Some [b; a]
    ∧ value t = fmul (value ta) (value tb).

(** Every node reachable from the root was built by [Tensor(...)] or by
    one of the three operations. *)
Definition built_from_ops h root : Prop :=
  ∀ m, reachable h root m →
    leaf_node h m
    ∨ ∃ a b, add_node h m a b ∨ sub_node h m a b ∨ mul_node h m a b.

(** The stores a program can reach through the interface: the empty
    store, extended by [Tensor(...)] and the three operations, with
    [backward] and [clear_derivatives] run on it. *)
Inductive api_store : heap F → Prop :=
  | api_empty : api_store []
  | api_leaf h v nm :
      api_store h → api_store (h ++ [leaf v nm])
  | api_add h a b r h' :
      api_store h → _add a b h = Ok (r, h') → api_store h'
  | api_sub h a b r h' :
      api_store h → _sub a b h = Ok (r, h') → api_store h'
  | api_mul h a b r h' :
      api_store h → _mul a b h = Ok (r, h') → api_store h'
  | api_backward h fuel root u h' :
      api_store h → backward fuel root h = Ok (u, h') → api_store h'
  | api_clear h fuel root u h' :
      api_store h → clear_derivatives fuel root h = Ok (u, h') →
      api_store h'.

(** Every object of the store has one of the four shapes. *)
Definition all_from_ops h : Prop :=
  ∀ m, m < length h →
    leaf_node h m
    ∨ ∃ a b, add_node h m a b ∨ sub_node h m a b ∨ mul_node h m a b.

(** What holds of every store built through the interface. *)
Definition store_ok h : Prop :=
  graph_ok h ∧ args_point_back 0 h = true ∧ all_from_ops h.

(** ** Checkers for concrete stores *)

(** [node_ok], computed. *)
Definition check_node (k : nat) t : bool :=
  match args t with
  | None => true
  | Some xs =>
      match local_derivatives t with
      | None => false
      | Some ls =>
          (length ls =? length xs)
          && forallb (λ a, a <? k) xs && forallb (λ l, l <? k) ls
      end
  end.

(** [graph_ok], computed. *)
Definition check_graph h : bool := forallb (check_node (length h)) h.

(** No object of the store holds a derivative. *)
Definition no_derivatives h : bool :=
  forallb (λ t, match derivative t with None => true | Some _ => false end) h.

(** ** Statements about the operations and the operators *)

(** The statement of C6 for one operation: the two entries of
    [local_derivatives] are objects the call allocated, neither of them
    an operand, each without [args], [local_derivatives] and
    [derivative]. *)
Definition fresh_local_derivatives (op : loc → loc → M F loc) : Prop :=
  ∀ h a b r h' t,
    op a b h = Ok (r, h') → h' !! r = Some t →
    ∃ d_a d_b tda tdb,
      local_derivatives t = Some [d_a; d_b]
      ∧ length h ≤ d_a ∧ length h ≤ d_b
      ∧ d_a ≠ a ∧ d_a ≠ b ∧ d_b ≠ a ∧ d_b ≠ b
      ∧ h' !! d_a = Some tda ∧ h' !! d_b = Some tdb
      ∧ args tda = None ∧ local_derivatives tda = None
      ∧ derivative tda = None
      ∧ args tdb = None ∧ local_derivatives tdb = None
      ∧ derivative tdb = None.

(** The operand is a [Tensor] or a plain number. *)
Definition supported (x : operand (F := F)) : bool :=
  match x with
  | OOther => false
  | _ => true
  end.

(** The run ended in [TypeError]. *)
Definition raises_type_error {A} (r : result A) : bool :=
  match r with
  | Raise TypeError => true
  | _ => false
  end.

(** The method returned the [NotImplemented] singleton. *)
Definition returns_not_implemented (r : result (method_result * heap F))
  : bool :=
  match r with
  | Ok (RNotImplemented, _) => true
  | _ => false
  end.

(** A computation that never ends in [TypeError]. *)
Definition no_type_error {A} (m : M F A) : Prop :=
  ∀ h, raises_type_error (m h) = false.

(** The other operand's type declines on the store [h]: it does not
    define the method, or its method answers [NotImplemented] and leaves
    the store as it is.  Every built-in type declines a [Tensor]. *)
Definition declines (other : other_method (F := F)) h : Prop :=
  match other with
  | None => True
  | Some m => m h = Ok (Declined, h)
  end.

(** A run that returns a [Tensor], as the run of an expression. *)
Definition as_value (r : result (loc * heap F))
  : result (py_value * heap F) :=
  match r with
  | Ok (l, h) => Ok (VTensor l, h)
  | Raise e => Raise e
  end.

End Specification.

(** ** Exact arithmetic *)

(** Scalars whose operations form a commutative ring, with [float(1)]
    and [float(-1)] the ring's [1] and [-1].  The integers are such
    scalars; binary64 is not (its addition is not associative). *)
Class ExactScalar (F : Type) {SF : Scalar F} := {
  fzero : F;
  fopp : F → F;
  scalar_ring : ring_theory fzero float_one fadd fmul fsub fopp eq;
  float_of_int_1 : float_of_int 1 = float_one;
  float_of_int_m1 : float_of_int (-1) = fopp float_one;
}.

(** The integers are exact scalars. *)
#[export] Instance Z_exact : ExactScalar Z.
Proof.
  refine {| fzero := 0%Z; fopp := Z.opp |}; [|done..].
  constructor; intros; simpl; lia.
Defined.

Section ExactSpecification.
Context {F : Type} {SF : Scalar F} {EF : ExactScalar F}.
Implicit Types (h : heap F) (t : Tensor F) (n a b root self x : loc).

(** [Σ f(e)] over the elements of a list. *)
Definition sum_list {A} (f : A → F) (xs : list A) : F :=
  foldr (λ e s, fadd (f e) s) fzero xs.

(** The [value] behind a reference. *)
Definition value_at h (l : loc) : F :=
  match h !! l with
  | Some t => value t
  | None => fzero
  end.

(** The [derivative] behind a reference, an absent one counting [0]. *)
Definition dval h (n : loc) : F :=
  match h !! n with
  | Some t => match derivative t with Some d => d | None => fzero end
  | None => fzero
  end.

(** The pairs the inner loop of [backward] iterates over:
    [zip(node.args, node.local_derivatives)]; none for a leaf (and none
    where [backward] raises, which a well-formed store excludes). *)
Definition out_edges h (n : loc) : list (loc * loc) :=
  match h !! n with
  | Some t =>
      match args t, local_derivatives t with
      | Some xs, Some ls => zip xs ls
      | _, _ => []
      end
  | None => []
  end.

(** The derivative of the value of [m] with respect to the value of [x],
    by the chain rule along [args]: [1] at [x] itself, otherwise the
    sum over the operands of local derivative times the operand's
    derivative.  Unfolded, it is the sum over all [args] paths from [m]
    to [x] of the product of the local derivatives on the path. *)
Fixpoint tangent (fuel : nat) h (x m : loc) : F :=
  match fuel with
  | O => fzero
  | S fuel' =>
      if decide (m = x) then float_one
      else sum_list (λ e, fmul (value_at h e.2) (tangent fuel' h x e.1))
                    (out_edges h m)
  end.

(** The sum of [derivative * tangent] over the nodes of [U]. *)
Definition wsum (T : loc → F) h (U : list loc) : F :=
  sum_list (λ m, fmul (dval h m) (T m)) U.

(** The quantity the outer loop keeps constant: the weighted sum over
    the nodes still to process, plus the derivative of [x] once [x] has
    been processed. *)
Definition phi (T : loc → F) x h (U : list loc) : F :=
  fadd (wsum T h U) (if decide (x ∈ U) then fzero else dval h x).

(** ** The derivative of a graph of [+], [-] and [*] *)

(** [partial h x m d]: [d] is the partial derivative of the value of [m]
    with respect to the value of [x], by the rules of differentiation:
    [∂x/∂x = 1], a leaf other than [x] is a constant, and the sum,
    difference and product rules. *)
Inductive partial h x : loc → F → Prop :=
  | partial_self : partial h x x float_one
  | partial_leaf m :
      m ≠ x → leaf_node h m → partial h x m fzero
  | partial_add m a b da db :
      m ≠ x → add_node h m a b →
      partial h x a da → partial h x b db →
      partial h x m (fadd da db)
  | partial_sub m a b da db :
      m ≠ x → sub_node h m a b →
      partial h x a da → partial h x b db →
      partial h x m (fsub da db)
  | partial_mul m a b da db :
      m ≠ x → mul_node h m a b →
      partial h x a da → partial h x b db →
      partial h x m (fadd (fmul da (value_at h b)) (fmul (value_at h a) db)).

End ExactSpecification.

(** ** Vocabulary of the further properties *)

Section FurtherSpecification.
Context {F : Type} {SF : Scalar F}.
Implicit Types (h : heap F) (t : Tensor F) (n a b m root self : loc).

(** The invariant of the traversal on any graph, cyclic or not: as
    [dfs_inv], with "every node comes after its [args]" weakened to
    "the [args] of every appended node are marked". *)
Definition dfs_inv_any h (gray order : list loc) (visited : gset loc)
  : Prop :=
  NoDup order
  ∧ (∀ x, x ∈ visited ↔ x ∈ order ∨ x ∈ gray)
  ∧ (∀ x, x ∈ order → x ∉ gray)
  ∧ (∀ n a, n ∈ order → edge h n a → a ∈ visited).

(** Every node of [new] that is not in [P] is followed in [new] by one
    of its users. *)
Definition users_after (P : loc → Prop) h (new : list loc) : Prop :=
  ∀ i m, new !! i = Some m →
    P m ∨ ∃ j c, i < j ∧ new !! j = Some c ∧ edge h c m.

(** What one call of [build_topo] establishes on any graph. *)
Definition topo_any_at (fuel : nat) h : Prop :=
  ∀ self gray order visited order' visited',
    build_topo fuel h self (order, visited) = Ok (order', visited') →
    dfs_inv_any h gray order visited →
    dfs_inv_any h gray order' visited'
    ∧ self ∈ visited'
    ∧ (∃ new, order' = order ++ new ∧ users_after (λ m, m = self) h new)
    ∧ (self ∉ visited → ∃ mid, order' = mid ++ [self]).

(** What a derivative field holds after the contributions [cs] have
    been accumulated into it one after the other. *)
Definition acc_all (old : option F) (cs : list F) : option F :=
  foldl (λ o c, Some (accumulated o c)) old cs.

(** The contributions that the inner loop of [backward] on a node with
    derivative [d] and pairs [edges] accumulates into [m], in order. *)
Definition contributions h (d : F) (edges : list (loc * loc)) m : list F :=
  omap (λ e : loc * loc,
          if decide (e.1 = m) then (λ t, fmul d (value t)) <$> h !! e.2
          else None) edges.

(** The contributions of the user [c] to [m], with the derivative of [c]
    read in the store [hd]. *)
Definition pushed h (hd : heap F) (c m : loc) : list F :=
  match hd !! c with
  | Some tc =>
      match derivative tc with
      | Some d => contributions h d (out_edges h c) m
      | None => []
      end
  | None => []
  end.

(** All contributions to [m] from the nodes of [rs], in loop order. *)
Definition incoming h (hd : heap F) (rs : list loc) m : list F :=
  flat_map (λ c, pushed h hd c m) rs.

(** The float that [Tensor(x)] holds for a plain number [x], when
    [float(x)] does not raise. *)
Definition literal (x : operand (F := F)) : option F :=
  match x with
  | OInt n => if int_too_large n then None else Some (float_of_int n)
  | OFloat v => Some v
  | _ => None
  end.

(** The run of [m] on [h] wraps the number [v] as a new leaf [k] without
    name, and returns a new node with value [w] and [args = side k],
    every object of [h] left as it is. *)
Definition wraps (m : M F loc) h (v w : F) (side : loc → list loc) : Prop :=
  ∃ r h' t k,
    m h = Ok (r, h') ∧ length h ≤ k ∧ h' !! k = Some (leaf v None)
    ∧ h' !! r = Some t ∧ value t = w ∧ args t = Some (side k)
    ∧ ∀ n, n < length h → h' !! n = h !! n.

(** The six operator forms with [self] on one side and [x] on the
    other: [self + x], [x + self], [self - x], [x - self], [self * x],
    [x * self]. *)
Definition operator_forms (self : loc) (x : operand (F := F))
  : list (M F loc) :=
  [ tensor_op __add__ self x; reflected_op __add__ __radd__ x self;
    tensor_op __sub__ self x; reflected_op __sub__ __rsub__ x self;
    tensor_op __mul__ self x; reflected_op __mul__ __rmul__ x self ].

End FurtherSpecification.

(** ** A concrete graph *)

(** The graph of [test_reuse] and of the quick test: [x = Tensor(5)],
    [c = Tensor(3)], [s = x + c], [y = s * x], as the operations lay it
    out in an empty store.  [x] is reached from [y] along two paths. *)
Definition reuse_graph {F} {SF : Scalar F} : heap F :=
  [ leaf (float_of_int 5) (Some "x"%string);
    leaf (float_of_int 3) (Some "c"%string);
    op_result (fadd (float_of_int 5) (float_of_int 3)) 0 1 3 4;
    leaf (float_of_int 1) None;
    leaf (float_of_int 1) None;
    op_result (fmul (fadd (float_of_int 5) (float_of_int 3)) (float_of_int 5))
      2 0 0 2 ].

(** The program that builds it. *)
Definition reuse_program {F} {SF : Scalar F} : M F (loc * loc * loc) :=
  let! x := Tensor_of_int 5 (Some "x"%string) in
  let! c := Tensor_of_int 3 (Some "c"%string) in
  let! s := _add x c in
  let! y := _mul s x in
  ret (x, c, y).

(** The graph on binary64 and on the integers. *)
Definition reuse_graph_float : heap float := reuse_graph.
Definition reuse_graph_Z : heap Z := reuse_graph.

(** ** A graph on which binary64 rounds *)

(** [x = Tensor(1)], [A = Tensor(2**53)], [B = Tensor(1)],
    [C = Tensor(1)] and [y = (x*B + x*C) + x*A], as the operations lay
    it out in an empty store: [x] is reached from [y] along three
    paths, with the contributions [B], [C] and [A]. *)
Definition rounding_program {F} {SF : Scalar F} : M F (loc * loc) :=
  let! x := Tensor_of_int 1 (Some "x"%string) in
  let! A := Tensor_of_int (2 ^ 53) (Some "A"%string) in
  let! B := Tensor_of_int 1 (Some "B"%string) in
  let! C := Tensor_of_int 1 (Some "C"%string) in
  let! p1 := _mul x B in
  let! p2 := _mul x C in
  let! s := _add p1 p2 in
  let! p3 := _mul x A in
  let! y := _add s p3 in
  ret (x, y).

Definition rounding_graph {F} {SF : Scalar F} : heap F :=
  let one := float_of_int 1 in
  let big := float_of_int (2 ^ 53) in
  [ leaf one (Some "x"%string);
    leaf big (Some "A"%string);
    leaf one (Some "B"%string);
    leaf one (Some "C"%string);
    op_result (fmul one one) 0 2 2 0;
    op_result (fmul one one) 0 3 3 0;
    op_result (fadd (fmul one one) (fmul one one)) 4 5 7 8;
    leaf one None;
    leaf one None;
    op_result (fmul one big) 0 1 1 0;
    op_result (fadd (fadd (fmul one one) (fmul one one)) (fmul one big))
      6 9 11 12;
    leaf one None;
    leaf one None ].

Definition rounding_graph_float : heap float := rounding_graph.

Definition rounding_graph_Z : heap Z := rounding_graph.

(** The same graph with the derivatives that a [backward] on [y]
    leaves in it. *)
Definition reuse_graph_used : heap Z :=
  [ set_derivative (Some 13%Z) (leaf 5%Z (Some "x"%string));
    set_derivative (Some 5%Z) (leaf 3%Z (Some "c"%string));
    set_derivative (Some 5%Z) (op_result 8%Z 0 1 3 4);
    leaf 1%Z None;
    leaf 1%Z None;
    set_derivative (Some 1%Z) (op_result 40%Z 2 0 0 2) ].

(** The program of [test_clear_derivatives_and_reuse_across_graphs]:
    [x] and [c] are used in two graphs, with [clear_derivatives] on the
    root of the second between the two passes. *)
Definition reuse_across_graphs {F} {SF : Scalar F} (fuel : nat)
  : M F (loc * loc * loc) :=
  let! x := Tensor_of_int 2 (Some "x"%string) in
  let! c := Tensor_of_int 3 (Some "c"%string) in
  let! s := _add x c in
  let! y1 := _mul s x in
  backward fuel y1 ;;;
  let! y2 := _mul x c in
  clear_derivatives fuel y2 ;;;
  backward fuel y2 ;;;
  ret (x, c, s).

(** ** A store with a cycle *)

(** What attribute assignment can build: [a = Tensor(2)],
    [b = Tensor(3)], [l = Tensor(1)], then [a.args = (b,)],
    [b.args = (a,)] and [(l,)] as the [local_derivatives] of both. *)
Definition cyclic_graph {F} {SF : Scalar F} : heap F :=
  [ mkTensor (float_of_int 2) (Some [1]) (Some [2]) None None;
    mkTensor (float_of_int 3) (Some [0]) (Some [2]) None None;
    leaf (float_of_int 1) None ].

Definition cyclic_graph_float : heap float := cyclic_graph.

(** * Proofs *)

(** ** Graphs in the store *)

Section Graph.
Context {F : Type} {SF : Scalar F}.
Implicit Types (h : heap F) (t : Tensor F) (n a root self : loc).

Lemma args_point_back_lookup h : ∀ i k t xs a,
  args_point_back i h = true → h !! k = Some t → args t = Some xs →
  a ∈ xs → a < i + k.
Proof.
  induction h as [|t0 h IH]; intros i k t xs a Hb Hk Hxs Ha; [done|].
  simpl in Hb. apply andb_prop in Hb as [Hhd Htl].
  destruct k as [|k]; simpl in Hk.
  - simplify_eq. rewrite Hxs in Hhd.
    rewrite forallb_forall in Hhd.
    apply list_elem_of_In, Hhd, Nat.ltb_lt in Ha. lia.
  - specialize (IH (S i) k t xs a Htl Hk Hxs Ha). lia.
Qed.

Lemma edge_back_lt h n a :
  args_point_back 0 h = true → edge h n a → a < n.
Proof.
  intros Hb (t & xs & Hn & Hxs & Ha).
  by apply (args_point_back_lookup h 0 n t xs a).
Qed.

Lemma args_point_back_acyclic h : args_point_back 0 h = true → acyclic h.
Proof.
  intros Hb n Hn.
  assert (Hlt : ∀ x y, tc (edge h) x y → y < x).
  { induction 1 as [x y Hxy|x y z Hxy _ IH].
    - by eapply edge_back_lt.
    - apply (edge_back_lt _ _ _ Hb) in Hxy. lia. }
  apply Hlt in Hn. lia.
Qed.

Lemma edge_valid h n a : graph_ok h → edge h n a → a < length h.
Proof.
  intros Hok (t & xs & Hn & Hxs & Ha).
  pose proof (proj1 (Forall_lookup _ _) Hok n t Hn) as Hnode.
  unfold node_ok in Hnode. rewrite Hxs in Hnode.
  destruct (local_derivatives t); [|done].
  destruct Hnode as (_ & Hargs & _).
  by apply (proj1 (Forall_forall _ _) Hargs).
Qed.

Lemma reachable_valid h root n :
  graph_ok h → root < length h → reachable h root n → n < length h.
Proof.
  intros Hok Hroot Hr. induction Hr as [|x y z Hxy _ IH]; [done|].
  apply IH. by eapply edge_valid.
Qed.

(** *** The depth-first traversal *)

Lemma topo_sorted_mem h order n a :
  topo_sorted h order → n ∈ order → edge h n a → a ∈ order.
Proof.
  intros Hts [i Hi]%list_elem_of_lookup He.
  destruct (Hts i n a Hi He) as (j & _ & Hj).
  apply list_elem_of_lookup. eauto.
Qed.

Lemma topo_sorted_snoc h order n :
  topo_sorted h order → (∀ a, edge h n a → a ∈ order) →
  topo_sorted h (order ++ [n]).
Proof.
  intros Hts Hn i m a Hi He.
  destruct (decide (i < length order)) as [Hlt|Hge].
  - rewrite lookup_app_l in Hi by done.
    destruct (Hts i m a Hi He) as (j & Hj & Hja).
    exists j. split; [done|]. rewrite lookup_app_l; [done|lia].
  - assert (i = length order ∧ m = n) as [-> ->].
    { apply lookup_lt_Some in Hi as Hlen. rewrite length_app in Hlen.
      simpl in Hlen. assert (i = length order) as -> by lia.
      rewrite list_lookup_middle in Hi by done. by simplify_eq. }
    destruct (proj1 (list_elem_of_lookup _ _) (Hn a He)) as [j Hj].
    exists j. split; [by eapply lookup_lt_Some|].
    rewrite lookup_app_l; [done|by eapply lookup_lt_Some].
Qed.

End Graph.

Section Traversal.
Context {F : Type} {SF : Scalar F}.
Implicit Types (h : heap F) (t : Tensor F) (n a root self : loc).

Lemma fold_build_topo_spec fuel h :
  topo_spec_at fuel h →
  ∀ xs gray order visited order' visited',
    fold_result (build_topo fuel h) xs (order, visited)
      = Ok (order', visited') →
    dfs_inv h gray order visited →
    (∀ a g, a ∈ xs → g ∈ gray → reachable h g a) →
    dfs_inv h gray order' visited'
    ∧ (∀ a, a ∈ xs → a ∈ visited')
    ∧ ∃ new, order' = order ++ new
        ∧ ∀ x, x ∈ new → ∃ a, a ∈ xs ∧ reachable h a x.
Proof.
  intros IH xs.
  induction xs as [|a xs IHxs]; intros gray order visited order' visited'.
  - simpl. intros [= <- <-] Hinv _. split; [done|]. split; [set_solver|].
    exists []. rewrite app_nil_r. split; [done|set_solver].
  - simpl. intros Hrun Hinv Hgray.
    destruct (build_topo fuel h a (order, visited))
      as [[order1 visited1]|] eqn:Hstep; [|done].
    destruct (IH a gray order visited order1 visited1 Hstep Hinv)
      as (Hinv1 & Ha1 & (new1 & -> & Hnew1) & _).
    { intros g Hg. apply Hgray; [left|done]. }
    destruct (IHxs gray _ _ _ _ Hrun Hinv1)
      as (Hinv2 & Hxs2 & (new2 & -> & Hnew2)).
    { intros b g Hb Hg. apply Hgray; [by right|done]. }
    split; [done|]. split.
    + intros b [->|Hb]%elem_of_cons; [|by apply Hxs2].
      destruct Hinv1 as (_ & Hv1 & _), Hinv2 as (_ & Hv2 & _).
      apply Hv2. apply Hv1 in Ha1 as [Ha1|Ha1]; [left|by right].
      apply elem_of_app. by left.
    + exists (new1 ++ new2). split; [by rewrite app_assoc|].
      intros x [Hx|Hx]%elem_of_app.
      * exists a. split; [left|by apply Hnew1].
      * destruct (Hnew2 x Hx) as (b & Hb & Hbx).
        exists b. split; [by right|done].
Qed.

Lemma build_topo_spec h :
  acyclic h → ∀ fuel, topo_spec_at fuel h.
Proof.
  intros Hacyc fuel. induction fuel as [|fuel IH]; [done|].
  intros self gray order visited order' visited' Hrun Hinv Hgray.
  simpl in Hrun. case_decide as Hvis.
  { simplify_eq. split; [done|]. split; [done|]. split; [|done].
    exists []. rewrite app_nil_r. split; [done|set_solver]. }
  destruct (h !! self) as [t|] eqn:Hself; [|done].
  destruct Hinv as (Hnd & Hv & Hog & Hts).
  assert (Hself_order : self ∉ order) by (intros Hin; apply Hvis, Hv; by left).
  assert (Hself_gray : self ∉ gray) by (intros Hin; apply Hvis, Hv; by right).
  assert (Hinv1 : dfs_inv h (self :: gray) order ({[self]} ∪ visited)).
  { split; [done|]. split; [|split; [|done]].
    - intros x. rewrite elem_of_union, elem_of_singleton, elem_of_cons, Hv.
      tauto.
    - intros x Hx [->|Hxg]%elem_of_cons; [done|]. by eapply Hog. }
  assert (Hgray1 : ∀ g, g ∈ self :: gray → reachable h g self).
  { intros g [->|Hg]%elem_of_cons; [apply rtc_refl|by apply Hgray]. }
  (* the state after the loop over [args] *)
  assert (∃ ok vk new,
    order' = (order ++ new) ++ [self] ∧ visited' = vk
    ∧ dfs_inv h (self :: gray) (order ++ new) vk
    ∧ (∀ a, edge h self a → a ∈ vk)
    ∧ ok = order ++ new
    ∧ ∀ x, x ∈ new → reachable h self x)
    as (ok & vk & new & -> & -> & Hinvk & Hargs & -> & Hnew).
  { destruct (args t) as [xs|] eqn:Hxs.
    - destruct (fold_result (build_topo fuel h) xs (order, {[self]} ∪ visited))
        as [[ok vk]|] eqn:Hfold; [|done].
      simplify_eq.
      destruct (fold_build_topo_spec fuel h IH xs (self :: gray) _ _ _ _
                  Hfold Hinv1) as (Hinvk & Hxsk & (new & -> & Hnew)).
      { intros a g Ha Hg. eapply rtc_r; [by apply Hgray1|].
        by exists t, xs. }
      exists (order ++ new), visited', new.
      repeat split; try done; try apply Hinvk.
      + intros a (t' & xs' & Ht' & Hxs' & Ha). simplify_eq. by apply Hxsk.
      + intros x Hx. destruct (Hnew x Hx) as (a & Ha & Hax).
        eapply rtc_l; [|done]. by exists t, xs.
    - simplify_eq. exists order, ({[self]} ∪ visited), [].
      rewrite app_nil_r. repeat split; try done; try apply Hinv1.
      + intros a (t' & xs' & Ht' & Hxs' & Ha). congruence.
      + set_solver. }
  destruct Hinvk as (Hndk & Hvk & Hogk & Htsk).
  assert (Hself_ok : self ∉ order ++ new).
  { intros Hin. apply (Hogk _ Hin). left. }
  split; [|split; [|split]].
  - split; [|split; [|split]].
    + apply NoDup_app. split; [done|]. split; [|apply NoDup_singleton].
      intros x Hx ->%list_elem_of_singleton. done.
    + intros x. rewrite Hvk, !elem_of_app, elem_of_cons, list_elem_of_singleton.
      tauto.
    + intros x [Hx| ->%list_elem_of_singleton]%elem_of_app; [|done].
      intros Hxg. apply (Hogk _ Hx). by right.
    + apply topo_sorted_snoc; [done|].
      intros a Ha. destruct (proj1 (Hvk a) (Hargs a Ha)) as [Hin|Hin]; [done|].
      exfalso. apply (Hacyc self).
      eapply tc_rtc_r; [by apply tc_once|]. by apply Hgray1.
  - apply Hvk. right. left.
  - exists (new ++ [self]). split; [by rewrite app_assoc|].
    intros x [Hx| ->%list_elem_of_singleton]%elem_of_app;
      [by apply Hnew|apply rtc_refl].
  - intros _. by eexists.
Qed.

End Traversal.

Section Termination.
Context {F : Type} {SF : Scalar F}.
Implicit Types (h : heap F) (t : Tensor F) (n a root self : loc).

Lemma unvisited_mono h (v1 v2 : gset loc) :
  v1 ⊆ v2 → unvisited h v2 ≤ unvisited h v1.
Proof. intros Hsub. apply subseteq_size. set_solver. Qed.

Lemma unvisited_mark h (visited : gset loc) self :
  self < length h → self ∉ visited →
  unvisited h ({[self]} ∪ visited) < unvisited h visited.
Proof.
  intros Hlt Hnot. apply subset_size. apply strict_spec_alt.
  split; [set_solver|].
  assert (self ∈ (set_seq 0 (length h) : gset nat) ∖ visited).
  { apply elem_of_difference. split; [|done]. apply elem_of_set_seq. lia. }
  set_solver.
Qed.

Lemma fold_build_topo_total fuel h :
  topo_total_at fuel h →
  ∀ xs order visited,
    Forall (λ a, a < length h) xs → unvisited h visited < fuel →
    ∃ order' visited',
      fold_result (build_topo fuel h) xs (order, visited)
        = Ok (order', visited')
      ∧ visited ⊆ visited'.
Proof.
  intros IH xs. induction xs as [|a xs IHxs]; intros order visited Hxs Hfuel.
  - by exists order, visited.
  - apply Forall_cons in Hxs as [Ha Hxs]. simpl.
    destruct (IH a order visited Ha Hfuel) as (o1 & v1 & -> & Hsub1).
    destruct (IHxs o1 v1 Hxs) as (o2 & v2 & -> & Hsub2).
    { pose proof (unvisited_mono h _ _ Hsub1). lia. }
    exists o2, v2. split; [done|set_solver].
Qed.

Lemma build_topo_total h : graph_ok h → ∀ fuel, topo_total_at fuel h.
Proof.
  intros Hok fuel. induction fuel as [|fuel IH];
    intros self order visited Hself Hfuel; [lia|].
  cbn [build_topo]. case_decide as Hvis; [by exists order, visited|].
  destruct (lookup_lt_is_Some_2 h self Hself) as [t Ht].
  pose proof (unvisited_mark h visited self Hself Hvis) as Hmark.
  destruct (args t) as [xs|] eqn:Hxs.
  - destruct (fold_build_topo_total fuel h IH xs order ({[self]} ∪ visited))
      as (o' & v' & Hfold & Hsub); [| lia |].
    + pose proof (proj1 (Forall_lookup _ _) Hok self t Ht) as Hnode.
      unfold node_ok in Hnode. rewrite Hxs in Hnode.
      destruct (local_derivatives t); [|done]. apply Hnode.
    + exists (o' ++ [self]), v'. rewrite Ht, Hxs, Hfold.
      split; [done|set_solver].
  - exists (order ++ [self]), ({[self]} ∪ visited). rewrite Ht, Hxs.
    split; [done|set_solver].
Qed.

Lemma unvisited_empty h : unvisited h ∅ = length h.
Proof.
  unfold unvisited. rewrite difference_empty_L. apply size_set_seq.
Qed.

(** The traversal as [backward] and [clear_derivatives] start it. *)
Lemma build_topo_root h root fuel :
  graph_ok h → acyclic h → root < length h → length h < fuel →
  ∃ order visited,
    build_topo fuel h root ([], ∅) = Ok (order, visited)
    ∧ NoDup order
    ∧ (∀ n, n ∈ order ↔ reachable h root n)
    ∧ topo_sorted h order
    ∧ last order = Some root.
Proof.
  intros Hok Hacyc Hroot Hfuel.
  destruct (build_topo_total h Hok fuel root [] ∅ Hroot)
    as (order & visited & Hrun & _); [by rewrite unvisited_empty|].
  exists order, visited. split; [done|].
  destruct (build_topo_spec h Hacyc fuel root [] [] ∅ order visited Hrun)
    as ((Hnd & Hv & _ & Hts) & Hin & (new & Hnew & Hreach) & Hlast).
  { split; [constructor|]. split; [set_solver|]. split; [set_solver|].
    intros i n a Hi. done. }
  { set_solver. }
  simpl in Hnew. subst new.
  assert (Hroot_in : root ∈ order).
  { apply Hv in Hin as [?|Hg]; [done|]. by apply elem_of_nil in Hg. }
  split; [done|]. split; [|split; [done|]].
  - intros n. split; [apply Hreach|].
    assert (Hup : ∀ x y, rtc (edge h) x y → x ∈ order → y ∈ order).
    { induction 1 as [|x y z Hxy _ IH]; [done|].
      intros Hx. apply IH. by eapply topo_sorted_mem. }
    intros Hr. by apply (Hup root n).
  - destruct Hlast as [mid ->]; [set_solver|]. apply last_snoc.
Qed.

Lemma fold_result_mono {S A} (step step' : A → S → result S) xs s r :
  (∀ x s r, step x s = Ok r → step' x s = Ok r) →
  fold_result step xs s = Ok r → fold_result step' xs s = Ok r.
Proof.
  intros Hstep. revert s. induction xs as [|x xs IH]; intros s; [done|].
  simpl. destruct (step x s) as [s1|] eqn:Hx; [|done].
  rewrite (Hstep _ _ _ Hx). apply IH.
Qed.

(** A result found within one recursion budget is the result within
    every larger one. *)
Lemma build_topo_fuel_mono h fuel fuel' self st r :
  fuel ≤ fuel' →
  build_topo fuel h self st = Ok r → build_topo fuel' h self st = Ok r.
Proof.
  revert fuel' self st r.
  induction fuel as [|fuel IH]; intros fuel' self [order visited] r Hle;
    [done|].
  destruct fuel' as [|fuel']; [lia|]. cbn [build_topo].
  case_decide; [done|]. destruct (h !! self) as [t|]; [|done].
  destruct (args t) as [xs|]; [|done].
  destruct (fold_result (build_topo fuel h) xs _) as [[o v]|] eqn:Hfold;
    [|done].
  rewrite (fold_result_mono _ (build_topo fuel' h) _ _ _
             (λ x s r, IH fuel' x s r ltac:(lia)) Hfold).
  done.
Qed.

Lemma backward_fuel_mono h fuel fuel' root u h' :
  fuel ≤ fuel' →
  backward fuel root h = Ok (u, h') → backward fuel' root h = Ok (u, h').
Proof.
  intros Hle. unfold backward, bind at 1 3.
  destruct (setattr root _ h) as [[u1 h1]|]; [|done].
  unfold bind, topo_order.
  destruct (build_topo fuel h1 root ([], ∅)) as [[order visited]|] eqn:Htopo;
    [|done].
  by rewrite (build_topo_fuel_mono _ _ _ _ _ _ Hle Htopo).
Qed.

Lemma clear_derivatives_fuel_mono h fuel fuel' root u h' :
  fuel ≤ fuel' →
  clear_derivatives fuel root h = Ok (u, h') →
  clear_derivatives fuel' root h = Ok (u, h').
Proof.
  intros Hle. unfold clear_derivatives, bind, topo_order.
  destruct (build_topo fuel h root ([], ∅)) as [[order visited]|] eqn:Htopo;
    [|done].
  by rewrite (build_topo_fuel_mono _ _ _ _ _ _ Hle Htopo).
Qed.

End Termination.

(** ** What the passes leave alone *)

Section Frame.
Context {F : Type} {SF : Scalar F}.
Implicit Types (h : heap F) (t : Tensor F) (n a root self : loc).

Lemma same_fields_refl t : same_fields t t.
Proof. by repeat split. Qed.

Lemma same_fields_trans t1 t2 t3 :
  same_fields t1 t2 → same_fields t2 t3 → same_fields t1 t3.
Proof.
  intros (? & ? & ? & ?) (? & ? & ? & ?). repeat split; congruence.
Qed.

Lemma same_graph_refl h : same_graph h h.
Proof. apply Forall2_same_length_lookup. split; [done|].
  intros i x y ? ?. simplify_eq. apply same_fields_refl. Qed.

Lemma same_graph_trans h1 h2 h3 :
  same_graph h1 h2 → same_graph h2 h3 → same_graph h1 h3.
Proof.
  intros H12 H23. eapply Forall2_trans; [|done..].
  apply same_fields_trans.
Qed.

Lemma same_graph_length h h' : same_graph h h' → length h' = length h.
Proof. intros Hs. symmetry. by eapply Forall2_length. Qed.

Lemma same_graph_lookup h h' n t :
  same_graph h h' → h !! n = Some t →
  ∃ t', h' !! n = Some t' ∧ same_fields t t'.
Proof. intros Hs Hn. by eapply Forall2_lookup_l. Qed.

Lemma same_graph_lookup_r h h' n t' :
  same_graph h h' → h' !! n = Some t' →
  ∃ t, h !! n = Some t ∧ same_fields t t'.
Proof. intros Hs Hn. by eapply Forall2_lookup_r. Qed.

Lemma same_graph_edge h h' n a : same_graph h h' → edge h n a ↔ edge h' n a.
Proof.
  intros Hs. split.
  - intros (t & xs & Hn & Hxs & Ha).
    destruct (same_graph_lookup _ _ _ _ Hs Hn) as (t' & Hn' & _ & Hargs & _).
    exists t', xs. by rewrite Hargs.
  - intros (t' & xs & Hn' & Hxs & Ha).
    destruct (same_graph_lookup_r _ _ _ _ Hs Hn') as (t & Hn & _ & Hargs & _).
    exists t, xs. by rewrite <- Hargs.
Qed.

Lemma same_graph_reachable h h' root n :
  same_graph h h' → reachable h root n ↔ reachable h' root n.
Proof.
  intros Hs. unfold reachable. split.
  - induction 1 as [|x y z Hxy _ IH]; [apply rtc_refl|].
    eapply rtc_l; [|done]. by apply (same_graph_edge h h').
  - induction 1 as [|x y z Hxy _ IH]; [apply rtc_refl|].
    eapply rtc_l; [|done]. by apply (same_graph_edge h h').
Qed.

Lemma same_graph_acyclic h h' : same_graph h h' → acyclic h → acyclic h'.
Proof.
  intros Hs Hac n Hn. apply (Hac n). clear Hac.
  assert (Htc : ∀ x y, tc (edge h') x y → tc (edge h) x y); [|by apply Htc].
  induction 1 as [x y Hxy|x y z Hxy _ IH].
  - apply tc_once. by apply (same_graph_edge h h').
  - eapply tc_l; [|done]. by apply (same_graph_edge h h').
Qed.

Lemma same_graph_ok h h' : same_graph h h' → graph_ok h → graph_ok h'.
Proof.
  intros Hs Hok. apply Forall_lookup. intros n t' Hn'.
  destruct (same_graph_lookup_r _ _ _ _ Hs Hn') as (t & Hn & _ & Ha & Hl & _).
  pose proof (proj1 (Forall_lookup _ _) Hok n t Hn) as Hnode.
  unfold node_ok in *. rewrite Ha, Hl, (same_graph_length _ _ Hs). done.
Qed.

Lemma fold_result_ext {S A} (f g : A → S → result S) xs s :
  (∀ x s, f x s = g x s) → fold_result f xs s = fold_result g xs s.
Proof.
  intros Hfg. revert s. induction xs as [|x xs IH]; intros s; [done|].
  simpl. rewrite Hfg. destruct (g x s); [apply IH|done].
Qed.

(** The traversal reads [args] only. *)
Lemma same_graph_build_topo h h' fuel :
  same_graph h h' →
  ∀ self st, build_topo fuel h' self st = build_topo fuel h self st.
Proof.
  intros Hs. induction fuel as [|fuel IH]; intros self [order visited]; [done|].
  cbn [build_topo]. case_decide; [done|].
  destruct (h !! self) as [t|] eqn:Hn.
  - destruct (same_graph_lookup _ _ _ _ Hs Hn) as (t' & -> & _ & -> & _).
    destruct (args t); [|done]. by rewrite (fold_result_ext _ _ _ _ IH).
  - destruct (h' !! self) as [t'|] eqn:Hn'; [|done].
    destruct (same_graph_lookup_r _ _ _ _ Hs Hn') as (t & ? & _). congruence.
Qed.

Lemma only_derivatives_refl P h : only_derivatives P h h.
Proof. split; [apply same_graph_refl|done]. Qed.

Lemma only_derivatives_trans P h1 h2 h3 :
  only_derivatives P h1 h2 → only_derivatives P h2 h3 →
  only_derivatives P h1 h3.
Proof.
  intros [Hs12 Hf12] [Hs23 Hf23]. split; [by eapply same_graph_trans|].
  intros n Hn. by rewrite Hf23, Hf12.
Qed.

Lemma only_derivatives_weaken (P Q : loc → Prop) h h' :
  (∀ n, P n → Q n) → only_derivatives P h h' → only_derivatives Q h h'.
Proof. intros HPQ [Hs Hf]. split; [done|]. intros n Hn. apply Hf. auto. Qed.

(** An assignment to [derivative]. *)
Lemma setattr_derivative_inv h l v u h' :
  setattr l (set_derivative v) h = Ok (u, h') →
  ∃ t, h !! l = Some t ∧ h' = <[l := set_derivative v t]> h.
Proof.
  unfold setattr. destruct (h !! l) as [t|] eqn:Hl; [|done].
  intros [= <- <-]. by exists t.
Qed.

Lemma insert_derivative_only h l t v :
  h !! l = Some t →
  only_derivatives (λ n, n = l) h (<[l := set_derivative v t]> h).
Proof.
  intros Hl. split.
  - apply Forall2_same_length_lookup. split; [by rewrite length_insert|].
    intros i x y Hx Hy. destruct (decide (i = l)) as [->|Hne].
    + rewrite list_lookup_insert_eq in Hy by (by eapply lookup_lt_Some).
      simplify_eq. by repeat split.
    + rewrite list_lookup_insert_ne in Hy by done. simplify_eq.
      apply same_fields_refl.
  - intros n Hn. by rewrite list_lookup_insert_ne.
Qed.

Lemma setattr_derivative_only h l v u h' :
  setattr l (set_derivative v) h = Ok (u, h') →
  only_derivatives (λ n, n = l) h h'.
Proof.
  intros (t & Hl & ->)%setattr_derivative_inv.
  by apply insert_derivative_only.
Qed.

(** Loops: an invariant kept by every iteration is kept by the loop. *)
Lemma for_each_inv {A} (I : heap F → Prop) (body : A → M F unit) xs h u h' :
  (∀ x h1 u1 h2, x ∈ xs → I h1 → body x h1 = Ok (u1, h2) → I h2) →
  I h → for_each xs body h = Ok (u, h') → I h'.
Proof.
  revert h. induction xs as [|x xs IH]; intros h Hbody HI Hrun.
  - by injection Hrun as <- <-.
  - simpl in Hrun. unfold bind in Hrun at 1.
    destruct (body x h) as [[u1 h1]|] eqn:Hx; [|done].
    eapply IH; [|by eapply Hbody; [left|..]|done].
    intros y h2 u2 h3 Hy. apply Hbody. by right.
Qed.

Lemma for_each_app {A} (body : A → M F unit) xs ys h :
  for_each (xs ++ ys) body h
  = (for_each xs body ;;; for_each ys body) h.
Proof.
  revert h. induction xs as [|x xs IH]; intros h; [done|].
  cbn [for_each app]. unfold bind. destruct (body x h) as [[u1 h1]|]; [|done].
  rewrite IH. done.
Qed.

End Frame.

(** ** The backward pass runs to completion *)

Section BackwardRuns.
Context {F : Type} {SF : Scalar F}.
Implicit Types (h : heap F) (t : Tensor F) (n a root self : loc).

Lemma accumulate_run h a c t :
  h !! a = Some t →
  accumulate a c h
  = Ok (tt, <[a := set_derivative (Some (accumulated (derivative t) c)) t]> h).
Proof.
  intros Ha. unfold accumulate, bind, deref. rewrite Ha.
  unfold setattr. destruct (derivative t); simpl; by rewrite Ha.
Qed.

Lemma push_run h n a l tn tl ta d :
  h !! n = Some tn → h !! l = Some tl → h !! a = Some ta →
  derivative tn = Some d →
  push n (a, l) h
  = Ok (tt, <[a := set_derivative
                     (Some (accumulated (derivative ta) (fmul d (value tl))))
                     ta]> h).
Proof.
  intros Hn Hl Ha Hd. unfold push, bind, deref. rewrite Hn, Hl, Hd.
  by apply accumulate_run.
Qed.

(** A successful [push] is the run above. *)
Lemma push_inv h n a l u h' :
  push n (a, l) h = Ok (u, h') →
  ∃ tn tl ta d,
    h !! n = Some tn ∧ h !! l = Some tl ∧ h !! a = Some ta
    ∧ derivative tn = Some d
    ∧ h' = <[a := set_derivative
                     (Some (accumulated (derivative ta) (fmul d (value tl))))
                     ta]> h.
Proof.
  unfold push, bind, deref.
  destruct (h !! n) as [tn|] eqn:Hn; [|done].
  destruct (h !! l) as [tl|] eqn:Hl; [|done].
  destruct (derivative tn) as [d|] eqn:Hd; [|done].
  unfold accumulate, bind, deref.
  destruct (h !! a) as [ta|] eqn:Ha; [|done].
  intros Hrun. exists tn, tl, ta, d. repeat split; try done.
  unfold setattr in Hrun.
  destruct (derivative ta); simpl; rewrite Ha in Hrun; by simplify_eq.
Qed.

Lemma present_insert h l t v m :
  h !! l = Some t → present h m →
  present (<[l := set_derivative (Some v) t]> h) m.
Proof.
  intros Hl (tm & d & Hm & Hd). destruct (decide (m = l)) as [->|Hne].
  - exists (set_derivative (Some v) t), v. split; [|done].
    apply list_lookup_insert_eq. by eapply lookup_lt_Some.
  - exists tm, d. by rewrite list_lookup_insert_ne.
Qed.

Lemma present_insert_eq h l t v :
  h !! l = Some t → present (<[l := set_derivative (Some v) t]> h) l.
Proof.
  intros Hl. exists (set_derivative (Some v) t), v. split; [|done].
  apply list_lookup_insert_eq. by eapply lookup_lt_Some.
Qed.

(** The inner loop of [backward]. *)
Lemma push_loop_runs n : ∀ (edges : list (loc * loc)) h,
  Forall (λ e, e.1 < length h ∧ e.2 < length h) edges →
  present h n →
  ∃ h', for_each edges (push n) h = Ok (tt, h')
    ∧ only_derivatives (λ m, m ∈ edges.*1) h h'
    ∧ (∀ m, present h m → present h' m)
    ∧ (∀ m, m ∈ edges.*1 → present h' m).
Proof.
  induction edges as [|[a l] edges IH]; intros h Hval Hn.
  - exists h. split; [done|]. split; [apply only_derivatives_refl|].
    split; [done|]. intros m Hm. by apply elem_of_nil in Hm.
  - apply Forall_cons in Hval as [[Ha Hl] Hval]. simpl in Ha, Hl.
    destruct Hn as (tn & d & Htn & Hd).
    destruct (lookup_lt_is_Some_2 h a Ha) as [ta Hta].
    destruct (lookup_lt_is_Some_2 h l Hl) as [tl Htl].
    pose proof (push_run h n a l tn tl ta d Htn Htl Hta Hd) as Hpush.
    set (h1 := <[a := _]> h) in Hpush.
    destruct (IH h1) as (h' & Hrun & Honly & Hkeep & Hnew).
    { unfold h1. by rewrite length_insert. }
    { apply present_insert; [done|]. by exists tn, d. }
    exists h'. cbn [for_each]. unfold bind at 1. rewrite Hpush.
    split; [done|]. split; [|split].
    + eapply only_derivatives_trans.
      * eapply only_derivatives_weaken;
          [|by apply (insert_derivative_only h a ta)].
        intros m ->. rewrite fmap_cons. left.
      * eapply only_derivatives_weaken; [|done].
        intros m Hm. rewrite fmap_cons. by right.
    + intros m Hm. apply Hkeep. by apply present_insert.
    + intros m. rewrite fmap_cons. intros [->|Hm]%elem_of_cons; [|by auto].
      apply Hkeep. by apply present_insert_eq.
Qed.

Lemma node_ok_lookup h n t xs :
  graph_ok h → h !! n = Some t → args t = Some xs →
  ∃ ls, local_derivatives t = Some ls ∧ length ls = length xs
    ∧ Forall (λ a, a < length h) xs ∧ Forall (λ l, l < length h) ls.
Proof.
  intros Hok Hn Hxs.
  pose proof (proj1 (Forall_lookup _ _) Hok n t Hn) as Hnode.
  unfold node_ok in Hnode. rewrite Hxs in Hnode.
  destruct (local_derivatives t) as [ls|]; [|done]. by exists ls.
Qed.

Lemma zip_valid (xs ls : list loc) k :
  Forall (λ a, a < k) xs → Forall (λ l, l < k) ls →
  Forall (λ e : loc * loc, e.1 < k ∧ e.2 < k) (zip xs ls).
Proof.
  intros Hxs. revert ls. induction Hxs as [|x xs Hx _ IH]; intros ls Hls.
  - constructor.
  - destruct Hls as [|l ls Hl Hls]; [constructor|].
    simpl. constructor; [done|by apply IH].
Qed.

(** The body of the outer loop, on a node that holds a derivative. *)
Lemma backward_node_runs h n :
  graph_ok h → n < length h → present h n →
  ∃ h', backward_node n h = Ok (tt, h')
    ∧ only_derivatives (edge h n) h h'
    ∧ (∀ m, present h m → present h' m)
    ∧ (∀ a, edge h n a → present h' a).
Proof.
  intros Hok Hlt Hn.
  destruct (lookup_lt_is_Some_2 h n Hlt) as [t Ht].
  unfold backward_node, bind, deref. rewrite Ht.
  destruct (args t) as [xs|] eqn:Hxs.
  - destruct (node_ok_lookup h n t xs Hok Ht Hxs)
      as (ls & -> & Hlen & Hvx & Hvl).
    destruct (push_loop_runs n (zip xs ls) h (zip_valid _ _ _ Hvx Hvl) Hn)
      as (h' & Hrun & Honly & Hkeep & Hnew).
    rewrite fst_zip in Honly, Hnew by lia.
    exists h'. split; [done|]. split; [|split; [done|]].
    + eapply only_derivatives_weaken; [|done].
      intros m Hm. by exists t, xs.
    + intros a (t' & xs' & Ht' & Hxs' & Ha). simplify_eq. by apply Hnew.
  - exists h. split; [done|]. split; [apply only_derivatives_refl|].
    split; [done|]. intros a (t' & xs' & Ht' & Hxs' & Ha). congruence.
Qed.

(** The outer loop, started after [pre] has been processed. *)
Lemma backward_loop_runs h0 root : ∀ rest pre h,
  graph_ok h0 → users_first h0 root (pre ++ rest) →
  Forall (λ m, m < length h0) rest →
  same_graph h0 h → present h root →
  (∀ c a, c ∈ pre → edge h0 c a → present h a) →
  ∃ h', for_each rest backward_node h = Ok (tt, h')
    ∧ only_derivatives (λ m, ∃ c, c ∈ rest ∧ edge h0 c m) h h'
    ∧ (∀ m, present h m → present h' m)
    ∧ (∀ c a, c ∈ pre ++ rest → edge h0 c a → present h' a).
Proof.
  induction rest as [|n rest IH]; intros pre h Hok Huf Hval Hs Hroot Hpre.
  - exists h. split; [done|]. split; [apply only_derivatives_refl|].
    split; [done|]. intros c a. rewrite app_nil_r. apply Hpre.
  - apply Forall_cons in Hval as [Hn Hval].
    assert (Hpn : present h n).
    { destruct (Huf pre n rest eq_refl) as [->|(c & Hc & Hcn)]; [done|].
      by eapply Hpre. }
    destruct (backward_node_runs h n) as (h1 & Hrun1 & Honly1 & Hkeep1 & Hnew1).
    { by eapply same_graph_ok. }
    { by rewrite (same_graph_length _ _ Hs). }
    { done. }
    destruct (IH (pre ++ [n]) h1) as (h' & Hrun & Honly & Hkeep & Hnew).
    { done. }
    { by rewrite <- app_assoc. }
    { done. }
    { eapply same_graph_trans; [done|apply Honly1]. }
    { by apply Hkeep1. }
    { intros c a [Hc| ->%list_elem_of_singleton]%elem_of_app Hca.
      - apply Hkeep1. by eapply Hpre.
      - apply Hnew1. by apply (same_graph_edge h0 h). }
    exists h'. cbn [for_each]. unfold bind at 1. rewrite Hrun1.
    split; [done|]. split; [|split].
    + eapply only_derivatives_trans.
      * eapply only_derivatives_weaken; [|done].
        intros m Hm. exists n. split; [left|].
        by apply (same_graph_edge h0 h).
      * eapply only_derivatives_weaken; [|done].
        intros m (c & Hc & Hm). exists c. split; [by right|done].
    + intros m Hm. by apply Hkeep, Hkeep1.
    + intros c a Hc. apply Hnew. by rewrite <- app_assoc.
Qed.

End BackwardRuns.

Section Passes.
Context {F : Type} {SF : Scalar F}.
Implicit Types (h : heap F) (t : Tensor F) (n a root self : loc).

Lemma topo_split_args h (A B : list loc) n a :
  topo_sorted h (A ++ n :: B) → edge h n a → a ∈ A.
Proof.
  intros Hts He.
  destruct (Hts (length A) n a) as (j & Hj & Hja); [|done|].
  { by rewrite list_lookup_middle. }
  rewrite lookup_app_l in Hja by done.
  apply list_elem_of_lookup. eauto.
Qed.

Lemma topo_split_user h (A B : list loc) m c :
  NoDup (A ++ m :: B) → topo_sorted h (A ++ m :: B) →
  c ∈ A ++ m :: B → edge h c m → c ∈ B.
Proof.
  intros Hnd Hts [i Hi]%list_elem_of_lookup He.
  destruct (Hts i c m Hi He) as (j & Hj & Hjm).
  assert (j = length A) as ->.
  { eapply NoDup_lookup; [done..|]. by rewrite list_lookup_middle. }
  rewrite lookup_app_r in Hi by lia.
  destruct (i - length A) as [|k] eqn:Hk; [lia|]. simpl in Hi.
  apply list_elem_of_lookup. eauto.
Qed.

Lemma reverse_split (order pre post : list loc) m :
  reverse order = pre ++ m :: post →
  order = reverse post ++ m :: reverse pre.
Proof.
  intros Hrev. rewrite <- (reverse_involutive order), Hrev.
  rewrite reverse_app, reverse_cons, <- app_assoc. done.
Qed.

Lemma users_first_reverse h root (order : list loc) :
  NoDup order → topo_sorted h order →
  (∀ n, n ∈ order ↔ reachable h root n) →
  users_first h root (reverse order).
Proof.
  intros Hnd Hts Hreach pre m post Hsplit.
  apply reverse_split in Hsplit. subst order.
  assert (Hm : reachable h root m).
  { apply Hreach. apply elem_of_app. right. left. }
  apply rtc_inv_r in Hm as [->|(c & Hc & Hcm)]; [by left|].
  right. exists c. split; [|done]. apply elem_of_reverse.
  eapply topo_split_user; [done..| |done]. by apply Hreach.
Qed.

Lemma args_later_reverse h (order : list loc) :
  topo_sorted h order → args_later h (reverse order).
Proof.
  intros Hts pre n post a Hsplit He.
  apply reverse_split in Hsplit. subst order.
  apply elem_of_reverse. by eapply topo_split_args.
Qed.

(** [backward] is the seeding of the root followed by the loop over the
    reversed order. *)
Lemma backward_run h root fuel t order visited :
  h !! root = Some t →
  build_topo fuel h root ([], ∅) = Ok (order, visited) →
  backward fuel root h
  = for_each (reverse order) backward_node
      (<[root := set_derivative (Some float_one) t]> h).
Proof.
  intros Hroot Htopo. unfold backward, bind at 1, setattr. rewrite Hroot.
  unfold bind, topo_order.
  rewrite (same_graph_build_topo h); [by rewrite Htopo|].
  by apply insert_derivative_only.
Qed.

Lemma clear_derivatives_run h root fuel order visited :
  build_topo fuel h root ([], ∅) = Ok (order, visited) →
  clear_derivatives fuel root h
  = for_each order (λ node, setattr node (set_derivative None)) h.
Proof.
  intros Htopo. unfold clear_derivatives, bind, topo_order. by rewrite Htopo.
Qed.

(** The loop of [clear_derivatives]. *)
Lemma clear_loop_run : ∀ (xs : list loc) h,
  Forall (λ n, n < length h) xs →
  ∃ h', for_each xs (λ node, setattr node (set_derivative None)) h
        = Ok (tt, h')
    ∧ ∀ i, h' !! i = if decide (i ∈ xs)
                     then set_derivative None <$> h !! i
                     else h !! i.
Proof.
  induction xs as [|x xs IH]; intros h Hval.
  - exists h. split; [done|]. intros i. case_decide as Hi; [|done].
    by apply elem_of_nil in Hi.
  - apply Forall_cons in Hval as [Hx Hval].
    destruct (lookup_lt_is_Some_2 h x Hx) as [t Ht].
    destruct (IH (<[x := set_derivative None t]> h)) as (h' & Hrun & Hh').
    { by rewrite length_insert. }
    exists h'. cbn [for_each]. unfold bind at 1, setattr at 1. rewrite Ht.
    split; [done|]. intros i. rewrite Hh'.
    destruct (decide (i = x)) as [->|Hne].
    + rewrite list_lookup_insert_eq by done. rewrite Ht.
      destruct (decide (x ∈ x :: xs)) as [_|Hn]; [|exfalso; apply Hn; left].
      by case_decide.
    + rewrite list_lookup_insert_ne by done.
      destruct (decide (i ∈ xs)) as [Hi|Hi],
               (decide (i ∈ x :: xs)) as [Hi'|Hi']; try done.
      * exfalso. apply Hi'. by right.
      * apply elem_of_cons in Hi' as [?|?]; done.
Qed.

(** The facts about one call of [backward] on a well-formed acyclic
    graph that the properties below share. *)
Lemma backward_total h root fuel :
  graph_ok h → acyclic h → root < length h → length h < fuel →
  ∃ order visited t h',
    build_topo fuel h root ([], ∅) = Ok (order, visited)
    ∧ NoDup order
    ∧ (∀ n, n ∈ order ↔ reachable h root n)
    ∧ topo_sorted h order
    ∧ last order = Some root
    ∧ h !! root = Some t
    ∧ backward fuel root h = Ok (tt, h')
    ∧ for_each (reverse order) backward_node
        (<[root := set_derivative (Some float_one) t]> h) = Ok (tt, h')
    ∧ only_derivatives (reachable h root) h h'
    ∧ (∀ n, reachable h root n → present h' n).
Proof.
  intros Hok Hacyc Hroot Hfuel.
  destruct (build_topo_root h root fuel Hok Hacyc Hroot Hfuel)
    as (order & visited & Htopo & Hnd & Hreach & Hts & Hlast).
  destruct (lookup_lt_is_Some_2 h root Hroot) as [t Ht].
  pose proof (insert_derivative_only h root t (Some float_one) Ht) as Hseed.
  set (h1 := <[root := set_derivative (Some float_one) t]> h) in *.
  destruct (backward_loop_runs h root (reverse order) [] h1)
    as (h' & Hrun & Honly & Hkeep & Hnew).
  { done. }
  { by apply users_first_reverse. }
  { apply Forall_forall. intros m Hm%elem_of_reverse%Hreach.
    by eapply reachable_valid. }
  { apply Hseed. }
  { by apply present_insert_eq. }
  { intros c a Hc. by apply elem_of_nil in Hc. }
  exists order, visited, t, h'.
  rewrite (backward_run h root fuel t order visited Ht Htopo).
  repeat split; try done; try apply Hreach.
  - eapply same_graph_trans; [apply Hseed|apply Honly].
  - intros n Hn. destruct Honly as [_ Hf]. rewrite Hf.
    + destruct Hseed as [_ Hf1]. apply Hf1. intros ->. apply Hn, rtc_refl.
    + intros (c & Hc%elem_of_reverse%Hreach & Hcn).
      apply Hn. by eapply rtc_r.
  - intros n Hn. apply rtc_inv_r in Hn as [->|(c & Hc & Hcn)].
    + apply Hkeep. by apply present_insert_eq.
    + apply Hnew with c; [|done]. by apply elem_of_reverse, Hreach.
Qed.

End Passes.

(** ** Exact arithmetic: the chain rule *)

Section Calculus.
Context {F : Type} {SF : Scalar F} {EF : ExactScalar F}.
Implicit Types (h : heap F) (t : Tensor F) (n a root self x : loc).

Add Ring scalar_ring_inst : scalar_ring.

Lemma sum_list_ext {A} (f g : A → F) xs :
  (∀ e, e ∈ xs → f e = g e) → sum_list f xs = sum_list g xs.
Proof.
  induction xs as [|e xs IH]; intros Hfg; [done|]. simpl.
  rewrite (Hfg e) by left. rewrite IH; [done|].
  intros e' He'. apply Hfg. by right.
Qed.

Lemma sum_list_zero {A} (f : A → F) xs :
  (∀ e, e ∈ xs → f e = fzero) → sum_list f xs = fzero.
Proof.
  induction xs as [|e xs IH]; intros Hf; [done|]. simpl.
  rewrite (Hf e) by left. rewrite IH; [ring|].
  intros e' He'. apply Hf. by right.
Qed.

Lemma out_edges_edge h n e : e ∈ out_edges h n → edge h n e.1.
Proof.
  unfold out_edges. destruct (h !! n) as [t|] eqn:Hn; [|by intros ?%elem_of_nil].
  destruct (args t) as [xs|] eqn:Hxs; [|by intros ?%elem_of_nil].
  destruct (local_derivatives t) as [ls|]; [|by intros ?%elem_of_nil].
  intros He. exists t, xs. split; [done|]. split; [done|].
  destruct e as [a l]. by apply elem_of_zip_l in He.
Qed.

(** Once the fuel exceeds the position of a node in a topological order,
    more fuel changes nothing. *)
Lemma tangent_stable h x (order : list loc) :
  topo_sorted h order →
  ∀ i m f, order !! i = Some m → i < f →
    tangent f h x m = tangent (S i) h x m.
Proof.
  intros Hts i. induction (lt_wf i) as [i _ IH]. intros m f Hi Hf.
  destruct f as [|f]; [lia|]. cbn [tangent]. case_decide; [done|].
  apply sum_list_ext. intros e He. f_equal.
  destruct (Hts i m e.1 Hi (out_edges_edge _ _ _ He)) as (j & Hj & Hje).
  rewrite (IH j Hj e.1 f Hje) by lia. by rewrite (IH j Hj e.1 i Hje) by lia.
Qed.

Lemma tangent_self h x f : tangent (S f) h x x = float_one.
Proof. cbn [tangent]. by rewrite decide_True. Qed.

(** Below [x] nothing depends on [x]. *)
Lemma tangent_unreachable h x f m :
  ¬ reachable h m x → tangent f h x m = fzero.
Proof.
  revert m. induction f as [|f IH]; intros m Hm; [done|].
  cbn [tangent]. case_decide as Hmx; [subst; destruct Hm; apply rtc_refl|].
  apply sum_list_zero. intros e He. rewrite IH; [ring|].
  intros Hr. apply Hm. eapply rtc_l; [|done]. by apply out_edges_edge.
Qed.

Lemma dval_insert_ne h l t' m : m ≠ l → dval (<[l := t']> h) m = dval h m.
Proof. intros Hne. unfold dval. by rewrite list_lookup_insert_ne. Qed.

Lemma dval_accumulated h a ta c :
  h !! a = Some ta →
  dval (<[a := set_derivative (Some (accumulated (derivative ta) c)) ta]> h) a
  = fadd (dval h a) c.
Proof.
  intros Ha. unfold dval.
  rewrite list_lookup_insert_eq by (by eapply lookup_lt_Some).
  rewrite Ha. simpl. destruct (derivative ta); simpl; ring.
Qed.

Lemma value_at_same h h' l : same_graph h h' → value_at h' l = value_at h l.
Proof.
  intros Hs. unfold value_at. destruct (h !! l) as [t|] eqn:Hl.
  - by destruct (same_graph_lookup _ _ _ _ Hs Hl) as (t' & -> & -> & _).
  - destruct (h' !! l) as [t'|] eqn:Hl'; [|done].
    destruct (same_graph_lookup_r _ _ _ _ Hs Hl') as (t & ? & _). congruence.
Qed.

Lemma out_edges_same h h' n : same_graph h h' → out_edges h' n = out_edges h n.
Proof.
  intros Hs. unfold out_edges. destruct (h !! n) as [t|] eqn:Hn.
  - by destruct (same_graph_lookup _ _ _ _ Hs Hn) as (t' & -> & _ & -> & -> & _).
  - destruct (h' !! n) as [t'|] eqn:Hn'; [|done].
    destruct (same_graph_lookup_r _ _ _ _ Hs Hn') as (t & ? & _). congruence.
Qed.

Lemma wsum_ext T h h' (U : list loc) :
  (∀ m, m ∈ U → dval h' m = dval h m) → wsum T h' U = wsum T h U.
Proof.
  intros Hd. apply sum_list_ext. intros m Hm. by rewrite Hd.
Qed.

Lemma wsum_cons T h n (U : list loc) :
  wsum T h (n :: U) = fadd (fmul (dval h n) (T n)) (wsum T h U).
Proof. done. Qed.

(** One accumulation into a node of [U] moves the weighted sum by the
    contribution times the node's weight. *)
Lemma wsum_accumulated T h (U : list loc) a ta c :
  NoDup U → a ∈ U → h !! a = Some ta →
  wsum T (<[a := set_derivative (Some (accumulated (derivative ta) c)) ta]> h) U
  = fadd (wsum T h U) (fmul c (T a)).
Proof.
  intros Hnd Ha Hta. induction Hnd as [|m U Hm Hnd IH].
  - by apply elem_of_nil in Ha.
  - unfold wsum in *. cbn [sum_list foldr].
    destruct (decide (m = a)) as [->|Hne].
    + rewrite dval_accumulated by done.
      fold (sum_list (λ m, fmul (dval (<[a := set_derivative
             (Some (accumulated (derivative ta) c)) ta]> h) m) (T m)) U).
      rewrite (sum_list_ext _ (λ m, fmul (dval h m) (T m))).
      * unfold sum_list. ring.
      * intros m Hm'. rewrite dval_insert_ne; [done|]. by intros ->.
    + rewrite dval_insert_ne by done.
      apply elem_of_cons in Ha as [->|Ha]; [done|].
      unfold sum_list in IH. rewrite (IH Ha). ring.
Qed.

(** The inner loop moves the weighted sum of a set [U] that holds the
    operands but not the node by [derivative(n) * Σ local * weight]. *)
Lemma push_loop_wsum T n (U : list loc) : NoDup U → n ∉ U →
  ∀ (edges : list (loc * loc)) h u h',
    for_each edges (push n) h = Ok (u, h') →
    (∀ e, e ∈ edges → e.1 ∈ U) →
    wsum T h' U
    = fadd (wsum T h U)
        (fmul (dval h n)
           (sum_list (λ e, fmul (value_at h e.2) (T e.1)) edges)).
Proof.
  intros Hnd Hn. induction edges as [|[a l] edges IH]; intros h u h' Hrun HU.
  - injection Hrun as <- <-. simpl. ring.
  - cbn [for_each] in Hrun. unfold bind at 1 in Hrun.
    destruct (push n (a, l) h) as [[u1 h1]|] eqn:Hpush; [|done].
    apply push_inv in Hpush as (tn & tl & ta & d & Htn & Htl & Hta & Hd & ->).
    assert (Ha : a ∈ U) by (apply (HU (a, l)); left).
    assert (Hne : n ≠ a) by (by intros ->).
    rewrite (IH _ _ _ Hrun) by (intros e He; apply HU; by right).
    rewrite wsum_accumulated by done.
    rewrite dval_insert_ne by done.
    rewrite (sum_list_ext _ (λ e, fmul (value_at h e.2) (T e.1))).
    + cbn [sum_list foldr]. simpl.
      assert (dval h n = d) as -> by (unfold dval; by rewrite Htn, Hd).
      assert (value_at h l = value tl) as -> by (unfold value_at; by rewrite Htl).
      unfold sum_list. ring.
    + intros e He. f_equal. apply value_at_same.
      by apply insert_derivative_only.
Qed.

(** On a well-formed store the body of the outer loop is the inner loop
    over [out_edges]. *)
Lemma backward_node_edges h n :
  graph_ok h → n < length h →
  backward_node n h = for_each (out_edges h n) (push n) h.
Proof.
  intros Hok Hlt. destruct (lookup_lt_is_Some_2 h n Hlt) as [t Ht].
  unfold backward_node, out_edges, bind, deref. rewrite Ht.
  destruct (args t) as [xs|] eqn:Hxs; [|done].
  by destruct (node_ok_lookup h n t xs Hok Ht Hxs) as (ls & -> & _).
Qed.

(** The inner loop writes the [derivative] of operands only. *)
Lemma push_loop_only n (edges : list (loc * loc)) h u h' :
  for_each edges (push n) h = Ok (u, h') →
  only_derivatives (λ m, m ∈ edges.*1) h h'.
Proof.
  intros Hrun.
  apply (for_each_inv (only_derivatives (λ m, m ∈ edges.*1) h)
           (push n) edges h u h'); [|apply only_derivatives_refl|done].
  intros [a l] h1 u1 h2 He Hinv Hpush.
  apply push_inv in Hpush as (tn & tl & ta & d & Htn & Htl & Hta & Hd & ->).
  eapply only_derivatives_trans; [done|].
  eapply only_derivatives_weaken; [|by apply insert_derivative_only].
  intros m ->. apply (list_elem_of_fmap_2 fst _ _ He).
Qed.

Lemma backward_loop_phi (T : loc → F) x h0 (rs : list loc) :
  graph_ok h0 → NoDup rs → args_later h0 rs →
  Forall (λ n, n < length h0) rs →
  T x = float_one →
  (∀ n, n ∈ rs → n ≠ x →
     T n = sum_list (λ e, fmul (value_at h0 e.2) (T e.1)) (out_edges h0 n)) →
  (∀ a, edge h0 x a → T a = fzero) →
  ∀ rest pre h u h',
    rs = pre ++ rest → same_graph h0 h →
    for_each rest backward_node h = Ok (u, h') →
    phi T x h' [] = phi T x h rest.
Proof.
  intros Hok Hnd Hlater Hval HTx HTn HTbelow.
  induction rest as [|n rest IH]; intros pre h u h' Hrs Hs Hrun.
  - by injection Hrun as <- <-.
  - cbn [for_each] in Hrun. unfold bind at 1 in Hrun.
    destruct (backward_node n h) as [[u1 h1]|] eqn:Hnode; [|done].
    assert (Hn_rs : n ∈ rs) by (subst rs; apply elem_of_app; right; left).
    assert (Hn_lt : n < length h0)
      by (by apply (proj1 (Forall_forall _ _) Hval)).
    rewrite backward_node_edges in Hnode;
      [|by eapply same_graph_ok|by rewrite (same_graph_length _ _ Hs)].
    subst rs. apply NoDup_app in Hnd as Hnd'.
    destruct Hnd' as (_ & _ & [Hn_rest Hnd_rest]%NoDup_cons).
    assert (Hedges : ∀ e, e ∈ out_edges h n → e.1 ∈ rest).
    { intros e He%out_edges_edge. eapply Hlater; [done|].
      by apply (same_graph_edge h0 h). }
    pose proof (push_loop_wsum T n rest Hnd_rest Hn_rest _ _ _ _ Hnode Hedges)
      as Hsum.
    pose proof (push_loop_only _ _ _ _ _ Hnode) as [Hs1 Hframe].
    rewrite (IH (pre ++ [n]) h1 u h');
      [|by rewrite <- app_assoc|by eapply same_graph_trans|done].
    assert (Hx_keep : x ∉ rest → dval h1 x = dval h x).
    { intros Hx. unfold dval. rewrite Hframe; [done|].
      intros (e & -> & He)%list_elem_of_fmap. by apply Hx, Hedges. }
    rewrite (out_edges_same h0 h) in Hsum by done.
    rewrite (sum_list_ext _ (λ e, fmul (value_at h0 e.2) (T e.1))) in Hsum
      by (intros e _; f_equal; by apply value_at_same).
    unfold phi. rewrite Hsum, wsum_cons.
    destruct (decide (n = x)) as [->|Hnx].
    + rewrite decide_False by done.
      rewrite (decide_True (P := x ∈ x :: rest)) by left.
      rewrite Hx_keep by done. rewrite HTx.
      rewrite sum_list_zero; [ring|].
      intros e He. rewrite HTbelow; [ring|].
      apply out_edges_edge in He. done.
    + rewrite <- HTn by done.
      destruct (decide (x ∈ rest)) as [Hx|Hx].
      * rewrite (decide_True (P := x ∈ n :: rest)) by (by right). ring.
      * rewrite (decide_False (P := x ∈ n :: rest)).
        -- rewrite Hx_keep by done. ring.
        -- intros [?|?]%elem_of_cons; done.
Qed.

(** With the root alone holding a derivative, the weighted sum is the
    root's term. *)
Lemma wsum_seed T h (U : list loc) root d :
  NoDup U → root ∈ U →
  dval h root = d → (∀ m, m ∈ U → m ≠ root → dval h m = fzero) →
  wsum T h U = fmul d (T root).
Proof.
  intros Hnd Hroot Hd Hz. induction Hnd as [|m U Hm Hnd IH].
  - by apply elem_of_nil in Hroot.
  - unfold wsum in *. cbn [sum_list foldr].
    destruct (decide (m = root)) as [->|Hne].
    + rewrite Hd. fold (sum_list (λ m, fmul (dval h m) (T m)) U).
      rewrite sum_list_zero; [ring|].
      intros e He. rewrite Hz; [ring|by right|by intros ->].
    + apply elem_of_cons in Hroot as [->|Hroot]; [done|].
      unfold sum_list in IH. rewrite IH; [|done|].
      * rewrite Hz; [ring|left|done].
      * intros e He. apply Hz. by right.
Qed.

(** *** The derivative of a graph of [+], [-] and [*] *)

Lemma leaf_node_edges h m : leaf_node h m → out_edges h m = [].
Proof. intros (t & Hm & Hargs). unfold out_edges. by rewrite Hm, Hargs. Qed.

Lemma add_node_edges h m a b :
  add_node h m a b →
  ∃ la lb, out_edges h m = [(a, la); (b, lb)]
    ∧ value_at h la = float_one ∧ value_at h lb = float_one.
Proof.
  intros (t & ta & tb & la & lb & tla & tlb & Hm & _ & _ & Hargs & Hlds
          & Hla & Hlb & _ & Hva & Hvb).
  exists la, lb. unfold out_edges, value_at.
  rewrite Hm, Hargs, Hlds, Hla, Hlb, Hva, Hvb. by rewrite float_of_int_1.
Qed.

Lemma sub_node_edges h m a b :
  sub_node h m a b →
  ∃ la lb, out_edges h m = [(a, la); (b, lb)]
    ∧ value_at h la = float_one ∧ value_at h lb = fopp float_one.
Proof.
  intros (t & ta & tb & la & lb & tla & tlb & Hm & _ & _ & Hargs & Hlds
          & Hla & Hlb & _ & Hva & Hvb).
  exists la, lb. unfold out_edges, value_at.
  rewrite Hm, Hargs, Hlds, Hla, Hlb, Hva, Hvb.
  by rewrite float_of_int_1, float_of_int_m1.
Qed.

Lemma mul_node_edges h m a b :
  mul_node h m a b → out_edges h m = [(a, b); (b, a)].
Proof.
  intros (t & ta & tb & Hm & _ & _ & Hargs & Hlds & _).
  unfold out_edges. by rewrite Hm, Hargs, Hlds.
Qed.

Lemma node_edge_l h m a l b l' :
  out_edges h m = [(a, l); (b, l')] → edge h m a ∧ edge h m b.
Proof.
  intros He. split.
  - apply (out_edges_edge h m (a, l)). rewrite He. left.
  - apply (out_edges_edge h m (b, l')). rewrite He. right. left.
Qed.

Section ChainRule.
Variables (h : heap F) (x : loc) (order : list loc) (T : loc → F).
Hypothesis Hts : topo_sorted h order.
Hypothesis HT1 : T x = float_one.
Hypothesis HT2 : ∀ n, n ∈ order → n ≠ x →
  T n = sum_list (λ e, fmul (value_at h e.2) (T e.1)) (out_edges h n).

(** The chain-rule sum satisfies the rules of differentiation. *)
Lemma chain_partial root :
  (∀ n, n ∈ order → reachable h root n) → built_from_ops h root →
  ∀ i m, order !! i = Some m → partial h x m (T m).
Proof using Hts HT1 HT2.
  intros Hreach Hops i. induction (lt_wf i) as [i _ IH]. intros m Hi.
  assert (Hm : m ∈ order) by (apply list_elem_of_lookup; eauto).
  destruct (decide (m = x)) as [->|Hmx]; [rewrite HT1; constructor|].
  assert (Harg : ∀ a, edge h m a → partial h x a (T a)).
  { intros a Ha. destruct (Hts i m a Hi Ha) as (j & Hj & Hja). by eapply IH. }
  rewrite (HT2 m Hm Hmx).
  destruct (Hops m (Hreach m Hm)) as [Hleaf|(a & b & [Hn|[Hn|Hn]])].
  - rewrite (leaf_node_edges _ _ Hleaf). by apply partial_leaf.
  - destruct (add_node_edges _ _ _ _ Hn) as (la & lb & He & Hva & Hvb).
    destruct (node_edge_l _ _ _ _ _ _ He) as [Ha Hb].
    rewrite He. cbn [sum_list foldr fst snd]. rewrite Hva, Hvb.
    replace (fadd _ _) with (fadd (T a) (T b)) by ring.
    apply (partial_add h x m a b); auto.
  - destruct (sub_node_edges _ _ _ _ Hn) as (la & lb & He & Hva & Hvb).
    destruct (node_edge_l _ _ _ _ _ _ He) as [Ha Hb].
    rewrite He. cbn [sum_list foldr fst snd]. rewrite Hva, Hvb.
    replace (fadd _ _) with (fsub (T a) (T b)) by ring.
    apply (partial_sub h x m a b); auto.
  - pose proof (mul_node_edges _ _ _ _ Hn) as He.
    destruct (node_edge_l _ _ _ _ _ _ He) as [Ha Hb].
    rewrite He. cbn [sum_list foldr fst snd].
    replace (fadd _ _)
      with (fadd (fmul (T a) (value_at h b)) (fmul (value_at h a) (T b)))
      by ring.
    apply (partial_mul h x m a b); auto.
Qed.

(** The rules of differentiation determine the derivative. *)
Lemma partial_chain m d :
  partial h x m d → m ∈ order → d = T m.
Proof using Hts HT1 HT2.
  induction 1 as [|m Hmx Hleaf|m a b da db Hmx Hn _ IHa _ IHb
                  |m a b da db Hmx Hn _ IHa _ IHb
                  |m a b da db Hmx Hn _ IHa _ IHb]; intros Hm.
  - by rewrite HT1.
  - by rewrite (HT2 m Hm Hmx), (leaf_node_edges _ _ Hleaf).
  - destruct (add_node_edges _ _ _ _ Hn) as (la & lb & He & Hva & Hvb).
    destruct (node_edge_l _ _ _ _ _ _ He) as [Ha Hb].
    rewrite (HT2 m Hm Hmx), He. cbn [sum_list foldr fst snd].
    rewrite Hva, Hvb.
    rewrite (IHa (topo_sorted_mem h order m a Hts Hm Ha)).
    rewrite (IHb (topo_sorted_mem h order m b Hts Hm Hb)). ring.
  - destruct (sub_node_edges _ _ _ _ Hn) as (la & lb & He & Hva & Hvb).
    destruct (node_edge_l _ _ _ _ _ _ He) as [Ha Hb].
    rewrite (HT2 m Hm Hmx), He. cbn [sum_list foldr fst snd].
    rewrite Hva, Hvb.
    rewrite (IHa (topo_sorted_mem h order m a Hts Hm Ha)).
    rewrite (IHb (topo_sorted_mem h order m b Hts Hm Hb)). ring.
  - pose proof (mul_node_edges _ _ _ _ Hn) as He.
    destruct (node_edge_l _ _ _ _ _ _ He) as [Ha Hb].
    rewrite (HT2 m Hm Hmx), He. cbn [sum_list foldr fst snd].
    rewrite (IHa (topo_sorted_mem h order m a Hts Hm Ha)).
    rewrite (IHb (topo_sorted_mem h order m b Hts Hm Hb)). ring.
Qed.

End ChainRule.

Lemma tangent_unfold h x (order : list loc) fuel i n :
  topo_sorted h order → order !! i = Some n → i < fuel → n ≠ x →
  tangent fuel h x n
  = sum_list (λ e, fmul (value_at h e.2) (tangent fuel h x e.1))
             (out_edges h n).
Proof.
  intros Hts Hi Hfuel Hnx. destruct fuel as [|f]; [lia|].
  transitivity (sum_list (λ e, fmul (value_at h e.2) (tangent f h x e.1))
                  (out_edges h n)).
  { cbn [tangent]. by rewrite decide_False. }
  apply sum_list_ext. intros e He. f_equal.
  destruct (Hts i n e.1 Hi (out_edges_edge _ _ _ He)) as (j & Hj & Hje).
  rewrite (tangent_stable h x order Hts j e.1 f Hje) by lia.
  by rewrite (tangent_stable h x order Hts j e.1 (S f) Hje) by lia.
Qed.

Lemma NoDup_reverse_2 (l : list loc) : NoDup l → NoDup (reverse l).
Proof. intros Hnd. by rewrite reverse_Permutation. Qed.

Lemma order_length_le h (order : list loc) :
  NoDup order → (∀ n, n ∈ order → n < length h) → length order ≤ length h.
Proof.
  intros Hnd Hval.
  transitivity (length (seq 0 (length h))); [|by rewrite length_seq].
  apply submseteq_length, NoDup_submseteq; [done|].
  intros n Hn. apply elem_of_seq. specialize (Hval n Hn). lia.
Qed.

(** What [backward] leaves in every reachable node, whatever the
    derivatives held before: the weighted sum of the seeded store. *)
Lemma backward_values h root fuel :
  graph_ok h → acyclic h → root < length h → length h < fuel →
  ∃ order visited t h',
    build_topo fuel h root ([], ∅) = Ok (order, visited)
    ∧ NoDup order
    ∧ (∀ n, n ∈ order ↔ reachable h root n)
    ∧ topo_sorted h order
    ∧ h !! root = Some t
    ∧ backward fuel root h = Ok (tt, h')
    ∧ ∀ x, reachable h root x →
        ∃ tx, h' !! x = Some tx
          ∧ derivative tx
            = Some (wsum (tangent fuel h x)
                      (<[root := set_derivative (Some float_one) t]> h)
                      (reverse order)).
Proof.
  intros Hok Hacyc Hroot Hfuel.
  destruct (backward_total h root fuel Hok Hacyc Hroot Hfuel)
    as (order & visited & t & h' & Htopo & Hnd & Hreach & Hts & Hlast & Ht
        & Hrun & Hloop & Honly & Hpres).
  exists order, visited, t, h'. do 6 (split; [done|]).
  intros x Hx. destruct (Hpres x Hx) as (tx & d & Htx & Hd).
  exists tx. split; [done|]. rewrite Hd. f_equal.
  assert (Hvalid : ∀ n, n ∈ order → n < length h).
  { intros n Hn%Hreach. by eapply reachable_valid. }
  pose proof (order_length_le h order Hnd Hvalid) as Hlen.
  pose proof (insert_derivative_only h root t (Some float_one) Ht) as [Hseed _].
  destruct fuel as [|f]; [lia|].
  assert (Hphi : phi (tangent (S f) h x) x h' []
               = phi (tangent (S f) h x) x
                   (<[root := set_derivative (Some float_one) t]> h)
                   (reverse order)).
  { apply (backward_loop_phi (tangent (S f) h x) x h (reverse order))
      with (pre := []) (u := tt); try done.
    - by apply NoDup_reverse_2.
    - by apply args_later_reverse.
    - apply Forall_forall. intros n Hn. rewrite elem_of_reverse in Hn.
      by apply Hvalid.
    - apply tangent_self.
    - intros n Hn Hnx. rewrite elem_of_reverse in Hn.
      apply list_elem_of_lookup in Hn as [i Hi].
      eapply tangent_unfold; [done..| |done].
      apply lookup_lt_Some in Hi. lia.
    - intros a Ha. apply tangent_unreachable. intros Hr.
      apply (Hacyc x). eapply tc_rtc_r; [by apply tc_once|done]. }
  unfold phi in Hphi. rewrite decide_False in Hphi by (by intros ?%elem_of_nil).
  rewrite decide_True in Hphi by (by apply elem_of_reverse, Hreach).
  assert (dval h' x = d) as Hdx by (unfold dval; by rewrite Htx, Hd).
  rewrite Hdx in Hphi.
  change (wsum (tangent (S f) h x) h' []) with fzero in Hphi.
  transitivity (fadd fzero d); [ring|]. rewrite Hphi. ring.
Qed.

(** On a graph that holds no derivative yet, [backward] leaves in every
    reachable node the chain-rule sum from the root. *)
Lemma backward_fresh h root fuel :
  graph_ok h → acyclic h → fresh h root →
  root < length h → length h < fuel →
  ∃ order h',
    NoDup order
    ∧ (∀ n, n ∈ order ↔ reachable h root n)
    ∧ topo_sorted h order
    ∧ backward fuel root h = Ok (tt, h')
    ∧ ∀ x, reachable h root x →
        ∃ tx, h' !! x = Some tx
          ∧ derivative tx = Some (tangent fuel h x root).
Proof.
  intros Hok Hacyc Hfresh Hroot Hfuel.
  destruct (backward_values h root fuel Hok Hacyc Hroot Hfuel)
    as (order & visited & t & h' & Htopo & Hnd & Hreach & Hts & Ht
        & Hrun & Hval).
  exists order, h'. do 4 (split; [done|]).
  intros x Hx. destruct (Hval x Hx) as (tx & Htx & Hd).
  exists tx. split; [done|]. rewrite Hd. f_equal.
  rewrite (wsum_seed _ _ _ root float_one).
  - ring.
  - by apply NoDup_reverse_2.
  - apply elem_of_reverse, Hreach, rtc_refl.
  - unfold dval. by rewrite list_lookup_insert_eq.
  - intros m Hm Hne. rewrite elem_of_reverse in Hm. apply Hreach in Hm.
    unfold dval.
    rewrite list_lookup_insert_ne by done.
    destruct (h !! m) as [tm|] eqn:Hm'; [|done].
    by rewrite (Hfresh m tm Hm Hm').
Qed.

End Calculus.

(** ** The elementary operations, run *)

Section Operations.
Context {F : Type} {SF : Scalar F}.
Implicit Types (h : heap F) (t : Tensor F) (n a b root self : loc).

Lemma lookup_snoc h t : (h ++ [t]) !! length h = Some t.
Proof. by apply list_lookup_middle. Qed.

Lemma insert_at_length h t t' k :
  <[length h := t']> (h ++ t :: k) = h ++ t' :: k.
Proof.
  rewrite insert_app_r_alt by lia. by rewrite Nat.sub_diag.
Qed.

Lemma _add_run h a b ta tb :
  h !! a = Some ta → h !! b = Some tb →
  _add a b h
  = Ok (length h,
        h ++ [op_result (fadd (value ta) (value tb)) a b
                (length h + 1) (length h + 2);
              leaf (float_of_int 1) None; leaf (float_of_int 1) None]).
Proof.
  intros Ha Hb. unfold _add, bind, deref, Tensor__init__, alloc.
  rewrite Ha, Hb. unfold setattr, ret.
  rewrite !length_app. cbn [length].
  rewrite <- !app_assoc. cbn [app].
  rewrite list_lookup_middle by done.
  rewrite insert_at_length, list_lookup_middle by done.
  rewrite insert_at_length. unfold op_result, leaf, set_args,
    set_local_derivatives. cbn. do 4 f_equal.
  by rewrite <- Nat.add_assoc.
Qed.

Lemma _sub_run h a b ta tb :
  h !! a = Some ta → h !! b = Some tb →
  _sub a b h
  = Ok (length h,
        h ++ [op_result (fsub (value ta) (value tb)) a b
                (length h + 1) (length h + 2);
              leaf (float_of_int 1) None; leaf (float_of_int (-1)) None]).
Proof.
  intros Ha Hb. unfold _sub, bind, deref, Tensor__init__, alloc.
  rewrite Ha, Hb. unfold setattr, ret.
  rewrite !length_app. cbn [length].
  rewrite <- !app_assoc. cbn [app].
  rewrite list_lookup_middle by done.
  rewrite insert_at_length, list_lookup_middle by done.
  rewrite insert_at_length. unfold op_result, leaf, set_args,
    set_local_derivatives. cbn. do 4 f_equal.
  by rewrite <- Nat.add_assoc.
Qed.

Lemma _mul_run h a b ta tb :
  h !! a = Some ta → h !! b = Some tb →
  _mul a b h
  = Ok (length h, h ++ [op_result (fmul (value ta) (value tb)) a b b a]).
Proof.
  intros Ha Hb. unfold _mul, bind, deref, Tensor__init__, alloc.
  rewrite Ha, Hb. unfold setattr, ret.
  rewrite list_lookup_middle by done.
  rewrite insert_at_length, list_lookup_middle by done.
  by rewrite insert_at_length.
Qed.

(** An operation that returns had two allocated operands. *)
Lemma _add_inv h a b r h' :
  _add a b h = Ok (r, h') → ∃ ta tb, h !! a = Some ta ∧ h !! b = Some tb.
Proof.
  unfold _add, bind, deref. destruct (h !! a) as [ta|]; [|done].
  destruct (h !! b) as [tb|]; [|done]. by exists ta, tb.
Qed.

Lemma _sub_inv h a b r h' :
  _sub a b h = Ok (r, h') → ∃ ta tb, h !! a = Some ta ∧ h !! b = Some tb.
Proof.
  unfold _sub, bind, deref. destruct (h !! a) as [ta|]; [|done].
  destruct (h !! b) as [tb|]; [|done]. by exists ta, tb.
Qed.

Lemma _mul_inv h a b r h' :
  _mul a b h = Ok (r, h') → ∃ ta tb, h !! a = Some ta ∧ h !! b = Some tb.
Proof.
  unfold _mul, bind, deref. destruct (h !! a) as [ta|]; [|done].
  destruct (h !! b) as [tb|]; [|done]. by exists ta, tb.
Qed.

End Operations.

(** ** Whatever the graph: the passes touch reachable derivatives only *)

Section FrameOfPasses.
Context {F : Type} {SF : Scalar F}.
Implicit Types (h : heap F) (t : Tensor F) (n a b root self : loc).

Lemma fold_build_topo_reach fuel h self :
  topo_reach_at fuel h →
  ∀ xs order visited order' visited',
    (∀ a, a ∈ xs → edge h self a) →
    fold_result (build_topo fuel h) xs (order, visited)
      = Ok (order', visited') →
    ∃ new, order' = order ++ new ∧ ∀ x, x ∈ new → reachable h self x.
Proof.
  intros IH xs. induction xs as [|a xs IHxs];
    intros order visited order' visited' Hxs Hrun.
  - injection Hrun as <- <-. exists []. rewrite app_nil_r.
    split; [done|]. by intros x ?%elem_of_nil.
  - simpl in Hrun.
    destruct (build_topo fuel h a (order, visited))
      as [[o1 v1]|] eqn:Hstep; [|done].
    destruct (IH _ _ _ _ _ Hstep) as (new1 & -> & Hnew1).
    destruct (IHxs _ _ _ _ (λ c Hc, Hxs c (list_elem_of_further _ _ _ Hc)) Hrun)
      as (new2 & -> & Hnew2).
    exists (new1 ++ new2). split; [by rewrite app_assoc|].
    intros x [Hx|Hx]%elem_of_app; [|by apply Hnew2].
    eapply rtc_l; [apply Hxs; left|by apply Hnew1].
Qed.

(** The traversal only appends nodes reachable from where it starts. *)
Lemma build_topo_reach h fuel : topo_reach_at fuel h.
Proof.
  induction fuel as [|fuel IH]; [done|].
  intros self order visited order' visited' Hrun.
  cbn [build_topo] in Hrun. case_decide.
  { injection Hrun as <- <-. exists []. rewrite app_nil_r.
    split; [done|]. by intros x ?%elem_of_nil. }
  destruct (h !! self) as [t|] eqn:Hself; [|done].
  destruct (args t) as [xs|] eqn:Hxs.
  - destruct (fold_result _ _ _) as [[ok vk]|] eqn:Hfold; [|done].
    injection Hrun as <- <-.
    destruct (fold_build_topo_reach fuel h self IH xs _ _ _ _
                (λ a Ha, ex_intro _ t (ex_intro _ xs
                   (conj Hself (conj Hxs Ha)))) Hfold)
      as (new & -> & Hnew).
    exists (new ++ [self]). split; [by rewrite app_assoc|].
    intros x [Hx| ->%list_elem_of_singleton]%elem_of_app;
      [by apply Hnew|apply rtc_refl].
  - injection Hrun as <- <-. exists [self]. split; [done|].
    intros x ->%list_elem_of_singleton. apply rtc_refl.
Qed.

Lemma backward_node_only h n u h' :
  backward_node n h = Ok (u, h') → only_derivatives (edge h n) h h'.
Proof.
  unfold backward_node, bind, deref.
  destruct (h !! n) as [t|] eqn:Hn; [|done].
  destruct (args t) as [xs|] eqn:Hxs.
  - destruct (local_derivatives t) as [ls|]; [|done].
    intros Hrun. eapply only_derivatives_weaken; [|by eapply push_loop_only].
    intros m (e & -> & He)%list_elem_of_fmap. exists t, xs.
    split; [done|]. split; [done|]. destruct e. by eapply elem_of_zip_l.
  - intros [= <- <-]. apply only_derivatives_refl.
Qed.

(** A completed [backward] changed nothing but the [derivative] of
    nodes reachable from the root. *)
Lemma backward_only h root fuel u h' :
  backward fuel root h = Ok (u, h') →
  only_derivatives (reachable h root) h h'.
Proof.
  unfold backward, bind at 1.
  destruct (setattr root _ h) as [[u1 h1]|] eqn:Hseed; [|done].
  apply setattr_derivative_only in Hseed.
  unfold bind, topo_order.
  destruct (build_topo fuel h1 root ([], ∅)) as [[order visited]|] eqn:Htopo;
    [|done].
  destruct (build_topo_reach h1 fuel _ _ _ _ _ Htopo) as (new & Hnew & Hreach).
  simpl in Hnew. subst new. intros Hloop.
  eapply only_derivatives_trans.
  { eapply only_derivatives_weaken; [|done]. intros n ->. apply rtc_refl. }
  apply (for_each_inv (only_derivatives (reachable h root) h1)
           backward_node (reverse order) h1 u h');
    [|apply only_derivatives_refl|done].
  intros n h2 u2 h3 Hn Hinv Hnode. rewrite elem_of_reverse in Hn.
  eapply only_derivatives_trans; [done|].
  eapply only_derivatives_weaken; [|by eapply backward_node_only].
  intros m Hm. destruct Hseed as [Hs1 _], Hinv as [Hs2 _].
  apply (same_graph_reachable h h1); [done|].
  eapply rtc_r; [by apply Hreach|]. by apply (same_graph_edge h1 h2).
Qed.

(** The same for [clear_derivatives]. *)
Lemma clear_derivatives_only h root fuel u h' :
  clear_derivatives fuel root h = Ok (u, h') →
  only_derivatives (reachable h root) h h'.
Proof.
  unfold clear_derivatives, bind, topo_order.
  destruct (build_topo fuel h root ([], ∅)) as [[order visited]|] eqn:Htopo;
    [|done].
  destruct (build_topo_reach h fuel _ _ _ _ _ Htopo) as (new & Hnew & Hreach).
  simpl in Hnew. subst new. intros Hloop.
  apply (for_each_inv (only_derivatives (reachable h root) h)
           (λ node, setattr node (set_derivative None)) order h u h');
    [|apply only_derivatives_refl|done].
  intros n h2 u2 h3 Hn Hinv Hnode.
  eapply only_derivatives_trans; [done|].
  eapply only_derivatives_weaken; [|by eapply setattr_derivative_only].
  intros m ->. by apply Hreach.
Qed.

End FrameOfPasses.

(** ** Clearing *)

Section Clearing.
Context {F : Type} {SF : Scalar F}.
Implicit Types (h : heap F) (t : Tensor F) (n a b root self : loc).

Lemma set_derivative_same t t' v :
  same_fields t t' → set_derivative v t' = set_derivative v t.
Proof.
  intros (Hv & Ha & Hl & Hn). unfold set_derivative.
  by rewrite Hv, Ha, Hl, Hn.
Qed.

Lemma set_derivative_id t : set_derivative (derivative t) t = t.
Proof. by destruct t. Qed.

(** [clear_derivatives] on a well-formed acyclic graph. *)
Lemma clear_derivatives_total h root fuel :
  graph_ok h → acyclic h → root < length h → length h < fuel →
  ∃ order visited hc,
    build_topo fuel h root ([], ∅) = Ok (order, visited)
    ∧ (∀ n, n ∈ order ↔ reachable h root n)
    ∧ clear_derivatives fuel root h = Ok (tt, hc)
    ∧ ∀ i, hc !! i = if decide (i ∈ order)
                     then set_derivative None <$> h !! i
                     else h !! i.
Proof.
  intros Hok Hacyc Hroot Hfuel.
  destruct (build_topo_root h root fuel Hok Hacyc Hroot Hfuel)
    as (order & visited & Htopo & Hnd & Hreach & Hts & Hlast).
  destruct (clear_loop_run order h) as (hc & Hrun & Hhc).
  { apply Forall_forall. intros n Hn%Hreach. by eapply reachable_valid. }
  exists order, visited, hc.
  by rewrite (clear_derivatives_run h root fuel order visited Htopo).
Qed.

(** Clearing forgets what a [backward] on the same root left behind. *)
Lemma clear_after_backward h root fuel h1 hc :
  graph_ok h → acyclic h → root < length h → length h < fuel →
  backward fuel root h = Ok (tt, h1) →
  clear_derivatives fuel root h = Ok (tt, hc) →
  clear_derivatives fuel root h1 = Ok (tt, hc).
Proof.
  intros Hok Hacyc Hroot Hfuel Hback Hclear.
  pose proof (backward_only _ _ _ _ _ Hback) as [Hs Hframe].
  destruct (clear_derivatives_total h root fuel Hok Hacyc Hroot Hfuel)
    as (order & visited & hc' & Htopo & Hreach & Hclear' & Hhc).
  assert (hc' = hc) as -> by congruence.
  destruct (clear_derivatives_total h1 root fuel)
    as (order1 & visited1 & hc1 & Htopo1 & _ & Hclear1 & Hhc1).
  { by eapply same_graph_ok. }
  { by eapply same_graph_acyclic. }
  { by rewrite (same_graph_length _ _ Hs). }
  { by rewrite (same_graph_length _ _ Hs). }
  rewrite (same_graph_build_topo h h1 fuel Hs) in Htopo1.
  assert (order1 = order) as -> by congruence.
  rewrite Hclear1. do 2 f_equal. apply list_eq. intros i.
  rewrite Hhc, Hhc1. case_decide as Hi.
  - destruct (h !! i) as [t|] eqn:Hti.
    + destruct (same_graph_lookup _ _ _ _ Hs Hti) as (t' & -> & Hsf).
      simpl. f_equal. by apply set_derivative_same.
    + destruct (h1 !! i) as [t'|] eqn:Hti'; [|done].
      destruct (same_graph_lookup_r _ _ _ _ Hs Hti') as (t & ? & _).
      congruence.
  - apply Hframe. by rewrite <- Hreach.
Qed.

(** Clearing a graph that holds no derivative changes nothing. *)
Lemma clear_fresh h root fuel hc :
  graph_ok h → acyclic h → root < length h → length h < fuel →
  fresh h root →
  clear_derivatives fuel root h = Ok (tt, hc) → hc = h.
Proof.
  intros Hok Hacyc Hroot Hfuel Hfresh Hclear.
  destruct (clear_derivatives_total h root fuel Hok Hacyc Hroot Hfuel)
    as (order & visited & hc' & Htopo & Hreach & Hclear' & Hhc).
  assert (hc' = hc) as -> by congruence.
  apply list_eq. intros i. rewrite Hhc. case_decide as Hi; [|done].
  destruct (h !! i) as [t|] eqn:Hti; [|done]. simpl. f_equal.
  rewrite <- (Hfresh i t); [apply set_derivative_id|by apply Hreach|done].
Qed.

End Clearing.

(** ** Stores built through the interface are well formed *)

Section Built.
Context {F : Type} {SF : Scalar F}.
Implicit Types (h k : heap F) (t : Tensor F) (n a b m root self : loc).

Lemma covers_app h k : covers h (h ++ k).
Proof.
  intros l t Hl. exists t. split; [|apply same_fields_refl].
  by apply lookup_app_l_Some.
Qed.

Lemma covers_same h h' : same_graph h h' → covers h h'.
Proof. intros Hs l t Hl. by eapply same_graph_lookup. Qed.

Lemma leaf_node_covers h h' m : covers h h' → leaf_node h m → leaf_node h' m.
Proof.
  intros Hc (t & Hm & Hargs).
  destruct (Hc _ _ Hm) as (t' & Hm' & _ & Ha' & _).
  exists t'. split; [done|congruence].
Qed.

Lemma add_node_covers h h' m a b :
  covers h h' → add_node h m a b → add_node h' m a b.
Proof.
  intros Hc (t & ta & tb & la & lb & tla & tlb & Hm & Ha & Hb & Hargs & Hlds
             & Hla & Hlb & Hv & Hva & Hvb).
  destruct (Hc _ _ Hm) as (t' & Hm' & Hv' & Ha' & Hl' & _).
  destruct (Hc _ _ Ha) as (ta' & Hta' & Hvta' & _).
  destruct (Hc _ _ Hb) as (tb' & Htb' & Hvtb' & _).
  destruct (Hc _ _ Hla) as (tla' & Htla' & Hvla' & _).
  destruct (Hc _ _ Hlb) as (tlb' & Htlb' & Hvlb' & _).
  exists t', ta', tb', la, lb, tla', tlb'.
  repeat split; try done; congruence.
Qed.

Lemma sub_node_covers h h' m a b :
  covers h h' → sub_node h m a b → sub_node h' m a b.
Proof.
  intros Hc (t & ta & tb & la & lb & tla & tlb & Hm & Ha & Hb & Hargs & Hlds
             & Hla & Hlb & Hv & Hva & Hvb).
  destruct (Hc _ _ Hm) as (t' & Hm' & Hv' & Ha' & Hl' & _).
  destruct (Hc _ _ Ha) as (ta' & Hta' & Hvta' & _).
  destruct (Hc _ _ Hb) as (tb' & Htb' & Hvtb' & _).
  destruct (Hc _ _ Hla) as (tla' & Htla' & Hvla' & _).
  destruct (Hc _ _ Hlb) as (tlb' & Htlb' & Hvlb' & _).
  exists t', ta', tb', la, lb, tla', tlb'.
  repeat split; try done; congruence.
Qed.

Lemma mul_node_covers h h' m a b :
  covers h h' → mul_node h m a b → mul_node h' m a b.
Proof.
  intros Hc (t & ta & tb & Hm & Ha & Hb & Hargs & Hlds & Hv).
  destruct (Hc _ _ Hm) as (t' & Hm' & Hv' & Ha' & Hl' & _).
  destruct (Hc _ _ Ha) as (ta' & Hta' & Hvta' & _).
  destruct (Hc _ _ Hb) as (tb' & Htb' & Hvtb' & _).
  exists t', ta', tb'. repeat split; try done; congruence.
Qed.

(** The shapes survive an extension of the store and a change of
    derivatives. *)
Lemma all_from_ops_covers h h' :
  covers h h' → length h' = length h → all_from_ops h → all_from_ops h'.
Proof.
  intros Hc Hlen Hall m Hm. rewrite Hlen in Hm.
  destruct (Hall m Hm) as [Hleaf|(a & b & [Hn|[Hn|Hn]])].
  - left. by eapply leaf_node_covers.
  - right. exists a, b. left. by eapply add_node_covers.
  - right. exists a, b. right. left. by eapply sub_node_covers.
  - right. exists a, b. right. right. by eapply mul_node_covers.
Qed.

Lemma all_from_ops_app h k :
  all_from_ops h →
  (∀ j, j < length k →
     leaf_node (h ++ k) (length h + j)
     ∨ ∃ a b, add_node (h ++ k) (length h + j) a b
              ∨ sub_node (h ++ k) (length h + j) a b
              ∨ mul_node (h ++ k) (length h + j) a b) →
  all_from_ops (h ++ k).
Proof.
  intros Hall Hnew m Hm. rewrite length_app in Hm.
  destruct (decide (m < length h)) as [Hlt|Hge].
  - pose proof (covers_app h k) as Hc.
    destruct (Hall m Hlt) as [Hleaf|(a & b & [Hn|[Hn|Hn]])].
    + left. by eapply leaf_node_covers.
    + right. exists a, b. left. by eapply add_node_covers.
    + right. exists a, b. right. left. by eapply sub_node_covers.
    + right. exists a, b. right. right. by eapply mul_node_covers.
  - replace m with (length h + (m - length h)) by lia. apply Hnew. lia.
Qed.

Lemma args_point_back_app i h k :
  args_point_back i (h ++ k)
  = args_point_back i h && args_point_back (i + length h) k.
Proof.
  revert i. induction h as [|t h IH]; intros i; simpl.
  - by rewrite Nat.add_0_r.
  - rewrite IH, andb_assoc. by replace (S i + length h) with (i + S (length h))
      by lia.
Qed.

Lemma args_point_back_same h h' i :
  same_graph h h' → args_point_back i h' = args_point_back i h.
Proof.
  intros Hs. revert i.
  induction Hs as [|t t' h h' (_ & Ha & _) _ IH]; intros i; [done|].
  simpl. by rewrite Ha, IH.
Qed.

Lemma node_ok_app h k t : node_ok h t → node_ok (h ++ k) t.
Proof.
  unfold node_ok. destruct (args t); [|done].
  destruct (local_derivatives t); [|done].
  intros (Hlen & Hxs & Hls). rewrite length_app.
  split; [done|]. split; (eapply Forall_impl; [done|]); simpl; lia.
Qed.

Lemma graph_ok_app h k :
  graph_ok h → Forall (node_ok (h ++ k)) k → graph_ok (h ++ k).
Proof.
  intros Hok Hk. apply Forall_app. split; [|done].
  eapply Forall_impl; [done|]. intros t. apply node_ok_app.
Qed.

Lemma store_ok_leaf h v nm : store_ok h → store_ok (h ++ [leaf v nm]).
Proof.
  intros (Hok & Hback & Hall). split; [|split].
  - apply graph_ok_app; [done|]. by repeat constructor.
  - by rewrite args_point_back_app, Hback.
  - apply all_from_ops_app; [done|]. intros j Hj. simpl in Hj.
    assert (j = 0) as -> by lia. rewrite Nat.add_0_r.
    left. exists (leaf v nm). split; [apply lookup_snoc|done].
Qed.

Lemma store_ok_binary h a b ta tb v v1 v2 :
  h !! a = Some ta → h !! b = Some tb →
  (let h' := h ++ [op_result v a b (length h + 1) (length h + 2);
                   leaf v1 None; leaf v2 None] in
   add_node h' (length h) a b ∨ sub_node h' (length h) a b) →
  store_ok h →
  store_ok (h ++ [op_result v a b (length h + 1) (length h + 2);
                  leaf v1 None; leaf v2 None]).
Proof.
  intros Ha Hb Hshape (Hok & Hback & Hall).
  pose proof (lookup_lt_Some _ _ _ Ha) as Hla.
  pose proof (lookup_lt_Some _ _ _ Hb) as Hlb.
  split; [|split].
  - apply graph_ok_app; [done|].
    constructor; [|by repeat constructor].
    unfold node_ok. cbn [args local_derivatives op_result].
    rewrite length_app. cbn [length].
    split; [done|]. split; repeat constructor; lia.
  - rewrite args_point_back_app, Hback.
    cbn [args_point_back args op_result leaf forallb Nat.add andb].
    apply Nat.ltb_lt in Hla, Hlb. by rewrite Hla, Hlb.
  - apply all_from_ops_app; [done|]. intros j Hj. simpl in Hj.
    destruct j as [|[|[|j]]]; [| | |lia].
    + rewrite Nat.add_0_r. right. exists a, b. simpl in Hshape.
      destruct Hshape; [by left|by right; left].
    + left. exists (leaf v1 None). split; [|done].
      by rewrite lookup_app_r, Nat.add_comm, Nat.add_sub by lia.
    + left. exists (leaf v2 None). split; [|done].
      by rewrite lookup_app_r, Nat.add_comm, Nat.add_sub by lia.
Qed.

Lemma store_ok_add h a b r h' :
  _add a b h = Ok (r, h') → store_ok h → store_ok h'.
Proof.
  intros Hrun. destruct (_add_inv _ _ _ _ _ Hrun) as (ta & tb & Ha & Hb).
  pose proof (lookup_lt_Some _ _ _ Ha) as Hla.
  pose proof (lookup_lt_Some _ _ _ Hb) as Hlb.
  rewrite (_add_run h a b ta tb Ha Hb) in Hrun. injection Hrun as <- <-.
  apply (store_ok_binary h a b ta tb); [done..|]. left.
  exists (op_result (fadd (value ta) (value tb)) a b
            (length h + 1) (length h + 2)), ta, tb,
    (length h + 1), (length h + 2),
    (leaf (float_of_int 1) None), (leaf (float_of_int 1) None).
  split; [by apply list_lookup_middle|].
  split; [by apply lookup_app_l_Some|].
  split; [by apply lookup_app_l_Some|].
  split; [done|]. split; [done|].
  split; [by rewrite lookup_app_r, Nat.add_comm, Nat.add_sub by lia|].
  split; [by rewrite lookup_app_r, Nat.add_comm, Nat.add_sub by lia|].
  done.
Qed.

Lemma store_ok_sub h a b r h' :
  _sub a b h = Ok (r, h') → store_ok h → store_ok h'.
Proof.
  intros Hrun. destruct (_sub_inv _ _ _ _ _ Hrun) as (ta & tb & Ha & Hb).
  pose proof (lookup_lt_Some _ _ _ Ha) as Hla.
  pose proof (lookup_lt_Some _ _ _ Hb) as Hlb.
  rewrite (_sub_run h a b ta tb Ha Hb) in Hrun. injection Hrun as <- <-.
  apply (store_ok_binary h a b ta tb); [done..|]. right.
  exists (op_result (fsub (value ta) (value tb)) a b
            (length h + 1) (length h + 2)), ta, tb,
    (length h + 1), (length h + 2),
    (leaf (float_of_int 1) None), (leaf (float_of_int (-1)) None).
  split; [by apply list_lookup_middle|].
  split; [by apply lookup_app_l_Some|].
  split; [by apply lookup_app_l_Some|].
  split; [done|]. split; [done|].
  split; [by rewrite lookup_app_r, Nat.add_comm, Nat.add_sub by lia|].
  split; [by rewrite lookup_app_r, Nat.add_comm, Nat.add_sub by lia|].
  done.
Qed.

Lemma store_ok_mul h a b r h' :
  _mul a b h = Ok (r, h') → store_ok h → store_ok h'.
Proof.
  intros Hrun (Hok & Hback & Hall).
  destruct (_mul_inv _ _ _ _ _ Hrun) as (ta & tb & Ha & Hb).
  pose proof (lookup_lt_Some _ _ _ Ha) as Hla.
  pose proof (lookup_lt_Some _ _ _ Hb) as Hlb.
  rewrite (_mul_run h a b ta tb Ha Hb) in Hrun. injection Hrun as <- <-.
  split; [|split].
  - apply graph_ok_app; [done|]. constructor; [|constructor].
    unfold node_ok. cbn [args local_derivatives op_result].
    rewrite length_app. cbn [length].
    split; [done|]. split; repeat constructor; lia.
  - rewrite args_point_back_app, Hback.
    cbn [args_point_back args op_result leaf forallb Nat.add andb].
    apply Nat.ltb_lt in Hla, Hlb. by rewrite Hla, Hlb.
  - apply all_from_ops_app; [done|]. intros j Hj. simpl in Hj.
    assert (j = 0) as -> by lia. rewrite Nat.add_0_r.
    right. exists a, b. right. right.
    exists (op_result (fmul (value ta) (value tb)) a b b a), ta, tb.
    split; [by apply list_lookup_middle|].
    split; [by apply lookup_app_l_Some|].
    split; [by apply lookup_app_l_Some|]. done.
Qed.

Lemma store_ok_same h h' : same_graph h h' → store_ok h → store_ok h'.
Proof.
  intros Hs (Hok & Hback & Hall). split; [|split].
  - by eapply same_graph_ok.
  - by rewrite (args_point_back_same h h').
  - eapply all_from_ops_covers; [by apply covers_same| |done].
    by apply same_graph_length.
Qed.

(** A store built through the interface is well formed, acyclic, and
    made of leaves, sums, differences and products. *)
Lemma api_store_ok h : api_store h → store_ok h.
Proof.
  induction 1 as [|h v nm _ IH|h a b r h' _ IH Hrun|h a b r h' _ IH Hrun
                  |h a b r h' _ IH Hrun|h fuel root u h' _ IH Hrun
                  |h fuel root u h' _ IH Hrun].
  - split; [constructor|]. split; [done|]. intros m Hm. simpl in Hm. lia.
  - by apply store_ok_leaf.
  - by eapply store_ok_add.
  - by eapply store_ok_sub.
  - by eapply store_ok_mul.
  - eapply store_ok_same; [|done]. by eapply backward_only.
  - eapply store_ok_same; [|done]. by eapply clear_derivatives_only.
Qed.

Lemma api_store_graph h root :
  api_store h → root < length h →
  graph_ok h ∧ acyclic h ∧ built_from_ops h root.
Proof.
  intros (Hok & Hback & Hall)%api_store_ok Hroot.
  split; [done|]. split; [by apply args_point_back_acyclic|].
  intros m Hm. apply Hall. by eapply reachable_valid.
Qed.

End Built.

(** ** One product, run symbolically *)

Section ProductRun.
Context {F : Type} {SF : Scalar F}.
Implicit Types (h : heap F) (t : Tensor F) (n a b root self : loc).

(** [backward] on [y = a * b] for two distinct leaves without
    derivative: the store it leaves. *)
Lemma backward_mul_run h a b ta tb fuel :
  a ≠ b → h !! a = Some ta → h !! b = Some tb →
  args ta = None → args tb = None →
  derivative ta = None → derivative tb = None →
  2 ≤ fuel →
  backward fuel (length h)
    (h ++ [op_result (fmul (value ta) (value tb)) a b b a])
  = Ok (tt,
        <[b := set_derivative (Some (fmul float_one (value ta))) tb]>
          (<[a := set_derivative (Some (fmul float_one (value tb))) ta]>
             (h ++ [set_derivative (Some float_one)
                      (op_result (fmul (value ta) (value tb)) a b b a)]))).
Proof.
  intros Hab Ha Hb Haa Hab' Hda Hdb Hfuel.
  set (ty := op_result (fmul (value ta) (value tb)) a b b a).
  pose proof (lookup_lt_Some _ _ _ Ha) as Hla.
  pose proof (lookup_lt_Some _ _ _ Hb) as Hlb.
  assert (Hy : (h ++ [ty]) !! length h = Some ty) by apply lookup_snoc.
  assert (Ha1 : (h ++ [ty]) !! a = Some ta) by (by rewrite lookup_app_l).
  assert (Hb1 : (h ++ [ty]) !! b = Some tb) by (by rewrite lookup_app_l).
  assert (Htopo : ∃ visited,
            build_topo fuel (h ++ [ty]) (length h) ([], ∅)
            = Ok ([a; b; length h], visited)).
  { destruct fuel as [|[|f]]; [lia..|]. eexists.
    cbn [build_topo]. rewrite decide_False by set_solver. rewrite Hy.
    cbn [args ty op_result fold_result].
    rewrite decide_False by (set_unfold; lia). rewrite Ha1, Haa.
    destruct f as [|f].
    - cbn [build_topo app]. rewrite decide_False by (set_unfold; lia).
      rewrite Hb1, Hab'. done.
    - cbn [build_topo app]. rewrite decide_False by (set_unfold; lia).
      rewrite Hb1, Hab'. done. }
  destruct Htopo as [visited Htopo].
  rewrite (backward_run _ _ _ _ _ _ Hy Htopo).
  rewrite insert_at_length.
  set (ty1 := set_derivative (Some float_one) ty).
  set (hs := h ++ [ty1]).
  assert (Hys : hs !! length h = Some ty1) by apply lookup_snoc.
  assert (Has : hs !! a = Some ta) by (unfold hs; by rewrite lookup_app_l).
  assert (Hbs : hs !! b = Some tb) by (unfold hs; by rewrite lookup_app_l).
  change (reverse [a; b; length h]) with [length h; b; a].
  cbn [for_each]. unfold bind at 1.
  (* the root *)
  unfold backward_node at 1, bind at 1, deref at 1. rewrite Hys.
  cbn [args local_derivatives ty1 ty op_result set_derivative zip zip_with for_each].
  unfold bind at 1.
  rewrite (push_run hs (length h) a b ty1 tb ta float_one Hys Hbs Has eq_refl).
  rewrite Hda. cbn [accumulated].
  set (ta1 := set_derivative (Some (fmul float_one (value tb))) ta).
  set (hs1 := <[a := ta1]> hs).
  assert (Hys1 : hs1 !! length h = Some ty1).
  { unfold hs1. rewrite list_lookup_insert_ne by lia. done. }
  assert (Has1 : hs1 !! a = Some ta1).
  { unfold hs1. apply list_lookup_insert_eq. by eapply lookup_lt_Some. }
  assert (Hbs1 : hs1 !! b = Some tb).
  { unfold hs1. by rewrite list_lookup_insert_ne. }
  unfold bind at 1.
  rewrite (push_run hs1 (length h) b a ty1 ta1 tb float_one
             Hys1 Has1 Hbs1 eq_refl).
  rewrite Hdb. cbn [accumulated value ta1 set_derivative].
  set (tb1 := set_derivative (Some (fmul float_one (value ta))) tb).
  set (hs2 := <[b := tb1]> hs1).
  assert (Hbs2 : hs2 !! b = Some tb1).
  { unfold hs2. apply list_lookup_insert_eq. by eapply lookup_lt_Some. }
  assert (Has2 : hs2 !! a = Some ta1).
  { unfold hs2. by rewrite list_lookup_insert_ne. }
  (* the two leaves *)
  cbn [ret]. unfold bind at 1.
  unfold backward_node at 1, bind at 1, deref at 1. rewrite Hbs2.
  cbn [args tb1 set_derivative]. rewrite Hab'. cbn [ret].
  unfold bind at 1.
  unfold backward_node at 1, bind at 1, deref at 1. rewrite Has2.
  cbn [args ta1 set_derivative]. rewrite Haa. done.
Qed.

End ProductRun.

(** ** Checkable conditions on concrete stores *)

Section Checkers.
Context {F : Type} {SF : Scalar F}.
Implicit Types (h : heap F) (t : Tensor F) (n a b root self : loc).

Lemma forallb_lt (xs : list loc) k :
  forallb (λ a, a <? k) xs = true → Forall (λ a, a < k) xs.
Proof.
  intros Hb. apply Forall_forall. intros a Ha.
  rewrite forallb_forall in Hb. by apply Nat.ltb_lt, Hb, list_elem_of_In.
Qed.

Lemma check_graph_ok h : check_graph h = true → graph_ok h.
Proof.
  unfold check_graph, graph_ok. rewrite forallb_forall. intros Hb.
  apply Forall_forall. intros t Ht%list_elem_of_In%Hb.
  unfold check_node, node_ok in *. destruct (args t); [|done].
  destruct (local_derivatives t); [|done].
  apply andb_prop in Ht as [[Hlen Hxs]%andb_prop Hls].
  apply Nat.eqb_eq in Hlen. auto using forallb_lt.
Qed.

Lemma no_derivatives_fresh h root : no_derivatives h = true → fresh h root.
Proof.
  unfold no_derivatives. rewrite forallb_forall. intros Hb n t _ Hn.
  assert (Ht : t ∈ h) by (apply list_elem_of_lookup; eauto).
  apply list_elem_of_In, Hb in Ht. by destruct (derivative t).
Qed.

End Checkers.

(** * The properties of the engine *)

Example reuse_program_float :
  reuse_program (F := float) [] = Ok ((0, 1, 5), reuse_graph).
Proof. reflexivity. Qed.

Example reuse_program_Z :
  reuse_program (F := Z) [] = Ok ((0, 1, 5), reuse_graph).
Proof. reflexivity. Qed.

Section Claims.
Context {F : Type} {SF : Scalar F}.
Implicit Types (h : heap F) (t : Tensor F) (n a b root self : loc).

(** C2. On a well-formed acyclic graph, [build_topo] started with an
    empty list and an empty set returns a list that holds exactly the
    nodes reachable from the root, each once, in which every node comes
    after all of its [args], and whose last element is the root. *)
Theorem build_topo_topological_order h root fuel :
  graph_ok h → acyclic h → root < length h → length h < fuel →
  ∃ order visited,
    build_topo fuel h root ([], ∅) = Ok (order, visited)
    ∧ NoDup order
    ∧ (∀ n, n ∈ order ↔ reachable h root n)
    ∧ (∀ i n a, order !! i = Some n → edge h n a →
         ∃ j, j < i ∧ order !! j = Some a)
    ∧ last order = Some root.
Proof.
  intros Hok Hacyc Hroot Hfuel.
  (* the recursion returns: its depth is bounded by the unvisited nodes *)
  destruct (build_topo_total h Hok fuel root [] ∅ Hroot)
    as (order & visited & Hrun & _); [by rewrite unvisited_empty|].
  exists order, visited. split; [done|].
  (* the invariant of the traversal, from the empty state *)
  destruct (build_topo_spec h Hacyc fuel root [] [] ∅ order visited Hrun)
    as ((Hnd & Hv & _ & Hts) & Hin & (new & Hnew & Hreach) & Hlast).
  { split; [constructor|]. split; [set_solver|]. split; [set_solver|].
    by intros i n a Hi. }
  { set_solver. }
  simpl in Hnew. subst new.
  assert (Hroot_in : root ∈ order).
  { apply Hv in Hin as [?|Hg]; [done|]. by apply elem_of_nil in Hg. }
  split; [done|]. split; [|split; [done|]].
  - intros n. split; [apply Hreach|].
    (* [order] holds the root and is closed under [args] *)
    assert (Hup : ∀ x y, rtc (edge h) x y → x ∈ order → y ∈ order).
    { induction 1 as [|x y z Hxy _ IH]; [done|].
      intros Hx. apply IH. by eapply topo_sorted_mem. }
    intros Hr. by apply (Hup root n).
  - destruct Hlast as [mid ->]; [set_solver|]. apply last_snoc.
Qed.

(** C7. [backward] on a well-formed acyclic graph is the loop over the
    reversed order on the store with the root set to [1.0], and it
    completes without [TypeError].  The reversed order holds every node
    reachable from the root once and no other node, so every node is
    processed once.  When the loop reaches a node, the node holds a
    derivative; its iteration is one push per [(arg, local_derivative)]
    pair, none of which reads an absent derivative; and the node is
    never touched again: what it holds when it is processed is what it
    holds when [backward] returns. *)
Theorem backward_derivative_present h root fuel :
  graph_ok h → acyclic h → root < length h → length h < fuel →
  ∃ order visited t h',
    build_topo fuel h root ([], ∅) = Ok (order, visited)
    ∧ h !! root = Some t
    ∧ backward fuel root h
      = for_each (reverse order) backward_node
          (<[root := set_derivative (Some float_one) t]> h)
    ∧ backward fuel root h = Ok (tt, h')
    ∧ NoDup (reverse order)
    ∧ (∀ n, n ∈ reverse order ↔ reachable h root n)
    ∧ ∀ pre node post, reverse order = pre ++ node :: post →
        ∃ hmid hnext,
          for_each pre backward_node
            (<[root := set_derivative (Some float_one) t]> h) = Ok (tt, hmid)
          ∧ present hmid node
          ∧ backward_node node hmid
            = for_each (out_edges h node) (push node) hmid
          ∧ backward_node node hmid = Ok (tt, hnext)
          ∧ for_each post backward_node hnext = Ok (tt, h')
          ∧ hnext !! node = hmid !! node
          ∧ h' !! node = hmid !! node.
Proof.
  intros Hok Hacyc Hroot Hfuel.
  destruct (backward_total h root fuel Hok Hacyc Hroot Hfuel)
    as (order & visited & t & h' & Htopo & Hnd & Hreach & Hts & Hlast & Ht
        & Hrun & Hloop & Honly & Hpres).
  exists order, visited, t, h'. do 2 (split; [done|]).
  split; [by apply (backward_run h root fuel t order visited)|].
  split; [done|].
  assert (Hndr : NoDup (reverse order)) by (by rewrite reverse_Permutation).
  split; [done|].
  split; [intros n; by rewrite elem_of_reverse|].
  intros pre node post Hsplit.
  pose proof (users_first_reverse h root order Hnd Hts Hreach) as Huf.
  pose proof (args_later_reverse h order Hts) as Hlater.
  pose proof (insert_derivative_only h root t (Some float_one) Ht) as [Hseed _].
  set (hs := <[root := set_derivative (Some float_one) t]> h) in *.
  assert (Hvalid : Forall (λ m, m < length h) (pre ++ node :: post)).
  { apply Forall_forall. intros m Hm. eapply reachable_valid; [done..|].
    apply Hreach. by rewrite <- elem_of_reverse, Hsplit. }
  apply Forall_app in Hvalid as [Hvpre Hvrest].
  (* the nodes before [node] *)
  destruct (backward_loop_runs h root pre [] hs)
    as (hmid & Hmid & [Hsmid _] & Hkeep & Hnew); try done.
  { intros pre' m post' Hpre. apply (Huf pre' m (post' ++ node :: post)).
    rewrite Hsplit. cbn [app] in Hpre. rewrite Hpre.
    by rewrite <- app_assoc. }
  { by apply present_insert_eq. }
  { intros c a Hc. by apply elem_of_nil in Hc. }
  assert (Hs_mid : same_graph h hmid) by (by eapply same_graph_trans).
  assert (Hpresent : present hmid node).
  { destruct (Huf pre node post Hsplit) as [->|(c & Hc & Hcn)].
    - by apply Hkeep, present_insert_eq.
    - by apply (Hnew c node). }
  (* no node from [node] on has [node] among its [args] *)
  assert (Hnouser : ∀ c, c ∈ node :: post → ¬ edge h c node).
  { intros c Hc Hedge. rewrite Hsplit in Hndr.
    apply NoDup_app in Hndr as (_ & _ & [Hnode_post Hnd_post]%NoDup_cons).
    apply elem_of_cons in Hc as [->|Hc].
    - apply Hnode_post. by apply (Hlater pre node post node).
    - apply list_elem_of_split in Hc as (p1 & p2 & ->).
      assert (node ∈ p2) as Hin.
      { apply (Hlater (pre ++ node :: p1) c p2 node); [|done].
        by rewrite Hsplit, <- app_assoc. }
      apply Hnode_post, elem_of_app. right. by right. }
  (* the node itself, then the nodes after it *)
  assert (Hrest : for_each (node :: post) backward_node hmid = Ok (tt, h')).
  { rewrite Hsplit, for_each_app in Hloop. unfold bind in Hloop.
    by rewrite Hmid in Hloop. }
  cbn [for_each] in Hrest. unfold bind at 1 in Hrest.
  destruct (backward_node node hmid) as [[[] hnext]|e] eqn:Hnode; [|done].
  pose proof (backward_node_only hmid node tt hnext Hnode) as [Hs_next Hfr].
  destruct (backward_loop_runs h root post (pre ++ [node]) hnext)
    as (h'' & Hpost & [_ Hframe] & _); try done.
  { rewrite <- app_assoc. cbn [app]. by rewrite <- Hsplit. }
  { by apply Forall_cons in Hvrest as [_ ?]. }
  { by eapply same_graph_trans. }
  { destruct (backward_node_runs hmid node) as (hn & Hn & _ & Hk & _).
    - by eapply same_graph_ok.
    - rewrite (same_graph_length _ _ Hs_mid).
      by apply Forall_cons in Hvrest as [? _].
    - done.
    - assert (hn = hnext) as -> by congruence.
      by apply Hk, Hkeep, present_insert_eq. }
  { intros c a Hc Hedge.
    destruct (backward_node_runs hmid node) as (hn & Hn & _ & Hk & Hargs).
    - by eapply same_graph_ok.
    - rewrite (same_graph_length _ _ Hs_mid).
      by apply Forall_cons in Hvrest as [? _].
    - done.
    - assert (hn = hnext) as -> by congruence.
      apply elem_of_app in Hc as [Hc|Hc%list_elem_of_singleton].
      + by apply Hk, (Hnew c a).
      + subst c. apply Hargs. by apply (same_graph_edge h hmid). }
  assert (h'' = h') as -> by congruence.
  assert (Hnode_next : hnext !! node = hmid !! node).
  { apply Hfr. intros Hedge. apply (same_graph_edge h hmid) in Hedge; [|done].
    apply (Hnouser node); [by left|done]. }
  exists hmid, hnext. do 2 (split; [done|]). split.
  { rewrite <- (out_edges_same h hmid node Hs_mid).
    apply backward_node_edges; [by eapply same_graph_ok|].
    rewrite (same_graph_length _ _ Hs_mid).
    by apply Forall_cons in Hvrest as [? _]. }
  do 3 (split; [done|]).
  rewrite <- Hnode_next. apply Hframe.
  intros (c & Hc & Hedge). apply (Hnouser c); [by right|done].
Qed.

(** C3. After [backward], [clear_derivatives] leaves every reachable
    node without derivative, in the very store that clearing the
    original graph gives; and when the graph held no derivative before
    the first pass, clearing restores it exactly and a second
    [backward] reproduces the store of the first. *)
Theorem clear_then_backward_reproduces h root fuel :
  graph_ok h → acyclic h → root < length h → length h < fuel →
  ∃ h1 h2 h3,
    backward fuel root h = Ok (tt, h1)
    ∧ clear_derivatives fuel root h1 = Ok (tt, h2)
    ∧ backward fuel root h2 = Ok (tt, h3)
    ∧ (∀ n t, reachable h root n → h2 !! n = Some t → derivative t = None)
    ∧ clear_derivatives fuel root h = Ok (tt, h2)
    ∧ (fresh h root → h2 = h ∧ h3 = h1).
Proof.
  intros Hok Hacyc Hroot Hfuel.
  destruct (backward_total h root fuel Hok Hacyc Hroot Hfuel)
    as (_ & _ & _ & h1 & _ & _ & _ & _ & _ & _ & Hback & _).
  destruct (clear_derivatives_total h root fuel Hok Hacyc Hroot Hfuel)
    as (order & visited & h2 & Htopo & Hreach & Hclear & Hh2).
  pose proof (clear_after_backward h root fuel h1 h2
                Hok Hacyc Hroot Hfuel Hback Hclear) as Hclear1.
  pose proof (clear_derivatives_only _ _ _ _ _ Hclear) as [Hs2 _].
  destruct (backward_total h2 root fuel)
    as (_ & _ & _ & h3 & _ & _ & _ & _ & _ & _ & Hback2 & _).
  { by eapply same_graph_ok. }
  { by eapply same_graph_acyclic. }
  { by rewrite (same_graph_length _ _ Hs2). }
  { by rewrite (same_graph_length _ _ Hs2). }
  exists h1, h2, h3. do 3 (split; [done|]). split; [|split; [done|]].
  - intros n t Hn Ht. rewrite Hh2 in Ht.
    rewrite decide_True in Ht by (by apply Hreach).
    destruct (h !! n); simpl in Ht; [|done]. by injection Ht as <-.
  - intros Hfresh.
    assert (h2 = h) as ->
      by (by eapply (clear_fresh h root fuel h2)).
    split; [done|]. congruence.
Qed.

(** C9. The operations extend the store and leave every existing
    object as it is; a completed [backward] or [clear_derivatives]
    leaves [value], [args], [local_derivatives] and [name] of every
    object as they are, and the objects not reachable from the root
    entirely. *)
Theorem operations_frame :
  (∀ a b h r h', _add a b h = Ok (r, h') → ∃ new, h' = h ++ new)
  ∧ (∀ a b h r h', _sub a b h = Ok (r, h') → ∃ new, h' = h ++ new)
  ∧ (∀ a b h r h', _mul a b h = Ok (r, h') → ∃ new, h' = h ++ new)
  ∧ (∀ fuel root h u h', backward fuel root h = Ok (u, h') →
       Forall2 same_fields h h'
       ∧ ∀ n, ¬ reachable h root n → h' !! n = h !! n)
  ∧ (∀ fuel root h u h', clear_derivatives fuel root h = Ok (u, h') →
       Forall2 same_fields h h'
       ∧ ∀ n, ¬ reachable h root n → h' !! n = h !! n).
Proof.
  split; [|split; [|split; [|split]]].
  - intros a b h r h' Hrun.
    destruct (_add_inv _ _ _ _ _ Hrun) as (ta & tb & Ha & Hb).
    rewrite (_add_run h a b ta tb Ha Hb) in Hrun. injection Hrun as <- <-.
    by eexists.
  - intros a b h r h' Hrun.
    destruct (_sub_inv _ _ _ _ _ Hrun) as (ta & tb & Ha & Hb).
    rewrite (_sub_run h a b ta tb Ha Hb) in Hrun. injection Hrun as <- <-.
    by eexists.
  - intros a b h r h' Hrun.
    destruct (_mul_inv _ _ _ _ _ Hrun) as (ta & tb & Ha & Hb).
    rewrite (_mul_run h a b ta tb Ha Hb) in Hrun. injection Hrun as <- <-.
    by eexists.
  - intros fuel root h u h' Hrun. by apply (backward_only h root fuel u h').
  - intros fuel root h u h' Hrun.
    by apply (clear_derivatives_only h root fuel u h').
Qed.

End Claims.

Section ClaimsExact.
Context {F : Type} {SF : Scalar F} {EF : ExactScalar F}.
Implicit Types (h : heap F) (t : Tensor F) (n a b root self x : loc).

Lemma tangent_rules h root fuel (order : list loc) x :
  graph_ok h → root < length h → length h < fuel →
  NoDup order → (∀ n, n ∈ order ↔ reachable h root n) →
  topo_sorted h order →
  tangent fuel h x x = float_one
  ∧ ∀ n, n ∈ order → n ≠ x →
      tangent fuel h x n
      = sum_list (λ e, fmul (value_at h e.2) (tangent fuel h x e.1))
                 (out_edges h n).
Proof.
  intros Hok Hroot Hfuel Hnd Hreach Hts.
  assert (Hlen : length order ≤ length h).
  { apply order_length_le; [done|]. intros n Hn%Hreach.
    by eapply reachable_valid. }
  split; [destruct fuel; [lia|apply tangent_self]|].
  intros n [i Hi]%list_elem_of_lookup Hnx.
  eapply tangent_unfold; [done..| |done].
  apply lookup_lt_Some in Hi. lia.
Qed.

(** C1. On a well-formed acyclic graph built from [Tensor(...)], [+],
    [-] and [*], over exact arithmetic, [backward] completes and
    accumulates into every node [x] reachable from the root, on top of
    what the nodes held before (the root reset to [1.0], an absent
    derivative counting [0]), each held derivative times the partial
    derivative of its node with respect to [x].  So when the graph holds
    no derivative yet, every reachable node ends with the partial
    derivative of the root's value with respect to its own value: the
    value the rules of differentiation determine, which is the
    chain-rule sum over all [args] paths from the root to the node. *)
Theorem backward_computes_partial_derivatives h root fuel :
  graph_ok h → acyclic h → built_from_ops h root →
  root < length h → length h < fuel →
  ∃ order visited troot h',
    build_topo fuel h root ([], ∅) = Ok (order, visited)
    ∧ h !! root = Some troot
    ∧ backward fuel root h = Ok (tt, h')
    ∧ ∀ x, reachable h root x →
        (∀ m, reachable h root m → partial h x m (tangent fuel h x m))
        ∧ ∃ t d, h' !! x = Some t ∧ derivative t = Some d
          ∧ d = sum_list
                  (λ m, fmul
                     (dval (<[root := set_derivative (Some float_one) troot]> h)
                        m)
                     (tangent fuel h x m))
                  (reverse order)
          ∧ (fresh h root →
               d = tangent fuel h x root
               ∧ partial h x root d
               ∧ ∀ d', partial h x root d' → d' = d).
Proof.
  intros Hok Hacyc Hops Hroot Hfuel.
  destruct (backward_values h root fuel Hok Hacyc Hroot Hfuel)
    as (order & visited & troot & h' & Htopo & Hnd & Hreach & Hts & Ht
        & Hrun & Hval).
  exists order, visited, troot, h'. do 3 (split; [done|]). intros x Hx.
  destruct (tangent_rules h root fuel order x Hok Hroot Hfuel Hnd Hreach Hts)
    as [HT1 HT2].
  assert (Hpartial : ∀ m, reachable h root m →
            partial h x m (tangent fuel h x m)).
  { intros m [i Hi]%Hreach%list_elem_of_lookup.
    apply (chain_partial h x order (tangent fuel h x) Hts HT1 HT2 root)
      with (i := i); [|done..].
    intros n Hn. by apply Hreach. }
  split; [done|].
  destruct (Hval x Hx) as (t & Htx & Hd).
  exists t, (wsum (tangent fuel h x)
               (<[root := set_derivative (Some float_one) troot]> h)
               (reverse order)).
  do 3 (split; [done|]). intros Hfresh.
  destruct (backward_fresh h root fuel Hok Hacyc Hfresh Hroot Hfuel)
    as (order' & h'' & _ & _ & _ & Hrun' & Hval').
  assert (h'' = h') as -> by congruence.
  destruct (Hval' x Hx) as (t' & Htx' & Hd').
  assert (Heq : wsum (tangent fuel h x)
                  (<[root := set_derivative (Some float_one) troot]> h)
                  (reverse order) = tangent fuel h x root) by congruence.
  rewrite Heq. split; [done|]. split.
  - apply Hpartial, rtc_refl.
  - intros d' Hd''.
    apply (partial_chain h x order (tangent fuel h x) Hts HT1 HT2 root d');
      [done|]. apply Hreach, rtc_refl.
Qed.

(** The chain-rule sum is the value the rules of differentiation
    determine. *)
Lemma tangent_partial h root fuel x :
  graph_ok h → acyclic h → built_from_ops h root →
  root < length h → length h < fuel →
  partial h x root (tangent fuel h x root)
  ∧ ∀ d, partial h x root d → d = tangent fuel h x root.
Proof.
  intros Hok Hacyc Hops Hroot Hfuel.
  destruct (build_topo_root h root fuel Hok Hacyc Hroot Hfuel)
    as (order & visited & Htopo & Hnd & Hreach & Hts & Hlast).
  destruct (tangent_rules h root fuel order x Hok Hroot Hfuel Hnd Hreach Hts)
    as [HT1 HT2].
  assert (Hroot_in : root ∈ order) by apply Hreach, rtc_refl.
  split.
  - apply list_elem_of_lookup in Hroot_in as [i Hi].
    apply (chain_partial h x order (tangent fuel h x) Hts HT1 HT2 root)
      with (i := i); [|done..].
    intros n Hn. by apply Hreach.
  - intros d Hd.
    by apply (partial_chain h x order (tangent fuel h x) Hts HT1 HT2 root d).
Qed.

End ClaimsExact.

Section ClaimsProduct.
Context {F : Type} {SF : Scalar F}.
Implicit Types (h : heap F) (t : Tensor F) (n a b root self x : loc).

(** C4. For two distinct leaves [a] and [b] without derivative and
    [y = a * b], [backward] on [y] leaves [1.0] in [y],
    [derivative(y) * b.value] in [a] and [derivative(y) * a.value] in
    [b]; where multiplying by [1.0] is the identity, these are [b.value]
    and [a.value]. *)
Theorem product_rule_backward h a b ta tb fuel :
  a ≠ b → h !! a = Some ta → h !! b = Some tb →
  args ta = None → args tb = None →
  derivative ta = None → derivative tb = None →
  2 ≤ fuel →
  ∃ y h1 h2 ty ta' tb' dy,
    _mul a b h = Ok (y, h1)
    ∧ backward fuel y h1 = Ok (tt, h2)
    ∧ h2 !! y = Some ty ∧ derivative ty = Some dy ∧ dy = float_one
    ∧ h2 !! a = Some ta' ∧ derivative ta' = Some (fmul dy (value tb))
    ∧ h2 !! b = Some tb' ∧ derivative tb' = Some (fmul dy (value ta))
    ∧ (fmul float_one (value tb) = value tb →
       fmul float_one (value ta) = value ta →
       derivative ta' = Some (value tb) ∧ derivative tb' = Some (value ta)).
Proof.
  intros Hab Ha Hb Haa Hab' Hda Hdb Hfuel.
  pose proof (lookup_lt_Some _ _ _ Ha) as Hla.
  pose proof (lookup_lt_Some _ _ _ Hb) as Hlb.
  eexists (length h), _, _, _, _, _, float_one.
  split; [by apply (_mul_run h a b ta tb)|].
  split; [by apply (backward_mul_run h a b ta tb fuel)|].
  split.
  { rewrite list_lookup_insert_ne by lia.
    rewrite list_lookup_insert_ne by lia. apply lookup_snoc. }
  split; [done|]. split; [done|]. split.
  { rewrite list_lookup_insert_ne by done.
    apply list_lookup_insert_eq. rewrite length_app. lia. }
  split; [done|]. split.
  { apply list_lookup_insert_eq. rewrite length_insert, length_app. lia. }
  split; [done|].
  intros Hvb Hva. cbn [derivative set_derivative]. by rewrite Hvb, Hva.
Qed.

End ClaimsProduct.

Section ClaimsOperations.
Context {F : Type} {SF : Scalar F}.
Implicit Types (h : heap F) (t : Tensor F) (n a b root self x : loc).

(** C5. [_add], [_sub] and [_mul] return a new node whose value is the
    sum, difference and product of the operands' values, whose [args]
    are [(a, b)] and whose [local_derivatives] are two nodes with
    values [(float(1), float(1))], [(float(1), float(-1))] and
    [(b.value, a.value)], in that operand order. *)
Theorem elementary_operations_build h a b ta tb :
  h !! a = Some ta → h !! b = Some tb →
  (∃ r h' t d_a d_b tda tdb,
     _add a b h = Ok (r, h') ∧ h' !! r = Some t
     ∧ value t = fadd (value ta) (value tb)
     ∧ args t = Some [a; b] ∧ local_derivatives t = Some [d_a; d_b]
     ∧ h' !! d_a = Some tda ∧ h' !! d_b = Some tdb
     ∧ value tda = float_of_int 1 ∧ value tdb = float_of_int 1)
  ∧ (∃ r h' t d_a d_b tda tdb,
     _sub a b h = Ok (r, h') ∧ h' !! r = Some t
     ∧ value t = fsub (value ta) (value tb)
     ∧ args t = Some [a; b] ∧ local_derivatives t = Some [d_a; d_b]
     ∧ h' !! d_a = Some tda ∧ h' !! d_b = Some tdb
     ∧ value tda = float_of_int 1 ∧ value tdb = float_of_int (-1))
  ∧ (∃ r h' t d_a d_b tda tdb,
     _mul a b h = Ok (r, h') ∧ h' !! r = Some t
     ∧ value t = fmul (value ta) (value tb)
     ∧ args t = Some [a; b] ∧ local_derivatives t = Some [d_a; d_b]
     ∧ h' !! d_a = Some tda ∧ h' !! d_b = Some tdb
     ∧ value tda = value tb ∧ value tdb = value ta).
Proof.
  intros Ha Hb.
  pose proof (lookup_lt_Some _ _ _ Ha) as Hla.
  pose proof (lookup_lt_Some _ _ _ Hb) as Hlb.
  split; [|split].
  - eexists (length h), _, _, _, _, _, _.
    split; [by apply (_add_run h a b ta tb)|].
    split; [by apply list_lookup_middle|].
    do 3 (split; [done|]).
    split; [rewrite lookup_app_r by lia;
            by replace (length h + 1 - length h) with 1 by lia|].
    split; [rewrite lookup_app_r by lia;
            by replace (length h + 2 - length h) with 2 by lia|].
    done.
  - eexists (length h), _, _, _, _, _, _.
    split; [by apply (_sub_run h a b ta tb)|].
    split; [by apply list_lookup_middle|].
    do 3 (split; [done|]).
    split; [rewrite lookup_app_r by lia;
            by replace (length h + 1 - length h) with 1 by lia|].
    split; [rewrite lookup_app_r by lia;
            by replace (length h + 2 - length h) with 2 by lia|].
    done.
  - eexists (length h), _, _, _, _, _, _.
    split; [by apply (_mul_run h a b ta tb)|].
    split; [by apply list_lookup_middle|].
    do 3 (split; [done|]).
    split; [by rewrite lookup_app_l|].
    split; [by rewrite lookup_app_l|]. done.
Qed.

Lemma fresh_local_derivatives_run (op : loc → loc → M F loc) v1 v2
    (f : F → F → F) :
  (∀ h a b r h', op a b h = Ok (r, h') →
     ∃ ta tb, h !! a = Some ta ∧ h !! b = Some tb) →
  (∀ h a b ta tb, h !! a = Some ta → h !! b = Some tb →
     op a b h
     = Ok (length h,
           h ++ [op_result (f (value ta) (value tb)) a b
                   (length h + 1) (length h + 2);
                 leaf v1 None; leaf v2 None])) →
  fresh_local_derivatives op.
Proof.
  intros Hvalid Hrun h a b r h' t Hop Hr.
  destruct (Hvalid _ _ _ _ _ Hop) as (ta & tb & Ha & Hb).
  pose proof (lookup_lt_Some _ _ _ Ha) as Hla.
  pose proof (lookup_lt_Some _ _ _ Hb) as Hlb.
  rewrite (Hrun h a b ta tb Ha Hb) in Hop. injection Hop as <- <-.
  rewrite list_lookup_middle in Hr by done. injection Hr as <-.
  exists (length h + 1), (length h + 2), (leaf v1 None), (leaf v2 None).
  split; [done|]. split; [lia|]. split; [lia|].
  do 4 (split; [lia|]).
  split; [rewrite lookup_app_r by lia;
          by replace (length h + 1 - length h) with 1 by lia|].
  split; [rewrite lookup_app_r by lia;
          by replace (length h + 2 - length h) with 2 by lia|].
  done.
Qed.

(** C6, amended. The [local_derivatives] of a sum or a difference are
    two leaves the call allocated, distinct from the operands; those of
    a product are the operands themselves, [(b, a)]; and [backward]
    reads an entry only through its [value]: the contribution pushed is
    [node.derivative * entry.value]. *)
Theorem local_derivative_nodes :
  fresh_local_derivatives _add
  ∧ fresh_local_derivatives _sub
  ∧ (∀ h a b r h' t,
       _mul a b h = Ok (r, h') → h' !! r = Some t →
       local_derivatives t = Some [b; a])
  ∧ (∀ h node arg entry tn te d,
       h !! node = Some tn → h !! entry = Some te →
       derivative tn = Some d →
       push node (arg, entry) h = accumulate arg (fmul d (value te)) h).
Proof.
  split; [|split; [|split]].
  - apply (fresh_local_derivatives_run _add (float_of_int 1)
             (float_of_int 1) fadd); [apply _add_inv|apply _add_run].
  - apply (fresh_local_derivatives_run _sub (float_of_int 1)
             (float_of_int (-1)) fsub); [apply _sub_inv|apply _sub_run].
  - intros h a b r h' t Hop Hr.
    destruct (_mul_inv _ _ _ _ _ Hop) as (ta & tb & Ha & Hb).
    rewrite (_mul_run h a b ta tb Ha Hb) in Hop. injection Hop as <- <-.
    rewrite list_lookup_middle in Hr by done. by injection Hr as <-.
  - intros h node arg entry tn te d Hn He Hd.
    unfold push, bind, deref. by rewrite Hn, He, Hd.
Qed.

End ClaimsOperations.

(** C6 as stated fails for [_mul]: the local derivatives of [x * c] are
    the operand objects [c] and [x] themselves. *)
Lemma mul_local_derivatives_are_operands :
  ¬ fresh_local_derivatives (F := float) _mul.
Proof.
  intros Hfresh.
  destruct (Hfresh [leaf 2%float None; leaf 3%float None] 0 1 2
              [leaf 2%float None; leaf 3%float None;
               op_result 6%float 0 1 1 0]
              (op_result 6%float 0 1 1 0) eq_refl eq_refl)
    as (d_a & d_b & tda & tdb & Hlds & _ & _ & _ & Hda & _).
  injection Hlds as <- <-. by apply Hda.
Qed.

Section ClaimsOperators.
Context {F : Type} {SF : Scalar F}.
Implicit Types (h : heap F) (t : Tensor F) (n a b root self : loc).

Lemma no_type_error_bind {A B} (m : M F A) (k : A → M F B) :
  no_type_error m → (∀ x, no_type_error (k x)) → no_type_error (bind m k).
Proof.
  intros Hm Hk h. unfold bind. specialize (Hm h).
  destruct (m h) as [[x h']|e]; [apply Hk|done].
Qed.

Lemma no_type_error_deref l : no_type_error (deref (F := F) l).
Proof. intros h. unfold deref. by destruct (h !! l). Qed.

Lemma no_type_error_setattr l f : no_type_error (setattr (F := F) l f).
Proof. intros h. unfold setattr. by destruct (h !! l). Qed.

Lemma no_type_error_init (v : F) nm : no_type_error (Tensor__init__ v nm).
Proof. done. Qed.

Lemma no_type_error_of_int z nm :
  no_type_error (Tensor_of_int (F := F) z nm).
Proof. intros h. unfold Tensor_of_int. by destruct (int_too_large z). Qed.

Lemma no_type_error_ret {A} (x : A) : no_type_error (ret (F := F) x).
Proof. done. Qed.

Local Ltac no_type_error :=
  repeat first
    [ apply no_type_error_deref | apply no_type_error_setattr
    | apply no_type_error_init | apply no_type_error_of_int
    | apply no_type_error_ret
    | apply no_type_error_bind; [|intros ?] ].

Lemma no_type_error_add a b : no_type_error (_add (F := F) a b).
Proof. unfold _add. no_type_error. Qed.

Lemma no_type_error_sub a b : no_type_error (_sub (F := F) a b).
Proof. unfold _sub. no_type_error. Qed.

Lemma no_type_error_mul a b : no_type_error (_mul (F := F) a b).
Proof. unfold _mul. no_type_error. Qed.

Lemma returned_not_implemented (m : M F loc) h :
  returns_not_implemented (returned m h) = false.
Proof. unfold returned, bind. by destruct (m h) as [[r h']|e]. Qed.

Lemma returned_type_error (m : M F loc) h :
  no_type_error m → raises_type_error (or_type_error (returned m) h) = false.
Proof.
  intros Hm. unfold or_type_error, returned, bind. specialize (Hm h).
  by destruct (m h) as [[r h']|e].
Qed.

Local Ltac supported_case :=
  first
    [ apply returned_not_implemented
    | apply returned_type_error;
      repeat first
        [ apply no_type_error_add | apply no_type_error_sub
        | apply no_type_error_mul | apply no_type_error_init
        | apply no_type_error_of_int
        | apply no_type_error_bind; [|intros ?] ] ].

Lemma ask_other_declined (other : other_method) (k : M F py_value) h :
  declines other h → ask_other other k h = k h.
Proof.
  destruct other as [m|]; [|done]. simpl. intros Hm.
  unfold bind. by rewrite Hm.
Qed.

Lemma ask_other_returned (m : M F answer) (k : M F py_value) v h h' :
  m h = Ok (Returned v, h') → ask_other (Some m) k h = Ok (v, h').
Proof. intros Hm. simpl. unfold bind. by rewrite Hm. Qed.

(** When the other operand's type declines, the expression is what the
    method of the [Tensor] alone makes of it. *)
Lemma binary_op_declined method self (x : operand) (other : other_method) h :
  declines other h →
  returns_not_implemented (method self x h) = false
  ∨ method self x h = Ok (RNotImplemented, h) →
  binary_op method self x other h = as_value (tensor_op method self x h).
Proof.
  intros Hother Hm. unfold binary_op, tensor_op, or_type_error, bind.
  destruct (method self x h) as [[[r|] h']|e] eqn:Hrun; try done.
  destruct Hm as [Hm|Hm]; [done|]. injection Hm as <-.
  by rewrite ask_other_declined.
Qed.

(** When the method of the [Tensor] returns a [Tensor] or raises, the
    other operand's type is not asked. *)
Lemma binary_op_answered method self (x : operand) (other : other_method) h :
  returns_not_implemented (method self x h) = false →
  binary_op method self x other h = as_value (tensor_op method self x h).
Proof.
  intros Hm. unfold binary_op, tensor_op, or_type_error, bind.
  by destruct (method self x h) as [[[r|] h']|e].
Qed.

Lemma reflected_binary_op_declined rmethod self (x : operand)
    (other : other_method) h :
  declines other h →
  reflected_binary_op rmethod x other self h
  = as_value (or_type_error (rmethod self x) h).
Proof.
  intros Hother. unfold reflected_binary_op.
  rewrite ask_other_declined by done.
  unfold or_type_error, bind.
  by destruct (rmethod self x h) as [[[r|] h']|e].
Qed.

Lemma raises_type_error_as_value (r : result (loc * heap F)) :
  raises_type_error (as_value r) = raises_type_error r.
Proof. by destruct r as [[l h]|e]. Qed.

(** C8. Each of the six operator methods answers [NotImplemented]
    exactly when the other operand is neither a [Tensor] nor a plain
    number, without coercing it.  When the other operand's own type
    declines as well (it does not define the operator for a [Tensor], as
    no built-in type does), each of the six operator forms ends in
    [TypeError] in the caller exactly then; with a [Tensor] or a number
    written on the right, the form never ends in [TypeError], whatever
    the operand's type defines.  When the other operand's type does
    implement the operator for a [Tensor], the form with an operand that
    is neither a [Tensor] nor a number evaluates to what that method
    returns. *)
Theorem unsupported_operand_signalled self (x : operand) h :
  (returns_not_implemented (__add__ self x h) = negb (supported x)
   ∧ returns_not_implemented (__radd__ self x h) = negb (supported x)
   ∧ returns_not_implemented (__sub__ self x h) = negb (supported x)
   ∧ returns_not_implemented (__rsub__ self x h) = negb (supported x)
   ∧ returns_not_implemented (__mul__ self x h) = negb (supported x)
   ∧ returns_not_implemented (__rmul__ self x h) = negb (supported x))
  ∧ (∀ other : other_method, declines other h →
       raises_type_error (binary_op __add__ self x other h)
       = negb (supported x)
       ∧ raises_type_error (reflected_binary_op __radd__ x other self h)
         = negb (supported x)
       ∧ raises_type_error (binary_op __sub__ self x other h)
         = negb (supported x)
       ∧ raises_type_error (reflected_binary_op __rsub__ x other self h)
         = negb (supported x)
       ∧ raises_type_error (binary_op __mul__ self x other h)
         = negb (supported x)
       ∧ raises_type_error (reflected_binary_op __rmul__ x other self h)
         = negb (supported x))
  ∧ (∀ other : other_method, supported x = true →
       raises_type_error (binary_op __add__ self x other h) = false
       ∧ raises_type_error (binary_op __sub__ self x other h) = false
       ∧ raises_type_error (binary_op __mul__ self x other h) = false)
  ∧ (∀ (m : M F answer) v h', supported x = false →
       m h = Ok (Returned v, h') →
       binary_op __add__ self x (Some m) h = Ok (v, h')
       ∧ reflected_binary_op __radd__ x (Some m) self h = Ok (v, h')
       ∧ binary_op __sub__ self x (Some m) h = Ok (v, h')
       ∧ reflected_binary_op __rsub__ x (Some m) self h = Ok (v, h')
       ∧ binary_op __mul__ self x (Some m) h = Ok (v, h')
       ∧ reflected_binary_op __rmul__ x (Some m) self h = Ok (v, h')).
Proof.
  assert (Hmethods_ni :
    returns_not_implemented (__add__ self x h) = negb (supported x)
    ∧ returns_not_implemented (__radd__ self x h) = negb (supported x)
    ∧ returns_not_implemented (__sub__ self x h) = negb (supported x)
    ∧ returns_not_implemented (__rsub__ self x h) = negb (supported x)
    ∧ returns_not_implemented (__mul__ self x h) = negb (supported x)
    ∧ returns_not_implemented (__rmul__ self x h) = negb (supported x)).
  { destruct x as [y|z|v|]; cbn [supported negb];
      cbn [__add__ __radd__ __sub__ __rsub__ __mul__ __rmul__];
      repeat split; try supported_case; done. }
  split; [done|]. split; [|split].
  - intros other Hother.
    assert (Hmethods :
      ∀ method, 
        (method = __add__ ∨ method = __radd__ ∨ method = __sub__
         ∨ method = __rsub__ ∨ method = __mul__ ∨ method = __rmul__) →
        raises_type_error (or_type_error (method self x) h)
        = negb (supported x)
        ∧ (returns_not_implemented (method self x h) = false
           ∨ method self x h = Ok (RNotImplemented, h))).
    { intros method Hmethod.
      destruct x as [y|z|v|]; cbn [supported negb];
        destruct Hmethod as [->|[->|[->|[->|[->| ->]]]]];
        cbn [__add__ __radd__ __sub__ __rsub__ __mul__ __rmul__];
        (split; [try supported_case; done
                |first [left; by apply returned_not_implemented
                       |by right]]). }
    repeat split.
    + rewrite binary_op_declined, raises_type_error_as_value;
        [|done|apply Hmethods; tauto]. apply Hmethods; tauto.
    + rewrite reflected_binary_op_declined, raises_type_error_as_value
        by done. apply Hmethods; tauto.
    + rewrite binary_op_declined, raises_type_error_as_value;
        [|done|apply Hmethods; tauto]. apply Hmethods; tauto.
    + rewrite reflected_binary_op_declined, raises_type_error_as_value
        by done. apply Hmethods; tauto.
    + rewrite binary_op_declined, raises_type_error_as_value;
        [|done|apply Hmethods; tauto]. apply Hmethods; tauto.
    + rewrite reflected_binary_op_declined, raises_type_error_as_value
        by done. apply Hmethods; tauto.
  - intros other Hx.
    destruct Hmethods_ni as (Hadd & _ & Hsub & _ & Hmul & _).
    rewrite Hx in Hadd, Hsub, Hmul. cbn [negb] in Hadd, Hsub, Hmul.
    rewrite !binary_op_answered, !raises_type_error_as_value by done.
    destruct x as [y|z|v|]; [..|done]; unfold tensor_op;
      cbn [__add__ __radd__ __sub__ __rsub__ __mul__ __rmul__];
      repeat split; supported_case.
  - intros m v h' Hx Hm. destruct x as [y|z|w|]; try done.
    unfold binary_op, reflected_binary_op.
    cbn [__add__ __radd__ __sub__ __rsub__ __mul__ __rmul__].
    unfold bind at 1 3 5. cbn [ret].
    by rewrite !(ask_other_returned m _ v h h' Hm).
Qed.

End ClaimsOperators.

Lemma Tensor_of_int_run {F} {SF : Scalar F} (z : Z) nm (h : heap F) :
  int_too_large z = false →
  Tensor_of_int z nm h = Ok (length h, h ++ [leaf (float_of_int z) nm]).
Proof. intros Hz. unfold Tensor_of_int. by rewrite Hz. Qed.

(** C10. On binary64, with [x = Tensor(3)]: [x + 2], [2 + x], [x * 4]
    and [4 * x] wrap the number as a new leaf, pass it to the operation
    on the side it was written, and have the values [5.0], [5.0],
    [12.0] and [12.0]. *)
Theorem literal_scalar_coercion (h0 : heap float) (nm : option string) :
  ∃ x h,
    Tensor_of_int 3 nm h0 = Ok (x, h)
    ∧ (∃ r h' t k,
         tensor_op __add__ x (OInt 2) h = Ok (r, h')
         ∧ h' !! r = Some t ∧ value t = 5%float
         ∧ args t = Some [x; k] ∧ h' !! k = Some (leaf 2%float None))
    ∧ (∃ r h' t k,
         reflected_op __add__ __radd__ (OInt 2) x h = Ok (r, h')
         ∧ h' !! r = Some t ∧ value t = 5%float
         ∧ args t = Some [k; x] ∧ h' !! k = Some (leaf 2%float None))
    ∧ (∃ r h' t k,
         tensor_op __mul__ x (OInt 4) h = Ok (r, h')
         ∧ h' !! r = Some t ∧ value t = 12%float
         ∧ args t = Some [x; k] ∧ h' !! k = Some (leaf 4%float None))
    ∧ (∃ r h' t k,
         reflected_op __mul__ __rmul__ (OInt 4) x h = Ok (r, h')
         ∧ h' !! r = Some t ∧ value t = 12%float
         ∧ args t = Some [k; x] ∧ h' !! k = Some (leaf 4%float None)).
Proof.
  exists (length h0), (h0 ++ [leaf (float_of_int 3) nm]).
  assert (H3 : int_too_large (F := float) 3 = false) by (by vm_compute).
  assert (H2 : int_too_large (F := float) 2 = false) by (by vm_compute).
  assert (H4 : int_too_large (F := float) 4 = false) by (by vm_compute).
  split; [by apply Tensor_of_int_run|].
  set (h := h0 ++ [leaf (float_of_int 3) nm]).
  assert (Hlen : length h = length h0 + 1)
    by (unfold h; rewrite length_app; simpl; lia).
  assert (Hx : ∀ v, (h ++ [leaf v None]) !! length h0
                    = Some (leaf (float_of_int 3) nm)).
  { intros v. rewrite lookup_app_l by lia. apply lookup_snoc. }
  assert (Hk : ∀ v new,
            ((h ++ [leaf (float_of_int v) None]) ++ new) !! length h
            = Some (leaf (float_of_int v) None)).
  { intros v new. rewrite lookup_app_l by (rewrite length_app; simpl; lia).
    apply lookup_snoc. }
  split; [|split; [|split]].
  - eexists _, _, _, (length h).
    unfold tensor_op, or_type_error, __add__, returned, bind.
    rewrite (Tensor_of_int_run 2 None h H2).
    rewrite (_add_run _ _ _ _ _ (Hx _) (lookup_snoc _ _)).
    split; [done|]. split; [by apply list_lookup_middle|].
    split; [by vm_compute|]. split; [done|]. rewrite Hk. by vm_compute.
  - eexists _, _, _, (length h).
    unfold reflected_op, or_type_error, __radd__, returned, bind.
    rewrite (Tensor_of_int_run 2 None h H2).
    rewrite (_add_run _ _ _ _ _ (lookup_snoc _ _) (Hx _)).
    split; [done|]. split; [by apply list_lookup_middle|].
    split; [by vm_compute|]. split; [done|]. rewrite Hk. by vm_compute.
  - eexists _, _, _, (length h).
    unfold tensor_op, or_type_error, __mul__, returned, bind.
    rewrite (Tensor_of_int_run 4 None h H4).
    rewrite (_mul_run _ _ _ _ _ (Hx _) (lookup_snoc _ _)).
    split; [done|]. split; [by apply list_lookup_middle|].
    split; [by vm_compute|]. split; [done|]. rewrite Hk. by vm_compute.
  - eexists _, _, _, (length h).
    unfold reflected_op, or_type_error, __rmul__, returned, bind.
    rewrite (Tensor_of_int_run 4 None h H4).
    rewrite (_mul_run _ _ _ _ _ (lookup_snoc _ _) (Hx _)).
    split; [done|]. split; [by apply list_lookup_middle|].
    split; [by vm_compute|]. split; [done|]. rewrite Hk. by vm_compute.
Qed.

(** ** The properties at concrete graphs *)

Lemma reuse_graph_ok {F} {SF : Scalar F} : graph_ok (reuse_graph (F := F)).
Proof. by apply check_graph_ok. Qed.

Lemma reuse_graph_acyclic {F} {SF : Scalar F} :
  acyclic (reuse_graph (F := F)).
Proof. by apply args_point_back_acyclic. Qed.

Lemma reuse_graph_fresh {F} {SF : Scalar F} :
  fresh (reuse_graph (F := F)) 5.
Proof. by apply no_derivatives_fresh. Qed.

(** The graph is a store built through the interface. *)
Example reuse_graph_api_store : api_store reuse_graph_Z.
Proof.
  apply (api_mul [leaf 5%Z (Some "x"%string); leaf 3%Z (Some "c"%string);
                  op_result 8%Z 0 1 3 4; leaf 1%Z None; leaf 1%Z None]
                 2 0 5); [|reflexivity].
  apply (api_add [leaf 5%Z (Some "x"%string); leaf 3%Z (Some "c"%string)]
                 0 1 2); [|reflexivity].
  apply (api_leaf [leaf 5%Z (Some "x"%string)] 3%Z (Some "c"%string)).
  apply (api_leaf [] 5%Z (Some "x"%string)).
  apply api_empty.
Qed.

Lemma reuse_graph_built : built_from_ops reuse_graph_Z 5.
Proof.
  apply (api_store_graph reuse_graph_Z 5 reuse_graph_api_store).
  simpl; lia.
Qed.

(** The derivatives of [test_reuse]: [dy/dx = 2x + c = 13],
    [dy/dc = x = 5], on binary64 and on the integers. *)
Example reuse_backward_float :
  ∃ h', backward 7 5 reuse_graph_float = Ok (tt, h')
    ∧ derivative <$> h' !! 0 = Some (Some 13%float)
    ∧ derivative <$> h' !! 1 = Some (Some 5%float)
    ∧ derivative <$> h' !! 5 = Some (Some 1%float).
Proof. eexists. split; [by vm_compute|]. by vm_compute. Qed.

Example reuse_backward_Z :
  ∃ h', backward 7 5 reuse_graph_Z = Ok (tt, h')
    ∧ derivative <$> h' !! 0 = Some (Some 13%Z)
    ∧ derivative <$> h' !! 1 = Some (Some 5%Z).
Proof. eexists. split; [by vm_compute|]. by vm_compute. Qed.

Lemma backward_partial_witness :
  graph_ok reuse_graph_Z ∧ acyclic reuse_graph_Z
  ∧ built_from_ops reuse_graph_Z 5
  ∧ 5 < length reuse_graph_Z ∧ length reuse_graph_Z < 7
  ∧ fresh reuse_graph_Z 5
  ∧ ∃ h', backward 7 5 reuse_graph_Z = Ok (tt, h')
      ∧ ∀ x, reachable reuse_graph_Z 5 x →
          ∃ t d, h' !! x = Some t ∧ derivative t = Some d
            ∧ d = tangent 7 reuse_graph_Z x 5
            ∧ partial reuse_graph_Z x 5 d
            ∧ ∀ d', partial reuse_graph_Z x 5 d' → d' = d.
Proof.
  split; [apply reuse_graph_ok|]. split; [apply reuse_graph_acyclic|].
  split; [apply reuse_graph_built|].
  split; [simpl; lia|]. split; [simpl; lia|].
  split; [apply reuse_graph_fresh|].
  destruct (backward_computes_partial_derivatives reuse_graph_Z 5 7)
    as (order & visited & troot & h' & _ & _ & Hrun & Hval).
  - apply reuse_graph_ok.
  - apply reuse_graph_acyclic.
  - apply reuse_graph_built.
  - simpl; lia.
  - simpl; lia.
  - exists h'. split; [exact Hrun|]. intros x Hx.
    destruct (Hval x Hx) as (_ & t & d & Ht & Hd & _ & Hfresh).
    exists t, d. split; [exact Ht|]. split; [exact Hd|].
    exact (Hfresh reuse_graph_fresh).
Defined.

(** The chain-rule sums of [test_reuse]: [dy/dx = 13], [dy/dc = 5]. *)
Example reuse_tangent_Z :
  tangent 7 reuse_graph_Z 0 5 = 13%Z ∧ tangent 7 reuse_graph_Z 1 5 = 5%Z
  ∧ fresh reuse_graph_Z 5.
Proof. split; [by vm_compute|]. split; [by vm_compute|apply reuse_graph_fresh]. Qed.

(** Without clearing, a second [backward] adds to what the first left:
    [x] ends with [1*13 + 5*1 + 13*1 = 31], not [13]. *)
Example reuse_backward_twice_Z :
  ∃ h1 h2, backward 7 5 reuse_graph_Z = Ok (tt, h1)
    ∧ backward 7 5 h1 = Ok (tt, h2)
    ∧ derivative <$> h1 !! 0 = Some (Some 13%Z)
    ∧ derivative <$> h2 !! 0 = Some (Some 31%Z).
Proof. do 2 eexists. split; [by vm_compute|]. split; by vm_compute. Qed.

Lemma build_topo_witness :
  graph_ok reuse_graph_float ∧ acyclic reuse_graph_float
  ∧ 5 < length reuse_graph_float
  ∧ length reuse_graph_float < 7
  ∧ ∃ order visited,
      build_topo 7 reuse_graph_float 5 ([], ∅) = Ok (order, visited)
      ∧ NoDup order
      ∧ (∀ n, n ∈ order ↔ reachable reuse_graph_float 5 n)
      ∧ (∀ i n a, order !! i = Some n →
           edge reuse_graph_float n a →
           ∃ j, j < i ∧ order !! j = Some a)
      ∧ last order = Some 5.
Proof.
  split; [apply reuse_graph_ok|]. split; [apply reuse_graph_acyclic|].
  split; [simpl; lia|]. split; [simpl; lia|].
  apply (build_topo_topological_order reuse_graph_float 5 7).
  - apply reuse_graph_ok.
  - apply reuse_graph_acyclic.
  - simpl; lia.
  - simpl; lia.
Defined.

(** The order the traversal returns on that graph. *)
Example reuse_order :
  fst <$> (match build_topo 7 reuse_graph_float 5 ([], ∅) with
           | Ok st => Some st
           | Raise _ => None
           end) = Some [0; 1; 2; 5].
Proof. by vm_compute. Qed.

Lemma backward_present_witness :
  graph_ok reuse_graph_float ∧ acyclic reuse_graph_float
  ∧ 5 < length reuse_graph_float
  ∧ length reuse_graph_float < 7
  ∧ ∃ order visited t h',
      build_topo 7 reuse_graph_float 5 ([], ∅) = Ok (order, visited)
      ∧ reuse_graph_float !! 5 = Some t
      ∧ backward 7 5 reuse_graph_float
        = for_each (reverse order) backward_node
            (<[5 := set_derivative (Some float_one) t]> reuse_graph_float)
      ∧ backward 7 5 reuse_graph_float = Ok (tt, h')
      ∧ NoDup (reverse order)
      ∧ (∀ n, n ∈ reverse order ↔ reachable reuse_graph_float 5 n)
      ∧ ∀ pre node post, reverse order = pre ++ node :: post →
          ∃ hmid hnext,
            for_each pre backward_node
              (<[5 := set_derivative (Some float_one) t]> reuse_graph_float)
            = Ok (tt, hmid)
            ∧ present hmid node
            ∧ backward_node node hmid
              = for_each (out_edges reuse_graph_float node) (push node) hmid
            ∧ backward_node node hmid = Ok (tt, hnext)
            ∧ for_each post backward_node hnext = Ok (tt, h')
            ∧ hnext !! node = hmid !! node
            ∧ h' !! node = hmid !! node.
Proof.
  split; [apply reuse_graph_ok|]. split; [apply reuse_graph_acyclic|].
  split; [simpl; lia|]. split; [simpl; lia|].
  apply (backward_derivative_present reuse_graph_float 5 7).
  - apply reuse_graph_ok.
  - apply reuse_graph_acyclic.
  - simpl; lia.
  - simpl; lia.
Defined.

Lemma clear_then_backward_witness :
  graph_ok reuse_graph_float ∧ acyclic reuse_graph_float
  ∧ 5 < length reuse_graph_float
  ∧ length reuse_graph_float < 7
  ∧ fresh reuse_graph_float 5
  ∧ ∃ h1 h2 h3,
      backward 7 5 reuse_graph_float = Ok (tt, h1)
      ∧ clear_derivatives 7 5 h1 = Ok (tt, h2)
      ∧ backward 7 5 h2 = Ok (tt, h3)
      ∧ (∀ n t, reachable reuse_graph_float 5 n → h2 !! n = Some t →
           derivative t = None)
      ∧ clear_derivatives 7 5 reuse_graph_float = Ok (tt, h2)
      ∧ h2 = reuse_graph_float ∧ h3 = h1.
Proof.
  split; [apply reuse_graph_ok|]. split; [apply reuse_graph_acyclic|].
  split; [simpl; lia|]. split; [simpl; lia|].
  split; [apply reuse_graph_fresh|].
  destruct (clear_then_backward_reproduces reuse_graph_float 5 7)
    as (h1 & h2 & h3 & Hb1 & Hc & Hb2 & Habs & Hc0 & Hfresh).
  - apply reuse_graph_ok.
  - apply reuse_graph_acyclic.
  - simpl; lia.
  - simpl; lia.
  - exists h1, h2, h3.
    split; [exact Hb1|]. split; [exact Hc|]. split; [exact Hb2|].
    split; [exact Habs|]. split; [exact Hc0|].
    exact (Hfresh reuse_graph_fresh).
Defined.

Lemma product_rule_witness :
  let h := [leaf 3%float (Some "a"%string); leaf 4%float (Some "b"%string)] in
  0 ≠ 1 ∧ h !! 0 = Some (leaf 3%float (Some "a"%string))
  ∧ h !! 1 = Some (leaf 4%float (Some "b"%string))
  ∧ 2 ≤ 2
  ∧ ∃ y h1 h2 ty ta' tb',
      _mul 0 1 h = Ok (y, h1)
      ∧ backward 2 y h1 = Ok (tt, h2)
      ∧ h2 !! y = Some ty ∧ derivative ty = Some 1%float
      ∧ h2 !! 0 = Some ta' ∧ derivative ta' = Some 4%float
      ∧ h2 !! 1 = Some tb' ∧ derivative tb' = Some 3%float.
Proof.
  intros h. split; [lia|]. split; [reflexivity|]. split; [reflexivity|].
  split; [lia|].
  destruct (product_rule_backward h 0 1
              (leaf 3%float (Some "a"%string))
              (leaf 4%float (Some "b"%string)) 2
              ltac:(lia) eq_refl eq_refl eq_refl eq_refl eq_refl eq_refl
              ltac:(lia))
    as (y & h1 & h2 & ty & ta' & tb' & dy & Hmul & Hback & Hy & Hdy & ->
        & Ha & _ & Hb & _ & Hone).
  exists y, h1, h2, ty, ta', tb'.
  split; [exact Hmul|]. split; [exact Hback|]. split; [exact Hy|].
  split; [exact Hdy|]. split; [exact Ha|].
  split; [exact (proj1 (Hone eq_refl eq_refl))|].
  split; [exact Hb|]. exact (proj2 (Hone eq_refl eq_refl)).
Defined.

Lemma elementary_operations_witness :
  let h := [leaf 2%float None; leaf 3%float None] in
  h !! 0 = Some (leaf 2%float None) ∧ h !! 1 = Some (leaf 3%float None)
  ∧ (∃ r h' t d_a d_b tda tdb,
       _add 0 1 h = Ok (r, h') ∧ h' !! r = Some t
       ∧ value t = fadd 2%float 3%float
       ∧ args t = Some [0; 1] ∧ local_derivatives t = Some [d_a; d_b]
       ∧ h' !! d_a = Some tda ∧ h' !! d_b = Some tdb
       ∧ value tda = float_of_int 1 ∧ value tdb = float_of_int 1)
  ∧ (∃ r h' t d_a d_b tda tdb,
       _sub 0 1 h = Ok (r, h') ∧ h' !! r = Some t
       ∧ value t = fsub 2%float 3%float
       ∧ args t = Some [0; 1] ∧ local_derivatives t = Some [d_a; d_b]
       ∧ h' !! d_a = Some tda ∧ h' !! d_b = Some tdb
       ∧ value tda = float_of_int 1 ∧ value tdb = float_of_int (-1))
  ∧ (∃ r h' t d_a d_b tda tdb,
       _mul 0 1 h = Ok (r, h') ∧ h' !! r = Some t
       ∧ value t = fmul 2%float 3%float
       ∧ args t = Some [0; 1] ∧ local_derivatives t = Some [d_a; d_b]
       ∧ h' !! d_a = Some tda ∧ h' !! d_b = Some tdb
       ∧ value tda = 3%float ∧ value tdb = 2%float).
Proof.
  intros h. split; [reflexivity|]. split; [reflexivity|].
  exact (elementary_operations_build h 0 1
           (leaf 2%float None) (leaf 3%float None) eq_refl eq_refl).
Defined.

(** On binary64, [float(1)] and [float(-1)] are [1.0] and [-1.0]. *)
Example float_of_int_units :
  float_of_int (F := float) 1 = 1%float
  ∧ float_of_int (F := float) (-1) = (-1)%float.
Proof. by vm_compute. Qed.

Lemma local_derivative_nodes_witness :
  _add 0 1 [leaf 2%float None; leaf 3%float None]
  = Ok (2, [leaf 2%float None; leaf 3%float None;
            op_result 5%float 0 1 3 4;
            leaf 1%float None; leaf 1%float None])
  ∧ ∃ d_a d_b tda tdb,
      local_derivatives (op_result 5%float 0 1 3 4) = Some [d_a; d_b]
      ∧ 2 ≤ d_a ∧ 2 ≤ d_b ∧ d_a ≠ 0 ∧ d_a ≠ 1 ∧ d_b ≠ 0 ∧ d_b ≠ 1
      ∧ [leaf 2%float None; leaf 3%float None; op_result 5%float 0 1 3 4;
         leaf 1%float None; leaf 1%float None] !! d_a = Some tda
      ∧ [leaf 2%float None; leaf 3%float None; op_result 5%float 0 1 3 4;
         leaf 1%float None; leaf 1%float None] !! d_b = Some tdb
      ∧ args tda = None ∧ local_derivatives tda = None
      ∧ derivative tda = None
      ∧ args tdb = None ∧ local_derivatives tdb = None
      ∧ derivative tdb = None.
Proof.
  split; [reflexivity|].
  apply (proj1 (local_derivative_nodes (F := float))
           [leaf 2%float None; leaf 3%float None] 0 1 2
           [leaf 2%float None; leaf 3%float None; op_result 5%float 0 1 3 4;
            leaf 1%float None; leaf 1%float None]
           (op_result 5%float 0 1 3 4)); reflexivity.
Defined.

Lemma operations_frame_witness :
  ∃ h', backward 7 5 reuse_graph_float = Ok (tt, h')
    ∧ Forall2 same_fields reuse_graph_float h'
    ∧ ∀ n, ¬ reachable reuse_graph_float 5 n →
        h' !! n = reuse_graph_float !! n.
Proof.
  eexists. split; [vm_compute; reflexivity|].
  apply (proj1 (proj2 (proj2 (proj2 (operations_frame (F := float)))))
           7 5 reuse_graph_float tt).
  vm_compute; reflexivity.
Defined.

(** ** Where the derivative is not the partial derivative *)

Example rounding_program_float :
  rounding_program (F := float) [] = Ok ((0, 10), rounding_graph).
Proof. by vm_compute. Qed.

Example rounding_program_Z :
  rounding_program (F := Z) [] = Ok ((0, 10), rounding_graph).
Proof. by vm_compute. Qed.

Lemma rounding_graph_float_api_store : api_store rounding_graph_float.
Proof.
  apply (api_add (take 10 rounding_graph_float) 6 9 10); [|by vm_compute].
  apply (api_mul (take 9 rounding_graph_float) 0 1 9); [|by vm_compute].
  apply (api_add (take 6 rounding_graph_float) 4 5 6); [|by vm_compute].
  apply (api_mul (take 5 rounding_graph_float) 0 3 5); [|by vm_compute].
  apply (api_mul (take 4 rounding_graph_float) 0 2 4); [|by vm_compute].
  apply (api_leaf (take 3 rounding_graph_float)).
  apply (api_leaf (take 2 rounding_graph_float)).
  apply (api_leaf (take 1 rounding_graph_float)).
  apply (api_leaf []).
  apply api_empty.
Qed.

Lemma rounding_graph_Z_api_store : api_store rounding_graph_Z.
Proof.
  apply (api_add (take 10 rounding_graph_Z) 6 9 10); [|by vm_compute].
  apply (api_mul (take 9 rounding_graph_Z) 0 1 9); [|by vm_compute].
  apply (api_add (take 6 rounding_graph_Z) 4 5 6); [|by vm_compute].
  apply (api_mul (take 5 rounding_graph_Z) 0 3 5); [|by vm_compute].
  apply (api_mul (take 4 rounding_graph_Z) 0 2 4); [|by vm_compute].
  apply (api_leaf (take 3 rounding_graph_Z)).
  apply (api_leaf (take 2 rounding_graph_Z)).
  apply (api_leaf (take 1 rounding_graph_Z)).
  apply (api_leaf []).
  apply api_empty.
Qed.

(** C1 as the specification words it does not hold of the program.
    On binary64, on the graph of [rounding_program] with no derivative
    held anywhere, [backward] leaves [2^53] in [x]: the contributions
    reach [x] in the order [A], [C], [B], and [2^53 + 1.0] rounds to
    [2^53] twice.  Every value of the graph is an integer that binary64
    holds exactly, and the partial derivative of [y] with respect to [x]
    is [A + B + C = 2^53 + 2], the one value the rules of differentiation
    allow on the same graph in exact arithmetic, and a binary64 number
    other than [2^53].  And in exact arithmetic, on the graph of
    [test_reuse] with the derivatives an earlier [backward] left in it,
    [backward] leaves [31] in [x], where the partial derivative is
    [13]. *)
Lemma backward_not_always_partial :
  (graph_ok rounding_graph_float ∧ acyclic rounding_graph_float
   ∧ built_from_ops rounding_graph_float 10
   ∧ fresh rounding_graph_float 10
   ∧ reachable rounding_graph_float 10 0
   ∧ (∃ h', backward 14 10 rounding_graph_float = Ok (tt, h')
        ∧ derivative <$> h' !! 0 = Some (Some (float_of_int (2 ^ 53))))
   ∧ Forall2 (λ t tz, value t = float_of_int (value tz)
                       ∧ args t = args tz
                       ∧ local_derivatives t = local_derivatives tz)
       rounding_graph_float rounding_graph_Z
   ∧ partial rounding_graph_Z 0 10 (2 ^ 53 + 2)%Z
   ∧ (∀ d, partial rounding_graph_Z 0 10 d → d = (2 ^ 53 + 2)%Z)
   ∧ float_of_int (F := float) (2 ^ 53 + 2) ≠ float_of_int (2 ^ 53))
  ∧ (graph_ok reuse_graph_used ∧ acyclic reuse_graph_used
     ∧ built_from_ops reuse_graph_used 5
     ∧ reachable reuse_graph_used 5 0
     ∧ (∃ h', backward 7 5 reuse_graph_used = Ok (tt, h')
          ∧ derivative <$> h' !! 0 = Some (Some 31%Z))
     ∧ partial reuse_graph_used 0 5 13%Z
     ∧ (∀ d, partial reuse_graph_used 0 5 d → d = 13%Z)).
Proof.
  split.
  - destruct (api_store_graph rounding_graph_float 10
                rounding_graph_float_api_store) as (Hok & Hacyc & Hops);
      [simpl; lia|].
    do 3 (split; [done|]).
    split; [by apply no_derivatives_fresh|].
    split.
    { apply rtc_l with 9.
      - eexists _, [6; 9]. split; [reflexivity|]. split; [reflexivity|].
        set_solver.
      - apply rtc_once. eexists _, [0; 1].
        split; [reflexivity|]. split; [reflexivity|]. set_solver. }
    split; [eexists; split; by vm_compute|].
    split; [repeat constructor; by vm_compute|].
    destruct (api_store_graph rounding_graph_Z 10
                rounding_graph_Z_api_store) as (HokZ & HacycZ & HopsZ);
      [simpl; lia|].
    destruct (tangent_partial rounding_graph_Z 10 14 0 HokZ HacycZ HopsZ)
      as [Hpartial Hunique]; [simpl; lia..|].
    assert (HT : tangent 14 rounding_graph_Z 0 10 = (2 ^ 53 + 2)%Z)
      by (by vm_compute).
    rewrite HT in Hpartial, Hunique. do 2 (split; [done|]).
    intros Heq. apply (f_equal Prim2SF) in Heq. vm_compute in Heq.
    discriminate Heq.
  - assert (Hapi : api_store reuse_graph_used).
    { apply (api_backward reuse_graph_Z 7 5 tt);
        [apply reuse_graph_api_store|by vm_compute]. }
    destruct (api_store_graph reuse_graph_used 5 Hapi)
      as (Hok & Hacyc & Hops); [simpl; lia|].
    do 3 (split; [done|]).
    split.
    { apply rtc_once. eexists _, [2; 0].
      split; [reflexivity|]. split; [reflexivity|]. set_solver. }
    split; [eexists; split; by vm_compute|].
    destruct (tangent_partial reuse_graph_used 5 7 0 Hok Hacyc Hops)
      as [Hpartial Hunique]; [simpl; lia..|].
    assert (HT : tangent 7 reuse_graph_used 0 5 = 13%Z) by (by vm_compute).
    by rewrite HT in Hpartial, Hunique.
Qed.

(** ** An operand whose type implements the operator *)

(** C8 as the specification words it does not hold of the program:
    with an operand that is neither a [Tensor] nor a number but whose
    type has its own method for the operator (an object of
    [unittest.mock.MagicMock], a class that defines [__radd__]), the
    method of the [Tensor] answers [NotImplemented], the interpreter
    calls the operand's method, and the expression evaluates to what
    that returns.  Nothing is raised. *)
Lemma other_operand_type_answers :
  let h := [leaf 3%float (Some "x"%string)] in
  let other := Some (ret (F := float) (Returned VObject)) in
  supported (F := float) OOther = false
  ∧ returns_not_implemented (__add__ 0 OOther h) = true
  ∧ binary_op __add__ 0 OOther other h = Ok (VObject, h)
  ∧ raises_type_error (binary_op __add__ 0 OOther other h) = false
  ∧ reflected_binary_op __radd__ OOther other 0 h = Ok (VObject, h)
  ∧ raises_type_error (reflected_binary_op __radd__ OOther other 0 h) = false
  ∧ raises_type_error (binary_op __sub__ 0 OOther other h) = false
  ∧ raises_type_error (reflected_binary_op __rsub__ OOther other 0 h) = false
  ∧ raises_type_error (binary_op __mul__ 0 OOther other h) = false
  ∧ raises_type_error (reflected_binary_op __rmul__ OOther other 0 h) = false.
Proof. intros h other. repeat split. Qed.

Lemma unsupported_operand_witness :
  let h := [leaf 3%float (Some "x"%string)] in
  declines (F := float) None h
  ∧ declines (Some (ret Declined)) h
  ∧ raises_type_error (binary_op __add__ 0 OOther None h) = true
  ∧ raises_type_error
      (reflected_binary_op __rsub__ OOther (Some (ret Declined)) 0 h) = true
  ∧ raises_type_error (binary_op __mul__ 0 (OInt 2) None h) = false
  ∧ raises_type_error
      (reflected_binary_op __rmul__ (OFloat 2%float) (Some (ret Declined)) 0 h)
    = false
  ∧ binary_op __add__ 0 OOther (Some (ret (Returned VObject))) h
    = Ok (VObject, h).
Proof.
  intros h.
  assert (Hnone : declines (F := float) None h) by exact I.
  assert (Hdecl : declines (Some (ret Declined)) h) by reflexivity.
  split; [exact Hnone|]. split; [exact Hdecl|].
  destruct (unsupported_operand_signalled 0 OOther h)
    as (_ & Hother & _ & Hans).
  destruct (unsupported_operand_signalled 0 (OInt 2) h) as (_ & Hint & _).
  destruct (unsupported_operand_signalled 0 (OFloat 2%float) h)
    as (_ & Hfloat & _).
  split; [exact (proj1 (Hother None Hnone))|].
  split; [exact (proj1 (proj2 (proj2 (proj2 (Hother _ Hdecl)))))|].
  split; [exact (proj1 (proj2 (proj2 (proj2 (proj2 (Hint None Hnone))))))|].
  split; [exact (proj2 (proj2 (proj2 (proj2 (proj2 (Hfloat _ Hdecl))))))|].
  exact (proj1 (Hans (ret (Returned VObject)) VObject h eq_refl eq_refl)).
Defined.

(** * Further properties *)

(** ** The traversal and the backward pass on any graph *)

Section AnyGraph.
Context {F : Type} {SF : Scalar F}.
Implicit Types (h : heap F) (t : Tensor F) (n a b m root self : loc).

Lemma users_after_snoc h (new : list loc) (xs : list loc) self :
  users_after (λ m, m ∈ xs) h new → (∀ a, a ∈ xs → edge h self a) →
  users_after (λ m, m = self) h (new ++ [self]).
Proof.
  intros Hnew Hxs i m Hi.
  destruct (decide (i < length new)) as [Hlt|Hge].
  - rewrite lookup_app_l in Hi by done. right.
    destruct (Hnew i m Hi) as [Hm|(j & c & Hj & Hc & Hcm)].
    + exists (length new), self. split; [done|].
      split; [by apply list_lookup_middle|by apply Hxs].
    + exists j, c. split; [done|]. split; [|done].
      apply lookup_app_l_Some. done.
  - left. apply lookup_lt_Some in Hi as Hlen.
    rewrite length_app in Hlen. simpl in Hlen.
    assert (i = length new) as -> by lia.
    rewrite list_lookup_middle in Hi by done. by injection Hi.
Qed.

Lemma users_after_app (P : loc → Prop) h (new1 new2 : list loc) :
  users_after P h new1 → users_after P h new2 →
  users_after P h (new1 ++ new2).
Proof.
  intros H1 H2 i m Hi.
  destruct (decide (i < length new1)) as [Hlt|Hge].
  - rewrite lookup_app_l in Hi by done.
    destruct (H1 i m Hi) as [Hm|(j & c & Hj & Hc & Hcm)]; [by left|].
    right. exists j, c. split; [done|]. split; [|done].
    by apply lookup_app_l_Some.
  - rewrite lookup_app_r in Hi by lia.
    destruct (H2 _ m Hi) as [Hm|(j & c & Hj & Hc & Hcm)]; [by left|].
    right. exists (length new1 + j), c. split; [lia|]. split; [|done].
    rewrite lookup_app_r by lia. by rewrite Nat.add_comm, Nat.add_sub.
Qed.

Lemma users_after_weaken (P Q : loc → Prop) h (new : list loc) :
  (∀ m, P m → Q m) → users_after P h new → users_after Q h new.
Proof.
  intros HPQ Hnew i m Hi.
  destruct (Hnew i m Hi) as [Hm|Hu]; [left; auto|by right].
Qed.

Lemma fold_build_topo_any fuel h :
  topo_any_at fuel h →
  ∀ xs gray order visited order' visited',
    fold_result (build_topo fuel h) xs (order, visited)
      = Ok (order', visited') →
    dfs_inv_any h gray order visited →
    dfs_inv_any h gray order' visited'
    ∧ (∀ a, a ∈ xs → a ∈ visited')
    ∧ ∃ new, order' = order ++ new ∧ users_after (λ m, m ∈ xs) h new.
Proof.
  intros IH xs.
  induction xs as [|a xs IHxs]; intros gray order visited order' visited'.
  - simpl. intros [= <- <-] Hinv. split; [done|]. split; [set_solver|].
    exists []. rewrite app_nil_r. split; [done|]. by intros i m Hi.
  - simpl. intros Hrun Hinv.
    destruct (build_topo fuel h a (order, visited))
      as [[order1 visited1]|] eqn:Hstep; [|done].
    destruct (IH a gray order visited order1 visited1 Hstep Hinv)
      as (Hinv1 & Ha1 & (new1 & -> & Hnew1) & _).
    destruct (IHxs gray _ _ _ _ Hrun Hinv1)
      as (Hinv2 & Hxs2 & (new2 & -> & Hnew2)).
    split; [done|]. split.
    + intros c [->|Hc]%elem_of_cons; [|by apply Hxs2].
      destruct Hinv1 as (_ & Hv1 & _), Hinv2 as (_ & Hv2 & _).
      apply Hv2. apply Hv1 in Ha1 as [Ha1|Ha1]; [left|by right].
      apply elem_of_app. by left.
    + exists (new1 ++ new2). split; [by rewrite app_assoc|].
      apply users_after_app.
      * eapply users_after_weaken; [|done]. intros m ->. left.
      * eapply users_after_weaken; [|done]. intros m Hm. by right.
Qed.

Lemma build_topo_any h : ∀ fuel, topo_any_at fuel h.
Proof.
  intros fuel. induction fuel as [|fuel IH]; [done|].
  intros self gray order visited order' visited' Hrun Hinv.
  simpl in Hrun. case_decide as Hvis.
  { simplify_eq. split; [done|]. split; [done|]. split; [|done].
    exists []. rewrite app_nil_r. split; [done|]. by intros i m Hi. }
  destruct (h !! self) as [t|] eqn:Hself; [|done].
  destruct Hinv as (Hnd & Hv & Hog & Hcl).
  assert (Hself_order : self ∉ order) by (intros Hin; apply Hvis, Hv; by left).
  assert (Hself_gray : self ∉ gray) by (intros Hin; apply Hvis, Hv; by right).
  assert (Hinv1 : dfs_inv_any h (self :: gray) order ({[self]} ∪ visited)).
  { split; [done|]. split; [|split].
    - intros x. rewrite elem_of_union, elem_of_singleton, elem_of_cons, Hv.
      tauto.
    - intros x Hx [->|Hxg]%elem_of_cons; [done|]. by eapply Hog.
    - intros n a Hn Hna. apply elem_of_union. right. by eapply Hcl. }
  assert (∃ vk new,
    order' = (order ++ new) ++ [self] ∧ visited' = vk
    ∧ dfs_inv_any h (self :: gray) (order ++ new) vk
    ∧ (∀ a, edge h self a → a ∈ vk)
    ∧ users_after (λ m, m = self) h (new ++ [self]))
    as (vk & new & -> & -> & Hinvk & Hargs & Hnew).
  { destruct (args t) as [xs|] eqn:Hxs.
    - destruct (fold_result (build_topo fuel h) xs (order, {[self]} ∪ visited))
        as [[ok vk]|] eqn:Hfold; [|done].
      simplify_eq.
      destruct (fold_build_topo_any fuel h IH xs (self :: gray) _ _ _ _
                  Hfold Hinv1) as (Hinvk & Hxsk & (new & -> & Hnew)).
      exists visited', new. split; [done|]. split; [done|]. split; [done|].
      split.
      + intros a (t' & xs' & Ht' & Hxs' & Ha). simplify_eq. by apply Hxsk.
      + eapply users_after_snoc; [done|]. intros a Ha. by exists t, xs.
    - simplify_eq. exists ({[self]} ∪ visited), [].
      rewrite app_nil_r. split; [done|]. split; [done|]. split; [done|].
      split.
      + intros a (t' & xs' & Ht' & Hxs' & Ha). congruence.
      + intros i m Hi. left. destruct i; simpl in Hi; by simplify_eq. }
  destruct Hinvk as (Hndk & Hvk & Hogk & Hclk).
  assert (Hself_ok : self ∉ order ++ new).
  { intros Hin. apply (Hogk _ Hin). left. }
  split; [|split; [|split]].
  - split; [|split; [|split]].
    + apply NoDup_app. split; [done|]. split; [|apply NoDup_singleton].
      intros x Hx ->%list_elem_of_singleton. done.
    + intros x. rewrite Hvk, !elem_of_app, elem_of_cons, list_elem_of_singleton.
      tauto.
    + intros x [Hx| ->%list_elem_of_singleton]%elem_of_app; [|done].
      intros Hxg. apply (Hogk _ Hx). by right.
    + intros n a [Hn| ->%list_elem_of_singleton]%elem_of_app Hna;
        [by eapply Hclk|by apply Hargs].
  - apply Hvk. right. left.
  - exists (new ++ [self]). split; [by rewrite app_assoc|done].
  - intros _. by eexists.
Qed.

(** The traversal from the empty state, on any well-formed store. *)
Lemma build_topo_root_any h root fuel :
  graph_ok h → root < length h → length h < fuel →
  ∃ order visited,
    build_topo fuel h root ([], ∅) = Ok (order, visited)
    ∧ NoDup order
    ∧ (∀ n, n ∈ order ↔ reachable h root n)
    ∧ (∀ n, n ∈ visited ↔ n ∈ order)
    ∧ users_after (λ m, m = root) h order
    ∧ last order = Some root.
Proof.
  intros Hok Hroot Hfuel.
  destruct (build_topo_total h Hok fuel root [] ∅ Hroot)
    as (order & visited & Hrun & _); [by rewrite unvisited_empty|].
  exists order, visited. split; [done|].
  destruct (build_topo_any h fuel root [] [] ∅ order visited Hrun)
    as ((Hnd & Hv & _ & Hcl) & Hin & (new & Hnew & Husers) & Hlast).
  { split; [constructor|]. split; [set_solver|]. split; [set_solver|].
    intros n a Hn. by apply elem_of_nil in Hn. }
  simpl in Hnew. subst new.
  destruct (build_topo_reach h fuel _ _ _ _ _ Hrun) as (new & Hnew & Hreach).
  simpl in Hnew. subst new.
  assert (Hvo : ∀ n, n ∈ visited ↔ n ∈ order).
  { intros n. rewrite Hv. split; [|by left].
    intros [?|Hg]; [done|]. by apply elem_of_nil in Hg. }
  split; [done|]. split; [|split; [done|split; [done|]]].
  - intros n. split; [apply Hreach|].
    assert (Hup : ∀ x y, rtc (edge h) x y → x ∈ order → y ∈ order).
    { induction 1 as [|x y z Hxy _ IH]; [done|].
      intros Hx. apply IH. apply Hvo. by eapply Hcl. }
    intros Hr. apply (Hup root n Hr). by apply Hvo.
  - destruct Hlast as [mid ->]; [set_solver|]. apply last_snoc.
Qed.

Lemma users_first_reverse_any h root (order : list loc) :
  users_after (λ m, m = root) h order → users_first h root (reverse order).
Proof.
  intros Husers pre m post Hsplit.
  apply reverse_split in Hsplit. subst order.
  destruct (Husers (length (reverse post)) m) as [->|(j & c & Hj & Hc & Hcm)].
  { by apply list_lookup_middle. }
  { by left. }
  right. exists c. split; [|done].
  rewrite lookup_app_r in Hc by lia.
  destruct (j - length (reverse post)) as [|k] eqn:Hk; [lia|]. simpl in Hc.
  apply elem_of_reverse, list_elem_of_lookup. eauto.
Qed.

(** [backward] on any well-formed store. *)
Lemma backward_total_any h root fuel :
  graph_ok h → root < length h → length h < fuel →
  ∃ h', backward fuel root h = Ok (tt, h')
    ∧ ∀ n, reachable h root n → present h' n.
Proof.
  intros Hok Hroot Hfuel.
  destruct (build_topo_root_any h root fuel Hok Hroot Hfuel)
    as (order & visited & Htopo & Hnd & Hreach & _ & Husers & _).
  destruct (lookup_lt_is_Some_2 h root Hroot) as [t Ht].
  pose proof (insert_derivative_only h root t (Some float_one) Ht) as Hseed.
  destruct (backward_loop_runs h root (reverse order) []
              (<[root := set_derivative (Some float_one) t]> h))
    as (h' & Hrun & Honly & Hkeep & Hnew).
  { done. }
  { by apply users_first_reverse_any. }
  { apply Forall_forall. intros m Hm. rewrite elem_of_reverse in Hm.
    apply Hreach in Hm. by eapply reachable_valid. }
  { apply Hseed. }
  { by apply present_insert_eq. }
  { intros c a Hc. by apply elem_of_nil in Hc. }
  exists h'. rewrite (backward_run h root fuel t order visited Ht Htopo).
  split; [done|].
  intros n Hn. apply rtc_inv_r in Hn as [->|(c & Hc & Hcn)].
  - apply Hkeep. by apply present_insert_eq.
  - apply Hnew with c; [|done]. by apply elem_of_reverse, Hreach.
Qed.

End AnyGraph.

(** ** The adjoint equation, in the program's own arithmetic *)

Section Adjoint.
Context {F : Type} {SF : Scalar F}.
Implicit Types (h : heap F) (t : Tensor F) (n a b m root self : loc).

Lemma acc_all_app (o : option F) cs1 cs2 :
  acc_all o (cs1 ++ cs2) = acc_all (acc_all o cs1) cs2.
Proof. apply foldl_app. Qed.

Lemma contribution_same h h' d l :
  same_graph h h' →
  (λ t, fmul d (value t)) <$> h' !! l = (λ t, fmul d (value t)) <$> h !! l.
Proof.
  intros Hs. destruct (h !! l) as [tl|] eqn:Hl.
  - destruct (same_graph_lookup _ _ _ _ Hs Hl) as (tl' & Hl' & Hv & _).
    rewrite Hl'. simpl. by rewrite Hv.
  - destruct (h' !! l) as [tl'|] eqn:Hl'; [|done].
    destruct (same_graph_lookup_r _ _ _ _ Hs Hl') as (tl & ? & _). congruence.
Qed.

Lemma contributions_same h h' d (edges : list (loc * loc)) m :
  same_graph h h' → contributions h' d edges m = contributions h d edges m.
Proof.
  intros Hs. unfold contributions. induction edges as [|e edges IH]; [done|].
  cbn [omap list_omap]. rewrite IH.
  case_decide; [|done]. by rewrite (contribution_same h h' d (e.2)).
Qed.

(** The inner loop, read off at every object: the derivative it held,
    with the node's contributions to it accumulated in order. *)
Lemma push_loop_derivative n d : ∀ (edges : list (loc * loc)) h u h' tn,
  for_each edges (push n) h = Ok (u, h') →
  h !! n = Some tn → derivative tn = Some d → n ∉ edges.*1 →
  ∀ m t, h !! m = Some t →
    ∃ t', h' !! m = Some t'
      ∧ derivative t' = acc_all (derivative t) (contributions h d edges m).
Proof.
  induction edges as [|[a l] edges IH]; intros h u h' tn Hrun Hn Hd Hnot m t Hm.
  - injection Hrun as <- <-. by exists t.
  - cbn [for_each] in Hrun. unfold bind at 1 in Hrun.
    destruct (push n (a, l) h) as [[u1 h1]|] eqn:Hpush; [|done].
    apply push_inv in Hpush as (tn0 & tl & ta & d0 & Htn & Htl & Hta & Hd0 & ->).
    assert (tn0 = tn) as -> by congruence.
    assert (d0 = d) as -> by congruence.
    rewrite fmap_cons in Hnot. apply not_elem_of_cons in Hnot as [Hna Hnot].
    simpl in Hna.
    set (ta1 := set_derivative
                  (Some (accumulated (derivative ta) (fmul d (value tl)))) ta)
      in *.
    pose proof (insert_derivative_only h a ta
                  (Some (accumulated (derivative ta) (fmul d (value tl))))
                  Hta) as [Hs _].
    fold ta1 in Hs.
    assert (Hn1 : <[a := ta1]> h !! n = Some tn)
      by (by rewrite list_lookup_insert_ne).
    unfold contributions. cbn [omap list_omap fst snd]. rewrite Htl.
    fold (contributions h d edges m).
    destruct (decide (a = m)) as [->|Hne].
    + assert (t = ta) as -> by congruence.
      destruct (IH _ _ _ _ Hrun Hn1 Hd Hnot m ta1) as (t' & Ht' & Hdt').
      { apply list_lookup_insert_eq. by eapply lookup_lt_Some. }
      exists t'. split; [done|]. rewrite Hdt'.
      by rewrite (contributions_same h (<[m := ta1]> h)).
    + destruct (IH _ _ _ _ Hrun Hn1 Hd Hnot m t) as (t' & Ht' & Hdt').
      { by rewrite list_lookup_insert_ne. }
      exists t'. split; [done|]. rewrite Hdt'.
      by rewrite (contributions_same h (<[a := ta1]> h)).
Qed.

Lemma pushed_same_derivative h hd hd' c m :
  derivative <$> hd' !! c = derivative <$> hd !! c →
  pushed h hd' c m = pushed h hd c m.
Proof.
  intros Heq. unfold pushed.
  destruct (hd !! c) as [tc|], (hd' !! c) as [tc'|]; simpl in Heq;
    try done.
  by injection Heq as ->.
Qed.

Lemma incoming_same_derivative h hd hd' (rs : list loc) m :
  (∀ c, c ∈ rs → derivative <$> hd' !! c = derivative <$> hd !! c) →
  incoming h hd' rs m = incoming h hd rs m.
Proof.
  intros Heq. unfold incoming. induction rs as [|c rs IH]; [done|].
  simpl. rewrite (pushed_same_derivative h hd hd' c m) by (apply Heq; left).
  rewrite IH; [done|]. intros c' Hc'. apply Heq. by right.
Qed.

Lemma incoming_snoc h hd (pre : list loc) n m :
  incoming h hd (pre ++ [n]) m = incoming h hd pre m ++ pushed h hd n m.
Proof.
  unfold incoming. rewrite flat_map_app. simpl. by rewrite app_nil_r.
Qed.

(** One iteration of the outer loop, read off at every object. *)
Lemma backward_node_derivative h0 h n u h' :
  graph_ok h0 → same_graph h0 h → n < length h0 → ¬ edge h0 n n →
  backward_node n h = Ok (u, h') →
  ∀ m t, h !! m = Some t →
    ∃ t', h' !! m = Some t'
      ∧ derivative t' = acc_all (derivative t) (pushed h0 h n m).
Proof.
  intros Hok Hs Hn Hloop Hrun m t Hm.
  rewrite backward_node_edges in Hrun;
    [|by eapply same_graph_ok|by rewrite (same_graph_length _ _ Hs)].
  rewrite (out_edges_same h0 h) in Hrun by done.
  destruct (lookup_lt_is_Some_2 h n) as [tn Htn];
    [by rewrite (same_graph_length _ _ Hs)|].
  unfold pushed. rewrite Htn.
  destruct (derivative tn) as [d|] eqn:Hd.
  - destruct (push_loop_derivative n d _ _ _ _ tn Hrun Htn Hd) with (m := m)
      (t := t) as (t' & Ht' & Hdt'); [|done|].
    { intros (e & -> & He)%list_elem_of_fmap. apply Hloop.
      by apply out_edges_edge. }
    exists t'. split; [done|]. rewrite Hdt'.
    by rewrite (contributions_same h0 h).
  - destruct (out_edges h0 n) as [|[a l] edges] eqn:Hedges.
    + injection Hrun as <- <-. by exists t.
    + cbn [for_each] in Hrun. unfold bind at 1 in Hrun.
      destruct (push n (a, l) h) as [[u1 h1]|] eqn:Hpush; [|done].
      apply push_inv in Hpush as (tn0 & _ & _ & d0 & Htn0 & _ & _ & Hd0 & _).
      congruence.
Qed.

(** The outer loop: after the nodes of [pre] have been processed, every
    object holds what it held at the start with the contributions of
    [pre] accumulated. *)
Lemma backward_loop_derivative h0 hstart (rs : list loc) :
  graph_ok h0 → same_graph h0 hstart → NoDup rs → args_later h0 rs →
  Forall (λ n, n < length h0) rs →
  ∀ rest pre h u h',
    rs = pre ++ rest → same_graph h0 h →
    (∀ m t, hstart !! m = Some t →
       ∃ t', h !! m = Some t'
         ∧ derivative t' = acc_all (derivative t) (incoming h0 h pre m)) →
    for_each rest backward_node h = Ok (u, h') →
    ∀ m t, hstart !! m = Some t →
      ∃ t', h' !! m = Some t'
        ∧ derivative t' = acc_all (derivative t) (incoming h0 h' rs m).
Proof.
  intros Hok Hs0 Hnd Hlater Hval.
  induction rest as [|n rest IH]; intros pre h u h' Hrs Hs Hinv Hrun m t Hm.
  - injection Hrun as <- <-. rewrite app_nil_r in Hrs. subst pre.
    by apply Hinv.
  - cbn [for_each] in Hrun. unfold bind at 1 in Hrun.
    destruct (backward_node n h) as [[u1 h1]|] eqn:Hnode; [|done].
    assert (Hn_rs : n ∈ rs) by (subst rs; apply elem_of_app; right; left).
    assert (Hn_lt : n < length h0)
      by (by apply (proj1 (Forall_forall _ _) Hval)).
    assert (Hsplit : NoDup pre ∧ (n ∉ pre) ∧ (n ∉ rest)).
    { subst rs. apply NoDup_app in Hnd as (Hp & Hdisj & [Hr _]%NoDup_cons).
      split; [done|]. split; [|done]. intros Hin. apply (Hdisj n Hin). left. }
    destruct Hsplit as (_ & Hn_pre & Hn_rest).
    assert (Hloop : ¬ edge h0 n n).
    { intros He. apply Hn_rest. by eapply Hlater. }
    pose proof (backward_node_only _ _ _ _ Hnode) as [Hs1 Hframe].
    assert (Hkeep : ∀ c, c ∈ pre ++ [n] →
              derivative <$> h1 !! c = derivative <$> h !! c).
    { intros c Hc. rewrite Hframe; [done|].
      intros He. apply (same_graph_edge h0 h) in He; [|done].
      assert (c ∈ rest) as Hcr by (by eapply Hlater).
      subst rs. rewrite cons_middle, app_assoc in Hnd.
      apply NoDup_app in Hnd as (_ & Hdisj & _). by apply (Hdisj c). }
    apply (IH (pre ++ [n]) h1 u h'); [by rewrite <- app_assoc| |
                                       |done|done].
    { by eapply same_graph_trans. }
    intros m' t' Hm'. destruct (Hinv m' t' Hm') as (tm & Htm & Hdm).
    destruct (backward_node_derivative h0 h n u1 h1 Hok Hs Hn_lt Hloop Hnode
                m' tm Htm) as (tm1 & Htm1 & Hdm1).
    exists tm1. split; [done|]. rewrite Hdm1, Hdm.
    rewrite incoming_snoc, acc_all_app.
    rewrite (incoming_same_derivative h0 h h1 pre m')
      by (intros c Hc; apply Hkeep, elem_of_app; by left).
    rewrite (pushed_same_derivative h0 h h1 n m'); [done|].
    apply Hkeep, elem_of_app. right. left.
Qed.

(** [backward] on a well-formed acyclic graph, read off at every
    object. *)
Lemma backward_adjoint h root fuel :
  graph_ok h → acyclic h → root < length h → length h < fuel →
  ∃ order visited h',
    build_topo fuel h root ([], ∅) = Ok (order, visited)
    ∧ backward fuel root h = Ok (tt, h')
    ∧ ∀ m t, h !! m = Some t →
        ∃ t', h' !! m = Some t'
          ∧ derivative t'
            = acc_all (if decide (m = root) then Some float_one
                       else derivative t)
                (incoming h h' (reverse order) m).
Proof.
  intros Hok Hacyc Hroot Hfuel.
  destruct (backward_total h root fuel Hok Hacyc Hroot Hfuel)
    as (order & visited & troot & h' & Htopo & Hnd & Hreach & Hts & Hlast
        & Htroot & Hrun & Hloop & Honly & Hpres).
  exists order, visited, h'. split; [done|]. split; [done|].
  pose proof (insert_derivative_only h root troot (Some float_one) Htroot)
    as [Hseed Hseed_frame].
  set (h1 := <[root := set_derivative (Some float_one) troot]> h) in *.
  intros m t Hm.
  assert (∃ t1, h1 !! m = Some t1
            ∧ derivative t1 = (if decide (m = root) then Some float_one
                               else derivative t)) as (t1 & Hm1 & Hd1).
  { case_decide as Hmr.
    - subst m. exists (set_derivative (Some float_one) troot).
      split; [|done]. unfold h1. apply list_lookup_insert_eq.
      by eapply lookup_lt_Some.
    - exists t. split; [|done]. unfold h1. by rewrite list_lookup_insert_ne. }
  rewrite <- Hd1.
  apply (backward_loop_derivative h h1 (reverse order) Hok Hseed)
    with (rest := reverse order) (pre := []) (h := h1) (u := tt);
    try done.
  - by apply NoDup_reverse_2.
  - by apply args_later_reverse.
  - apply Forall_forall. intros n Hn. rewrite elem_of_reverse in Hn.
    apply Hreach in Hn. by eapply reachable_valid.
  - intros m' t' Hm'. by exists t'.
Qed.

End Adjoint.

(** ** Clearing on any graph *)

Section ClearingAny.
Context {F : Type} {SF : Scalar F}.
Implicit Types (h : heap F) (t : Tensor F) (n a b m root self : loc).

Lemma same_graph_sym h h' : same_graph h h' → same_graph h' h.
Proof.
  intros Hs. apply Forall2_flip. eapply Forall2_impl; [exact Hs|].
  intros t t' (Hv & Ha & Hl & Hn). by repeat split.
Qed.

Lemma clear_derivatives_total_any h root fuel :
  graph_ok h → root < length h → length h < fuel →
  ∃ order visited hc,
    build_topo fuel h root ([], ∅) = Ok (order, visited)
    ∧ (∀ n, n ∈ order ↔ reachable h root n)
    ∧ clear_derivatives fuel root h = Ok (tt, hc)
    ∧ ∀ i, hc !! i = if decide (i ∈ order)
                     then set_derivative None <$> h !! i
                     else h !! i.
Proof.
  intros Hok Hroot Hfuel.
  destruct (build_topo_root_any h root fuel Hok Hroot Hfuel)
    as (order & visited & Htopo & Hnd & Hreach & _).
  destruct (clear_loop_run order h) as (hc & Hrun & Hhc).
  { apply Forall_forall. intros n Hn%Hreach. by eapply reachable_valid. }
  exists order, visited, hc.
  by rewrite (clear_derivatives_run h root fuel order visited Htopo).
Qed.

(** Clearing forgets every derivative the reachable nodes held. *)
Lemma clear_forgets h h2 root fuel hc :
  graph_ok h → root < length h → length h < fuel →
  only_derivatives (reachable h root) h h2 →
  clear_derivatives fuel root h = Ok (tt, hc) →
  clear_derivatives fuel root h2 = Ok (tt, hc).
Proof.
  intros Hok Hroot Hfuel [Hs Hframe] Hclear.
  destruct (clear_derivatives_total_any h root fuel Hok Hroot Hfuel)
    as (order & visited & hc' & Htopo & Hreach & Hclear' & Hhc).
  assert (hc' = hc) as -> by congruence.
  destruct (clear_derivatives_total_any h2 root fuel)
    as (order2 & visited2 & hc2 & Htopo2 & _ & Hclear2 & Hhc2).
  { by eapply same_graph_ok. }
  { by rewrite (same_graph_length _ _ Hs). }
  { by rewrite (same_graph_length _ _ Hs). }
  rewrite (same_graph_build_topo h h2 fuel Hs) in Htopo2.
  assert (order2 = order) as -> by congruence.
  rewrite Hclear2. do 2 f_equal. apply list_eq. intros i.
  rewrite Hhc, Hhc2. case_decide as Hi.
  - destruct (h !! i) as [t|] eqn:Hti.
    + destruct (same_graph_lookup _ _ _ _ Hs Hti) as (t' & -> & Hsf).
      simpl. f_equal. by apply set_derivative_same.
    + destruct (h2 !! i) as [t'|] eqn:Hti'; [|done].
      destruct (same_graph_lookup_r _ _ _ _ Hs Hti') as (t & ? & _).
      congruence.
  - apply Hframe. by rewrite <- Hreach.
Qed.

End ClearingAny.

(** ** The root and the nodes nobody uses *)

Section RootAndLeaves.
Context {F : Type} {SF : Scalar F}.
Implicit Types (h : heap F) (t : Tensor F) (n a b m root self : loc).

Lemma contributions_none h d (edges : list (loc * loc)) m :
  m ∉ edges.*1 → contributions h d edges m = [].
Proof.
  unfold contributions. induction edges as [|e edges IH]; intros Hm; [done|].
  rewrite fmap_cons in Hm. apply not_elem_of_cons in Hm as [Hne Hm].
  cbn [omap list_omap]. rewrite decide_False by done. by apply IH.
Qed.

Lemma pushed_none h hd c m : ¬ edge h c m → pushed h hd c m = [].
Proof.
  intros Hedge. unfold pushed.
  destruct (hd !! c) as [tc|]; [|done].
  destruct (derivative tc) as [d|]; [|done].
  apply contributions_none.
  intros (e & -> & He)%list_elem_of_fmap. apply Hedge.
  by apply out_edges_edge.
Qed.

Lemma incoming_none h hd (rs : list loc) m :
  (∀ c, c ∈ rs → ¬ edge h c m) → incoming h hd rs m = [].
Proof.
  intros Hno. unfold incoming. induction rs as [|c rs IH]; [done|].
  simpl. rewrite pushed_none by (apply Hno; left).
  apply IH. intros c' Hc'. apply Hno. by right.
Qed.

(** On an acyclic graph the root ends with [1.0]. *)
Lemma backward_root_one h root fuel :
  graph_ok h → acyclic h → root < length h → length h < fuel →
  ∃ h' t', backward fuel root h = Ok (tt, h')
    ∧ h' !! root = Some t' ∧ derivative t' = Some float_one.
Proof.
  intros Hok Hacyc Hroot Hfuel.
  destruct (backward_adjoint h root fuel Hok Hacyc Hroot Hfuel)
    as (order & visited & h' & Htopo & Hrun & Hadj).
  destruct (build_topo_root h root fuel Hok Hacyc Hroot Hfuel)
    as (order' & visited' & Htopo' & _ & Hreach & _).
  assert (order' = order) as -> by congruence.
  destruct (lookup_lt_is_Some_2 h root Hroot) as [t Ht].
  destruct (Hadj root t Ht) as (t' & Ht' & Hd).
  exists h', t'. split; [done|]. split; [done|].
  rewrite Hd, decide_True by done.
  rewrite incoming_none; [done|].
  intros c Hc Hedge. rewrite elem_of_reverse in Hc. apply Hreach in Hc.
  apply (Hacyc root). eapply tc_rtc_l; [exact Hc|]. by apply tc_once.
Qed.

(** [backward] on a node without [args] sets its derivative and nothing
    else. *)
Lemma backward_leaf_run h root t fuel :
  h !! root = Some t → args t = None → 1 ≤ fuel →
  backward fuel root h
  = Ok (tt, <[root := set_derivative (Some float_one) t]> h).
Proof.
  intros Ht Hargs Hfuel.
  assert (Htopo : build_topo fuel h root ([], ∅) = Ok ([root], {[root]} ∪ ∅)).
  { destruct fuel as [|f]; [lia|]. cbn [build_topo].
    rewrite decide_False by set_solver. by rewrite Ht, Hargs. }
  rewrite (backward_run h root fuel t _ _ Ht Htopo).
  change (reverse [root]) with [root]. cbn [for_each].
  unfold bind at 1, backward_node at 1, bind at 1, deref at 1.
  rewrite list_lookup_insert_eq by (by eapply lookup_lt_Some).
  cbn [args set_derivative]. by rewrite Hargs.
Qed.

End RootAndLeaves.

(** ** One operation on a shared operand *)

Section SharedOperand.
Context {F : Type} {SF : Scalar F}.
Implicit Types (h : heap F) (t : Tensor F) (n a b m root self x y : loc).

(** [backward] on a node [y] whose two [args] are the same node [x]
    without [args]: both contributions reach [x], in order. *)
Lemma backward_shared_run h y x l1 l2 ty tx t1 t2 fuel :
  h !! y = Some ty → args ty = Some [x; x] →
  local_derivatives ty = Some [l1; l2] →
  h !! x = Some tx → args tx = None → x ≠ y →
  h !! l1 = Some t1 → h !! l2 = Some t2 → 2 ≤ fuel →
  ∃ h2 ty' tx',
    backward fuel y h = Ok (tt, h2)
    ∧ h2 !! y = Some ty' ∧ derivative ty' = Some float_one
    ∧ h2 !! x = Some tx'
    ∧ derivative tx'
      = acc_all (derivative tx)
          [fmul float_one (value t1); fmul float_one (value t2)].
Proof.
  intros Hy Hargs Hlds Hx Hxargs Hxy Hl1 Hl2 Hfuel.
  assert (Htopo : ∃ visited,
            build_topo fuel h y ([], ∅) = Ok ([x; y], visited)).
  { destruct fuel as [|[|f]]; [lia..|]. eexists.
    cbn [build_topo]. rewrite decide_False by set_solver. rewrite Hy, Hargs.
    cbn [fold_result].
    rewrite decide_False by (set_unfold; intros [?|[]]; done).
    rewrite Hx, Hxargs. cbn [app].
    destruct f as [|f].
    - cbn [build_topo]. rewrite decide_True by set_solver. done.
    - cbn [build_topo]. rewrite decide_True by set_solver. done. }
  destruct Htopo as [visited Htopo].
  rewrite (backward_run _ _ _ _ _ _ Hy Htopo).
  set (ty1 := set_derivative (Some float_one) ty).
  set (hs := <[y := ty1]> h).
  pose proof (insert_derivative_only h y ty (Some float_one) Hy) as [Hs _].
  fold ty1 in Hs. fold hs in Hs.
  assert (Hys : hs !! y = Some ty1).
  { unfold hs. apply list_lookup_insert_eq. by eapply lookup_lt_Some. }
  assert (Hxs : hs !! x = Some tx).
  { unfold hs. by rewrite list_lookup_insert_ne. }
  destruct (same_graph_lookup _ _ _ _ Hs Hl1) as (t1' & Hl1s & Hv1 & _).
  change (reverse [x; y]) with [y; x].
  cbn [for_each]. unfold bind at 1.
  unfold backward_node at 1, bind at 1, deref at 1. rewrite Hys.
  cbn [args local_derivatives ty1 set_derivative]. rewrite Hargs, Hlds.
  cbn [zip zip_with for_each]. unfold bind at 1.
  rewrite (push_run hs y x l1 ty1 t1' tx float_one Hys Hl1s Hxs eq_refl).
  rewrite Hv1.
  set (tx1 := set_derivative
                (Some (accumulated (derivative tx)
                         (fmul float_one (value t1)))) tx).
  set (hs1 := <[x := tx1]> hs).
  pose proof (insert_derivative_only hs x tx
                (Some (accumulated (derivative tx)
                         (fmul float_one (value t1)))) Hxs) as [Hs1 _].
  fold tx1 in Hs1. fold hs1 in Hs1.
  assert (Hys1 : hs1 !! y = Some ty1).
  { unfold hs1. by rewrite list_lookup_insert_ne. }
  assert (Hxs1 : hs1 !! x = Some tx1).
  { unfold hs1. apply list_lookup_insert_eq. by eapply lookup_lt_Some. }
  destruct (same_graph_lookup _ _ _ _ (same_graph_trans _ _ _ Hs Hs1) Hl2)
    as (t2' & Hl2s & Hv2 & _).
  unfold bind at 1.
  rewrite (push_run hs1 y x l2 ty1 t2' tx1 float_one Hys1 Hl2s Hxs1 eq_refl).
  rewrite Hv2.
  set (tx2 := set_derivative
                (Some (accumulated (derivative tx1)
                         (fmul float_one (value t2)))) tx1).
  set (hs2 := <[x := tx2]> hs1).
  assert (Hxs2 : hs2 !! x = Some tx2).
  { unfold hs2. apply list_lookup_insert_eq. by eapply lookup_lt_Some. }
  assert (Hys2 : hs2 !! y = Some ty1).
  { unfold hs2. by rewrite list_lookup_insert_ne. }
  cbn [ret]. unfold bind at 1.
  unfold backward_node at 1, bind at 1, deref at 1. rewrite Hxs2.
  assert (Hargs2 : args tx2 = None) by (by destruct tx).
  rewrite Hargs2. cbn [ret].
  exists hs2, ty1, tx2. do 4 (split; [done|]). by destruct tx.
Qed.

(** [backward] on a node [y] whose two [args] are distinct nodes [a]
    and [b] without [args]: each receives its contribution. *)
Lemma backward_binary_run h y a b l1 l2 ty ta tb t1 t2 fuel :
  h !! y = Some ty → args ty = Some [a; b] →
  local_derivatives ty = Some [l1; l2] →
  h !! a = Some ta → h !! b = Some tb →
  args ta = None → args tb = None → a ≠ b → a ≠ y → b ≠ y →
  h !! l1 = Some t1 → h !! l2 = Some t2 → 2 ≤ fuel →
  ∃ h2 ta' tb',
    backward fuel y h = Ok (tt, h2)
    ∧ h2 !! a = Some ta'
    ∧ derivative ta'
      = acc_all (derivative ta) [fmul float_one (value t1)]
    ∧ h2 !! b = Some tb'
    ∧ derivative tb'
      = acc_all (derivative tb) [fmul float_one (value t2)].
Proof.
  intros Hy Hargs Hlds Ha Hb Haargs Hbargs Hab Hay Hby Hl1 Hl2 Hfuel.
  assert (Htopo : ∃ visited,
            build_topo fuel h y ([], ∅) = Ok ([a; b; y], visited)).
  { destruct fuel as [|[|f]]; [lia..|]. eexists.
    cbn [build_topo]. rewrite decide_False by set_solver. rewrite Hy, Hargs.
    cbn [fold_result].
    rewrite decide_False by (set_unfold; intros [?|[]]; done).
    rewrite Ha, Haargs. cbn [app].
    destruct f as [|f].
    - cbn [build_topo].
      rewrite decide_False by (set_unfold; intros [?|[?|[]]]; done).
      rewrite Hb, Hbargs. done.
    - cbn [build_topo].
      rewrite decide_False by (set_unfold; intros [?|[?|[]]]; done).
      rewrite Hb, Hbargs. done. }
  destruct Htopo as [visited Htopo].
  rewrite (backward_run _ _ _ _ _ _ Hy Htopo).
  set (ty1 := set_derivative (Some float_one) ty).
  set (hs := <[y := ty1]> h).
  pose proof (insert_derivative_only h y ty (Some float_one) Hy) as [Hs _].
  fold ty1 in Hs. fold hs in Hs.
  assert (Hys : hs !! y = Some ty1).
  { unfold hs. apply list_lookup_insert_eq. by eapply lookup_lt_Some. }
  assert (Has : hs !! a = Some ta).
  { unfold hs. by rewrite list_lookup_insert_ne. }
  assert (Hbs : hs !! b = Some tb).
  { unfold hs. by rewrite list_lookup_insert_ne. }
  destruct (same_graph_lookup _ _ _ _ Hs Hl1) as (t1' & Hl1s & Hv1 & _).
  change (reverse [a; b; y]) with [y; b; a].
  cbn [for_each]. unfold bind at 1.
  unfold backward_node at 1, bind at 1, deref at 1. rewrite Hys.
  cbn [args local_derivatives ty1 set_derivative]. rewrite Hargs, Hlds.
  cbn [zip zip_with for_each]. unfold bind at 1.
  rewrite (push_run hs y a l1 ty1 t1' ta float_one Hys Hl1s Has eq_refl).
  rewrite Hv1.
  set (ta1 := set_derivative
                (Some (accumulated (derivative ta)
                         (fmul float_one (value t1)))) ta).
  set (hs1 := <[a := ta1]> hs).
  pose proof (insert_derivative_only hs a ta
                (Some (accumulated (derivative ta)
                         (fmul float_one (value t1)))) Has) as [Hs1 _].
  fold ta1 in Hs1. fold hs1 in Hs1.
  assert (Hys1 : hs1 !! y = Some ty1).
  { unfold hs1. by rewrite list_lookup_insert_ne. }
  assert (Has1 : hs1 !! a = Some ta1).
  { unfold hs1. apply list_lookup_insert_eq. by eapply lookup_lt_Some. }
  assert (Hbs1 : hs1 !! b = Some tb).
  { unfold hs1. by rewrite list_lookup_insert_ne. }
  destruct (same_graph_lookup _ _ _ _ (same_graph_trans _ _ _ Hs Hs1) Hl2)
    as (t2' & Hl2s & Hv2 & _).
  unfold bind at 1.
  rewrite (push_run hs1 y b l2 ty1 t2' tb float_one Hys1 Hl2s Hbs1 eq_refl).
  rewrite Hv2.
  set (tb1 := set_derivative
                (Some (accumulated (derivative tb)
                         (fmul float_one (value t2)))) tb).
  set (hs2 := <[b := tb1]> hs1).
  assert (Hbs2 : hs2 !! b = Some tb1).
  { unfold hs2. apply list_lookup_insert_eq. by eapply lookup_lt_Some. }
  assert (Has2 : hs2 !! a = Some ta1).
  { unfold hs2. by rewrite list_lookup_insert_ne. }
  cbn [ret]. unfold bind at 1.
  unfold backward_node at 1, bind at 1, deref at 1. rewrite Hbs2.
  assert (Hargs_b : args tb1 = None) by (by destruct tb).
  rewrite Hargs_b. cbn [ret]. unfold bind at 1.
  unfold backward_node at 1, bind at 1, deref at 1. rewrite Has2.
  assert (Hargs_a : args ta1 = None) by (by destruct ta).
  rewrite Hargs_a. cbn [ret].
  exists hs2, ta1, tb1. do 2 (split; [done|]).
  split; [by destruct ta|]. split; [done|]. by destruct tb.
Qed.

(** The same for the results of [_add] and [_sub]. *)
Lemma backward_add_sub_run h a b ta tb fuel :
  h !! a = Some ta → h !! b = Some tb →
  args ta = None → args tb = None → a ≠ b → 2 ≤ fuel →
  (∃ y h1 h2 ta' tb',
     _add a b h = Ok (y, h1) ∧ backward fuel y h1 = Ok (tt, h2)
     ∧ h2 !! a = Some ta'
     ∧ derivative ta'
       = acc_all (derivative ta) [fmul float_one (float_of_int 1)]
     ∧ h2 !! b = Some tb'
     ∧ derivative tb'
       = acc_all (derivative tb) [fmul float_one (float_of_int 1)])
  ∧ (∃ y h1 h2 ta' tb',
     _sub a b h = Ok (y, h1) ∧ backward fuel y h1 = Ok (tt, h2)
     ∧ h2 !! a = Some ta'
     ∧ derivative ta'
       = acc_all (derivative ta) [fmul float_one (float_of_int 1)]
     ∧ h2 !! b = Some tb'
     ∧ derivative tb'
       = acc_all (derivative tb) [fmul float_one (float_of_int (-1))]).
Proof.
  intros Ha Hb Haargs Hbargs Hab Hfuel.
  pose proof (lookup_lt_Some _ _ _ Ha) as Hla.
  pose proof (lookup_lt_Some _ _ _ Hb) as Hlb.
  split.
  - eexists (length h), _. rewrite (_add_run h a b ta tb Ha Hb).
    edestruct (backward_binary_run
                 (h ++ [op_result (fadd (value ta) (value tb)) a b
                          (length h + 1) (length h + 2);
                        leaf (float_of_int 1) None;
                        leaf (float_of_int 1) None])
                 (length h) a b (length h + 1) (length h + 2))
      as (h2 & ta' & tb' & Hrun & Hta' & Hda & Htb' & Hdb);
      [by apply list_lookup_middle|done|done|by rewrite lookup_app_l
      |by rewrite lookup_app_l|done|done|done|lia|lia| | |exact Hfuel|].
    + rewrite lookup_app_r by lia.
      by replace (length h + 1 - length h) with 1 by lia.
    + rewrite lookup_app_r by lia.
      by replace (length h + 2 - length h) with 2 by lia.
    + by exists h2, ta', tb'.
  - eexists (length h), _. rewrite (_sub_run h a b ta tb Ha Hb).
    edestruct (backward_binary_run
                 (h ++ [op_result (fsub (value ta) (value tb)) a b
                          (length h + 1) (length h + 2);
                        leaf (float_of_int 1) None;
                        leaf (float_of_int (-1)) None])
                 (length h) a b (length h + 1) (length h + 2))
      as (h2 & ta' & tb' & Hrun & Hta' & Hda & Htb' & Hdb);
      [by apply list_lookup_middle|done|done|by rewrite lookup_app_l
      |by rewrite lookup_app_l|done|done|done|lia|lia| | |exact Hfuel|].
    + rewrite lookup_app_r by lia.
      by replace (length h + 1 - length h) with 1 by lia.
    + rewrite lookup_app_r by lia.
      by replace (length h + 2 - length h) with 2 by lia.
    + by exists h2, ta', tb'.
Qed.

End SharedOperand.

(** ** Numbers as operands *)

Section NumberOperands.
Context {F : Type} {SF : Scalar F}.
Implicit Types (h : heap F) (t : Tensor F) (n a b m root self : loc).

Lemma or_type_error_returned (m : M F loc) h :
  or_type_error (returned m) h = m h.
Proof.
  unfold or_type_error, returned, bind, ret.
  by destruct (m h) as [[r h']|e].
Qed.

(** [Tensor(x)] for a number [x] that [float] accepts. *)
Lemma literal_inv (x : operand (F := F)) v :
  literal x = Some v →
  (∃ z, x = OInt z ∧ int_too_large z = false ∧ v = float_of_int z)
  ∨ x = OFloat v.
Proof.
  destruct x as [y|z|w|]; simpl; try done.
  - destruct (int_too_large z) eqn:Hz; [done|]. intros [= <-]. left.
    by exists z.
  - intros [= <-]. by right.
Qed.

Lemma Tensor__init__run (v : F) nm h :
  Tensor__init__ v nm h = Ok (length h, h ++ [leaf v nm]).
Proof. done. Qed.

(** The six operator forms on a number: the number is wrapped first,
    then the operation is called with the operands on their sides. *)
Lemma number_operand_run self (x : operand) v h :
  literal x = Some v →
  let k := length h in
  let hk := h ++ [leaf v None] in
  tensor_op __add__ self x h = _add self k hk
  ∧ reflected_op __add__ __radd__ x self h = _add k self hk
  ∧ tensor_op __sub__ self x h = _sub self k hk
  ∧ reflected_op __sub__ __rsub__ x self h = _sub k self hk
  ∧ tensor_op __mul__ self x h = _mul self k hk
  ∧ reflected_op __mul__ __rmul__ x self h = _mul k self hk.
Proof.
  intros [(z & -> & Hz & ->)| ->]%literal_inv k hk;
    unfold tensor_op, reflected_op;
    cbn [__add__ __radd__ __sub__ __rsub__ __mul__ __rmul__];
    rewrite !or_type_error_returned; unfold bind;
    rewrite ?(Tensor_of_int_run z None h Hz), ?Tensor__init__run;
    done.
Qed.

Lemma wraps_intro (m : M F loc) h v w side t new :
  m h = Ok (length h + 1, (h ++ [leaf v None]) ++ t :: new) →
  value t = w → args t = Some (side (length h)) →
  wraps m h v w side.
Proof.
  intros Hrun Hv Hargs.
  exists (length h + 1), ((h ++ [leaf v None]) ++ t :: new), t, (length h).
  split; [done|]. split; [done|]. split.
  { rewrite lookup_app_l by (rewrite length_app; simpl; lia).
    apply lookup_snoc. }
  split.
  { apply list_lookup_middle. rewrite length_app. simpl. lia. }
  do 2 (split; [done|]).
  intros n Hn. rewrite <- app_assoc. by rewrite lookup_app_l.
Qed.

(** A number that [float] rejects: every form raises before the
    operation is called. *)
Lemma overflow_operand_run self z h :
  int_too_large (F := F) z = true →
  tensor_op __add__ self (OInt z) h = Raise OverflowError
  ∧ reflected_op __add__ __radd__ (OInt z) self h = Raise OverflowError
  ∧ tensor_op __sub__ self (OInt z) h = Raise OverflowError
  ∧ reflected_op __sub__ __rsub__ (OInt z) self h = Raise OverflowError
  ∧ tensor_op __mul__ self (OInt z) h = Raise OverflowError
  ∧ reflected_op __mul__ __rmul__ (OInt z) self h = Raise OverflowError.
Proof.
  intros Hz. unfold tensor_op, reflected_op;
    cbn [__add__ __radd__ __sub__ __rsub__ __mul__ __rmul__];
    rewrite !or_type_error_returned; unfold bind, Tensor_of_int;
    rewrite Hz. done.
Qed.

End NumberOperands.

(** ** Stores built through the interface *)

Section InterfaceStores.
Context {F : Type} {SF : Scalar F}.
Implicit Types (h : heap F) (t : Tensor F) (n a b m root self : loc).

Lemma args_point_back_edge h n a :
  args_point_back 0 h = true → edge h n a → a < n.
Proof.
  intros Hback (t & xs & Hn & Hxs & Ha).
  by apply (args_point_back_lookup h 0 n t xs a).
Qed.

(** The result of an operation is the last but two, or the last,
    object of the store it leaves. *)
Lemma operation_result h a b r h' :
  _add a b h = Ok (r, h') ∨ _sub a b h = Ok (r, h') ∨ _mul a b h = Ok (r, h') →
  r < length h' ∧ ∃ new, h' = h ++ new.
Proof.
  intros [Hrun|[Hrun|Hrun]].
  - destruct (_add_inv _ _ _ _ _ Hrun) as (ta & tb & Ha & Hb).
    rewrite (_add_run h a b ta tb Ha Hb) in Hrun. injection Hrun as <- <-.
    split; [rewrite length_app; simpl; lia|by eexists].
  - destruct (_sub_inv _ _ _ _ _ Hrun) as (ta & tb & Ha & Hb).
    rewrite (_sub_run h a b ta tb Ha Hb) in Hrun. injection Hrun as <- <-.
    split; [rewrite length_app; simpl; lia|by eexists].
  - destruct (_mul_inv _ _ _ _ _ Hrun) as (ta & tb & Ha & Hb).
    rewrite (_mul_run h a b ta tb Ha Hb) in Hrun. injection Hrun as <- <-.
    split; [rewrite length_app; simpl; lia|by eexists].
Qed.

Lemma operation_api_store h a b r h' :
  api_store h →
  _add a b h = Ok (r, h') ∨ _sub a b h = Ok (r, h') ∨ _mul a b h = Ok (r, h') →
  api_store h'.
Proof.
  intros Hapi [Hrun|[Hrun|Hrun]].
  - by eapply api_add.
  - by eapply api_sub.
  - by eapply api_mul.
Qed.

(** What an operator form comes to when it returns: one of the three
    operations, on the store itself or on the store with the number
    wrapped as a new leaf. *)
Lemma operator_form_inv h self (x : operand) (m : M F loc) r h' :
  m ∈ operator_forms self x → m h = Ok (r, h') →
  ∃ a b k,
    (k = [] ∨ ∃ v, k = [leaf v None])
    ∧ (_add a b (h ++ k) = Ok (r, h') ∨ _sub a b (h ++ k) = Ok (r, h')
       ∨ _mul a b (h ++ k) = Ok (r, h')).
Proof.
  intros Hm Hrun. unfold operator_forms in Hm.
  assert (Hnum : ∀ v, literal x = Some v →
            ∃ a b k, (k = [] ∨ ∃ v, k = [leaf v None])
              ∧ (_add a b (h ++ k) = Ok (r, h')
                 ∨ _sub a b (h ++ k) = Ok (r, h')
                 ∨ _mul a b (h ++ k) = Ok (r, h'))).
  { intros v Hv.
    destruct (number_operand_run self x v h Hv)
      as (Eadd & Eradd & Esub & Ersub & Emul & Ermul).
    repeat (apply elem_of_cons in Hm as [->|Hm]);
      [rewrite Eadd in Hrun|rewrite Eradd in Hrun|rewrite Esub in Hrun
      |rewrite Ersub in Hrun|rewrite Emul in Hrun|rewrite Ermul in Hrun
      |by apply elem_of_nil in Hm];
      eexists _, _, [leaf v None]; (split; [right; by eexists|]); eauto. }
  destruct x as [y|z|v|].
  - repeat (apply elem_of_cons in Hm as [->|Hm]);
      [..|by apply elem_of_nil in Hm];
      unfold tensor_op, reflected_op in Hrun;
      cbn [__add__ __radd__ __sub__ __rsub__ __mul__ __rmul__] in Hrun;
      rewrite or_type_error_returned in Hrun;
      eexists _, _, []; (split; [by left|]); rewrite app_nil_r; eauto.
  - destruct (int_too_large (F := F) z) eqn:Hz.
    + destruct (overflow_operand_run self z h Hz)
        as (E1 & E2 & E3 & E4 & E5 & E6).
      repeat (apply elem_of_cons in Hm as [->|Hm]);
        [..|by apply elem_of_nil in Hm]; congruence.
    + apply (Hnum (float_of_int z)). simpl. by rewrite Hz.
  - by apply (Hnum v).
  - repeat (apply elem_of_cons in Hm as [->|Hm]);
      [..|by apply elem_of_nil in Hm]; done.
Qed.

End InterfaceStores.

Section InterfaceExact.
Context {F : Type} {SF : Scalar F} {EF : ExactScalar F}.
Implicit Types (h : heap F) (t : Tensor F) (n a b m root self x : loc).

Lemma value_at_covers h h' l t :
  covers h h' → h !! l = Some t → value_at h' l = value_at h l.
Proof.
  intros Hc Hl. destruct (Hc l t Hl) as (t' & Hl' & Hv & _).
  unfold value_at. by rewrite Hl, Hl'.
Qed.

(** The rules of differentiation read the graph and the values only. *)
Lemma partial_covers h h' x m d :
  covers h h' → partial h x m d → partial h' x m d.
Proof.
  intros Hc. induction 1 as [|m Hm Hleaf|m a b da db Hm Hnode _ IHa _ IHb
                             |m a b da db Hm Hnode _ IHa _ IHb
                             |m a b da db Hm Hnode _ IHa _ IHb].
  - constructor.
  - apply partial_leaf; [done|]. by eapply leaf_node_covers.
  - apply (partial_add h' x m a b); [done| |done..].
    by eapply add_node_covers.
  - apply (partial_sub h' x m a b); [done| |done..].
    by eapply sub_node_covers.
  - destruct Hnode as (t & ta & tb & Ht & Ha & Hb & Hrest).
    rewrite <- (value_at_covers h h' a ta Hc Ha).
    rewrite <- (value_at_covers h h' b tb Hc Hb).
    apply (partial_mul h' x m a b); [done| |done..].
    eapply mul_node_covers; [done|]. by exists t, ta, tb.
Qed.

End InterfaceExact.

(** ** The properties *)

Section Further.
Context {F : Type} {SF : Scalar F}.
Implicit Types (h : heap F) (t : Tensor F) (n a b m root self x y : loc).

(** X1. On every well-formed store, with a cycle among the [args] or
    without, [build_topo] from an empty list and an empty set returns:
    the list holds exactly the nodes reachable from the root, each once,
    the set is the set of its members, the root is last, and every other
    member is an [args] entry of a node further back in the list.  When
    the graph is acyclic the list is a topological order. *)
Theorem build_topo_any_graph h root fuel :
  graph_ok h → root < length h → length h < fuel →
  ∃ order visited,
    build_topo fuel h root ([], ∅) = Ok (order, visited)
    ∧ NoDup order
    ∧ (∀ n, n ∈ order ↔ reachable h root n)
    ∧ (∀ n, n ∈ visited ↔ n ∈ order)
    ∧ last order = Some root
    ∧ (∀ i m, order !! i = Some m → m ≠ root →
         ∃ j c, i < j ∧ order !! j = Some c ∧ edge h c m)
    ∧ (acyclic h → topo_sorted h order).
Proof.
  intros Hok Hroot Hfuel.
  destruct (build_topo_root_any h root fuel Hok Hroot Hfuel)
    as (order & visited & Htopo & Hnd & Hreach & Hvis & Husers & Hlast).
  exists order, visited. do 5 (split; [done|]). split.
  - intros i m Hi Hm. by destruct (Husers i m Hi) as [?|?].
  - intros Hacyc.
    destruct (build_topo_root h root fuel Hok Hacyc Hroot Hfuel)
      as (order' & visited' & Htopo' & _ & _ & Hts & _).
    by assert (order' = order) as -> by congruence.
Qed.

(** X2. On every well-formed store, with a cycle or without,
    [backward] completes: it raises nothing, every node reachable from
    the root ends with a derivative, and the objects that are not
    reachable are left as they were. *)
Theorem backward_any_graph h root fuel :
  graph_ok h → root < length h → length h < fuel →
  ∃ h', backward fuel root h = Ok (tt, h')
    ∧ (∀ n, reachable h root n → present h' n)
    ∧ length h' = length h
    ∧ (∀ n, ¬ reachable h root n → h' !! n = h !! n).
Proof.
  intros Hok Hroot Hfuel.
  destruct (backward_total_any h root fuel Hok Hroot Hfuel)
    as (h' & Hrun & Hpres).
  exists h'. do 2 (split; [done|]).
  destruct (backward_only h root fuel tt h' Hrun) as [Hs Hframe].
  split; [by apply same_graph_length|done].
Qed.

(** X3. On every well-formed store, with a cycle or without,
    [clear_derivatives] completes; it sets the derivative of exactly
    the nodes reachable from the root to [None] and changes nothing
    else, so the graph is left without derivatives; the store it leaves
    does not depend on the derivatives the reachable nodes held, and
    clearing again changes nothing. *)
Theorem clear_derivatives_any_graph h root fuel :
  graph_ok h → root < length h → length h < fuel →
  ∃ hc,
    clear_derivatives fuel root h = Ok (tt, hc)
    ∧ (∀ n t, reachable h root n → h !! n = Some t →
         hc !! n = Some (set_derivative None t))
    ∧ (∀ n, ¬ reachable h root n → hc !! n = h !! n)
    ∧ fresh hc root
    ∧ (∀ h2, only_derivatives (reachable h root) h h2 →
         clear_derivatives fuel root h2 = Ok (tt, hc))
    ∧ clear_derivatives fuel root hc = Ok (tt, hc).
Proof.
  intros Hok Hroot Hfuel.
  destruct (clear_derivatives_total_any h root fuel Hok Hroot Hfuel)
    as (order & visited & hc & Htopo & Hreach & Hclear & Hhc).
  pose proof (clear_derivatives_only h root fuel tt hc Hclear) as Honly.
  exists hc. split; [done|].
  assert (Hset : ∀ n t, reachable h root n → h !! n = Some t →
            hc !! n = Some (set_derivative None t)).
  { intros n t Hn Ht. rewrite Hhc, decide_True by (by apply Hreach).
    by rewrite Ht. }
  split; [done|]. split; [apply Honly|]. split.
  { intros n t Hn Ht.
    apply (same_graph_reachable h hc root n (proj1 Honly)) in Hn.
    destruct (lookup_lt_is_Some_2 h n) as [t0 Ht0].
    { by eapply reachable_valid. }
    rewrite (Hset n t0 Hn Ht0) in Ht. by injection Ht as <-. }
  split.
  - intros h2 Hh2. by apply (clear_forgets h h2 root fuel hc).
  - by apply (clear_forgets h hc root fuel hc).
Qed.

(** X4. On a well-formed acyclic graph [backward] completes, and in
    the arithmetic of the program itself every object ends with what
    the pass started it with (the root with [1.0], the others with
    what they held) and, accumulated onto that one after the other,
    the contributions [user.derivative * local_derivative.value] of
    its users, in the order of the two loops, each user's derivative
    being its final one.  The root and the unreachable objects receive
    no contribution. *)
Theorem backward_adjoint_equation h root fuel :
  graph_ok h → acyclic h → root < length h → length h < fuel →
  ∃ order visited h',
    build_topo fuel h root ([], ∅) = Ok (order, visited)
    ∧ backward fuel root h = Ok (tt, h')
    ∧ (∀ m t, h !! m = Some t →
         ∃ t', h' !! m = Some t'
           ∧ derivative t'
             = acc_all (if decide (m = root) then Some float_one
                        else derivative t)
                 (incoming h h' (reverse order) m))
    ∧ incoming h h' (reverse order) root = []
    ∧ (∀ m, ¬ reachable h root m → incoming h h' (reverse order) m = []).
Proof.
  intros Hok Hacyc Hroot Hfuel.
  destruct (backward_adjoint h root fuel Hok Hacyc Hroot Hfuel)
    as (order & visited & h' & Htopo & Hrun & Hadj).
  destruct (build_topo_root h root fuel Hok Hacyc Hroot Hfuel)
    as (order' & visited' & Htopo' & _ & Hreach & _).
  assert (order' = order) as -> by congruence.
  exists order, visited, h'. do 3 (split; [done|]). split.
  - apply incoming_none. intros c Hc Hedge.
    rewrite elem_of_reverse in Hc. apply Hreach in Hc.
    apply (Hacyc root). eapply tc_rtc_l; [exact Hc|]. by apply tc_once.
  - intros m Hm. apply incoming_none. intros c Hc Hedge.
    rewrite elem_of_reverse in Hc. apply Hreach in Hc.
    apply Hm. eapply rtc_r; [exact Hc|done].
Qed.

(** X5. On a well-formed acyclic graph [backward] leaves exactly
    [1.0] in the root, whatever the root held before; and on a root
    without [args] it changes nothing but that. *)
Theorem backward_root_derivative h root t fuel :
  graph_ok h → acyclic h → root < length h → length h < fuel →
  h !! root = Some t →
  ∃ h', backward fuel root h = Ok (tt, h')
    ∧ h' !! root = Some (set_derivative (Some float_one) t)
    ∧ (args t = None →
       h' = <[root := set_derivative (Some float_one) t]> h).
Proof.
  intros Hok Hacyc Hroot Hfuel Ht.
  destruct (backward_root_one h root fuel Hok Hacyc Hroot Hfuel)
    as (h' & t' & Hrun & Ht' & Hd).
  exists h'. split; [done|]. split.
  - destruct (backward_only h root fuel tt h' Hrun) as [Hs _].
    destruct (same_graph_lookup _ _ _ _ Hs Ht) as (t'' & Ht'' & Hsf).
    assert (t'' = t') as -> by congruence.
    rewrite Ht'. f_equal.
    destruct Hsf as (Hv & Ha & Hl & Hn). destruct t, t'; simpl in *.
    by subst.
  - intros Hargs.
    rewrite (backward_leaf_run h root t fuel Ht Hargs) in Hrun by lia.
    by injection Hrun as <-.
Qed.

(** X6. For a node [x] without [args], [y = x + x], [y = x - x] and
    [y = x * x] followed by [backward] on [y] accumulate both
    contributions into [x], in operand order, onto what [x] held:
    [1.0 * 1.0] twice, [1.0 * 1.0] and [1.0 * -1.0], and
    [1.0 * x.value] twice. *)
Theorem shared_operand_backward h x tx fuel :
  h !! x = Some tx → args tx = None → 2 ≤ fuel →
  (∃ y h1 h2 tx',
     _add x x h = Ok (y, h1) ∧ backward fuel y h1 = Ok (tt, h2)
     ∧ h2 !! x = Some tx'
     ∧ derivative tx'
       = acc_all (derivative tx)
           [fmul float_one (float_of_int 1);
            fmul float_one (float_of_int 1)])
  ∧ (∃ y h1 h2 tx',
     _sub x x h = Ok (y, h1) ∧ backward fuel y h1 = Ok (tt, h2)
     ∧ h2 !! x = Some tx'
     ∧ derivative tx'
       = acc_all (derivative tx)
           [fmul float_one (float_of_int 1);
            fmul float_one (float_of_int (-1))])
  ∧ (∃ y h1 h2 tx',
     _mul x x h = Ok (y, h1) ∧ backward fuel y h1 = Ok (tt, h2)
     ∧ h2 !! x = Some tx'
     ∧ derivative tx'
       = acc_all (derivative tx)
           [fmul float_one (value tx); fmul float_one (value tx)]).
Proof.
  intros Hx Hargs Hfuel.
  pose proof (lookup_lt_Some _ _ _ Hx) as Hlx.
  split; [|split].
  - eexists (length h), _. rewrite (_add_run h x x tx tx Hx Hx).
    edestruct (backward_shared_run
                 (h ++ [op_result (fadd (value tx) (value tx)) x x
                          (length h + 1) (length h + 2);
                        leaf (float_of_int 1) None;
                        leaf (float_of_int 1) None])
                 (length h) x (length h + 1) (length h + 2))
      as (h2 & ty' & tx' & Hrun & _ & _ & Htx' & Hd);
      [by apply list_lookup_middle|done|done|by rewrite lookup_app_l|done
      |lia| | |exact Hfuel|].
    + rewrite lookup_app_r by lia.
      by replace (length h + 1 - length h) with 1 by lia.
    + rewrite lookup_app_r by lia.
      by replace (length h + 2 - length h) with 2 by lia.
    + by exists h2, tx'.
  - eexists (length h), _. rewrite (_sub_run h x x tx tx Hx Hx).
    edestruct (backward_shared_run
                 (h ++ [op_result (fsub (value tx) (value tx)) x x
                          (length h + 1) (length h + 2);
                        leaf (float_of_int 1) None;
                        leaf (float_of_int (-1)) None])
                 (length h) x (length h + 1) (length h + 2))
      as (h2 & ty' & tx' & Hrun & _ & _ & Htx' & Hd);
      [by apply list_lookup_middle|done|done|by rewrite lookup_app_l|done
      |lia| | |exact Hfuel|].
    + rewrite lookup_app_r by lia.
      by replace (length h + 1 - length h) with 1 by lia.
    + rewrite lookup_app_r by lia.
      by replace (length h + 2 - length h) with 2 by lia.
    + by exists h2, tx'.
  - eexists (length h), _. rewrite (_mul_run h x x tx tx Hx Hx).
    edestruct (backward_shared_run
                 (h ++ [op_result (fmul (value tx) (value tx)) x x x x])
                 (length h) x x x)
      as (h2 & ty' & tx' & Hrun & _ & _ & Htx' & Hd);
      [by apply list_lookup_middle|done|done|by rewrite lookup_app_l|done
      |lia|by rewrite lookup_app_l|by rewrite lookup_app_l|exact Hfuel|].
    by exists h2, tx'.
Qed.

(** X7. With a plain number on one side of [+], [-] or [*] and a
    [Tensor] on the other, the number is wrapped as a new leaf without
    name and the operation is called with the two operands on the
    sides they were written: [self - 2] has the value
    [self.value - 2.0] and [2 - self] the value [2.0 - self.value].  An
    [int] that [float] rejects makes every form raise
    [OverflowError]. *)
Theorem number_operands_keep_sides h self ts :
  h !! self = Some ts →
  (∀ (x : operand) v, literal x = Some v →
     wraps (tensor_op __add__ self x) h v
       (fadd (value ts) v) (λ k, [self; k])
     ∧ wraps (reflected_op __add__ __radd__ x self) h v
         (fadd v (value ts)) (λ k, [k; self])
     ∧ wraps (tensor_op __sub__ self x) h v
         (fsub (value ts) v) (λ k, [self; k])
     ∧ wraps (reflected_op __sub__ __rsub__ x self) h v
         (fsub v (value ts)) (λ k, [k; self])
     ∧ wraps (tensor_op __mul__ self x) h v
         (fmul (value ts) v) (λ k, [self; k])
     ∧ wraps (reflected_op __mul__ __rmul__ x self) h v
         (fmul v (value ts)) (λ k, [k; self]))
  ∧ (∀ z, int_too_large (F := F) z = true →
     tensor_op __add__ self (OInt z) h = Raise OverflowError
     ∧ reflected_op __add__ __radd__ (OInt z) self h = Raise OverflowError
     ∧ tensor_op __sub__ self (OInt z) h = Raise OverflowError
     ∧ reflected_op __sub__ __rsub__ (OInt z) self h = Raise OverflowError
     ∧ tensor_op __mul__ self (OInt z) h = Raise OverflowError
     ∧ reflected_op __mul__ __rmul__ (OInt z) self h
       = Raise OverflowError).
Proof.
  intros Hself. split; [|intros z Hz; by apply overflow_operand_run].
  intros x v Hx.
  destruct (number_operand_run self x v h Hx)
    as (Eadd & Eradd & Esub & Ersub & Emul & Ermul).
  assert (Hs : (h ++ [leaf v None]) !! self = Some ts).
  { rewrite lookup_app_l; [done|]. by eapply lookup_lt_Some. }
  assert (Hk : (h ++ [leaf v None]) !! length h = Some (leaf v None))
    by apply lookup_snoc.
  assert (Hlen : length (h ++ [leaf v None]) = length h + 1)
    by (rewrite length_app; simpl; lia).
  repeat split.
  - eapply wraps_intro;
      [rewrite Eadd, (_add_run _ _ _ _ _ Hs Hk), Hlen; reflexivity
      |reflexivity..].
  - eapply wraps_intro;
      [rewrite Eradd, (_add_run _ _ _ _ _ Hk Hs), Hlen; reflexivity
      |reflexivity..].
  - eapply wraps_intro;
      [rewrite Esub, (_sub_run _ _ _ _ _ Hs Hk), Hlen; reflexivity
      |reflexivity..].
  - eapply wraps_intro;
      [rewrite Ersub, (_sub_run _ _ _ _ _ Hk Hs), Hlen; reflexivity
      |reflexivity..].
  - eapply wraps_intro;
      [rewrite Emul, (_mul_run _ _ _ _ _ Hs Hk), Hlen; reflexivity
      |reflexivity..].
  - eapply wraps_intro;
      [rewrite Ermul, (_mul_run _ _ _ _ _ Hk Hs), Hlen; reflexivity
      |reflexivity..].
Qed.

(** X8. Every store a program reaches through the interface
    ([Tensor(...)], the three operations, [backward] and
    [clear_derivatives], in any number and order) is well formed: the
    [args] of every object are objects created before it, so the graph
    is acyclic, and every object is a leaf or the result of one
    operation, holding the sum, the difference or the product of the
    values of its [args]. *)
Theorem interface_stores_well_formed h :
  api_store h →
  graph_ok h ∧ (∀ n a, edge h n a → a < n) ∧ acyclic h ∧ all_from_ops h.
Proof.
  intros (Hok & Hback & Hall)%api_store_ok.
  split; [done|]. split; [|split; [|done]].
  - intros n a Hedge. by apply (args_point_back_edge h).
  - by apply args_point_back_acyclic.
Qed.

(** X10. The sum and the difference rule.  For two distinct nodes
    [a] and [b] without [args], [y = a + b] followed by [backward] on
    [y] accumulates [1.0 * 1.0] into both, and [y = a - b] accumulates
    [1.0 * 1.0] into [a] and [1.0 * -1.0] into [b].  Through the
    operators, with a plain number [c]: [a - c] accumulates
    [1.0 * 1.0] into [a] and [c - a] accumulates [1.0 * -1.0]. *)
Theorem sum_difference_rule_backward h a b ta tb fuel :
  a ≠ b → h !! a = Some ta → h !! b = Some tb →
  args ta = None → args tb = None → 2 ≤ fuel →
  (∃ y h1 h2 ta' tb',
     _add a b h = Ok (y, h1) ∧ backward fuel y h1 = Ok (tt, h2)
     ∧ h2 !! a = Some ta'
     ∧ derivative ta'
       = acc_all (derivative ta) [fmul float_one (float_of_int 1)]
     ∧ h2 !! b = Some tb'
     ∧ derivative tb'
       = acc_all (derivative tb) [fmul float_one (float_of_int 1)])
  ∧ (∃ y h1 h2 ta' tb',
     _sub a b h = Ok (y, h1) ∧ backward fuel y h1 = Ok (tt, h2)
     ∧ h2 !! a = Some ta'
     ∧ derivative ta'
       = acc_all (derivative ta) [fmul float_one (float_of_int 1)]
     ∧ h2 !! b = Some tb'
     ∧ derivative tb'
       = acc_all (derivative tb) [fmul float_one (float_of_int (-1))])
  ∧ (∀ (c : operand) v, literal c = Some v →
     (∃ y h1 h2 ta',
        tensor_op __sub__ a c h = Ok (y, h1)
        ∧ backward fuel y h1 = Ok (tt, h2)
        ∧ h2 !! a = Some ta'
        ∧ derivative ta'
          = acc_all (derivative ta) [fmul float_one (float_of_int 1)])
     ∧ (∃ y h1 h2 ta',
        reflected_op __sub__ __rsub__ c a h = Ok (y, h1)
        ∧ backward fuel y h1 = Ok (tt, h2)
        ∧ h2 !! a = Some ta'
        ∧ derivative ta'
          = acc_all (derivative ta) [fmul float_one (float_of_int (-1))])).
Proof.
  intros Hab Ha Hb Haargs Hbargs Hfuel.
  destruct (backward_add_sub_run h a b ta tb fuel Ha Hb Haargs Hbargs Hab
              Hfuel) as [Hadd Hsub].
  split; [done|]. split; [done|]. intros c v Hc.
  destruct (number_operand_run a c v h Hc) as (_ & _ & Esub & Ersub & _).
  pose proof (lookup_lt_Some _ _ _ Ha) as Hla.
  assert (Has : (h ++ [leaf v None]) !! a = Some ta)
    by (by rewrite lookup_app_l).
  assert (Hk : (h ++ [leaf v None]) !! length h = Some (leaf v None))
    by apply lookup_snoc.
  split.
  - rewrite Esub.
    destruct (backward_add_sub_run (h ++ [leaf v None]) a (length h) ta
                (leaf v None) fuel Has Hk Haargs eq_refl ltac:(lia) Hfuel)
      as [_ (y & h1 & h2 & ta' & tk' & Hop & Hrun & Hta' & Hda & _)].
    by exists y, h1, h2, ta'.
  - rewrite Ersub.
    destruct (backward_add_sub_run (h ++ [leaf v None]) (length h) a
                (leaf v None) ta fuel Hk Has eq_refl Haargs ltac:(lia) Hfuel)
      as [_ (y & h1 & h2 & tk' & ta' & Hop & Hrun & _ & _ & Hta' & Hda)].
    by exists y, h1, h2, ta'.
Qed.

(** X11. The operators stay within the interface: whenever one of
    the six operator forms returns on a store built through the
    interface, the store it leaves is again one, it extends the store
    it started from, and the result is an object of it.  So the
    properties of interface stores hold of every graph written with
    [+], [-] and [*]. *)
Theorem operators_stay_in_interface h self (x : operand) (m : M F loc) r h' :
  api_store h → m ∈ operator_forms self x → m h = Ok (r, h') →
  api_store h' ∧ r < length h' ∧ ∃ new, h' = h ++ new.
Proof.
  intros Hapi Hm Hrun.
  destruct (operator_form_inv h self x m r h' Hm Hrun)
    as (a & b & k & Hk & Hop).
  assert (Hapi_k : api_store (h ++ k)).
  { destruct Hk as [->|[v ->]]; [by rewrite app_nil_r|by apply api_leaf]. }
  split; [by eapply operation_api_store|].
  destruct (operation_result _ _ _ _ _ Hop) as (Hr & new & ->).
  split; [done|]. exists (k ++ new). by rewrite app_assoc.
Qed.

End Further.

Section FurtherExact.
Context {F : Type} {SF : Scalar F} {EF : ExactScalar F}.
Implicit Types (h : heap F) (t : Tensor F) (n a b m root self x : loc).

(** X9. On every store a program reaches through the interface,
    whatever passes ran on it before and whatever derivatives they
    left, over exact arithmetic: [clear_derivatives] on any object and
    then [backward] on it complete, and every node reachable from it
    ends with the partial derivative of the root's value with respect
    to its own value, the one value the rules of differentiation
    determine. *)
Theorem interface_clear_backward h root fuel :
  api_store h → root < length h → length h < fuel →
  ∃ hc h',
    clear_derivatives fuel root h = Ok (tt, hc)
    ∧ backward fuel root hc = Ok (tt, h')
    ∧ ∀ x, reachable h root x →
        ∃ t d, h' !! x = Some t ∧ derivative t = Some d
          ∧ partial h x root d
          ∧ ∀ d', partial h x root d' → d' = d.
Proof.
  intros Hapi Hroot Hfuel.
  destruct (api_store_graph h root Hapi Hroot) as (Hok & Hacyc & _).
  destruct (clear_derivatives_total h root fuel Hok Hacyc Hroot Hfuel)
    as (order & visited & hc & Htopo & Hreach & Hclear & Hhc).
  destruct (clear_derivatives_only h root fuel tt hc Hclear) as [Hs _].
  pose proof (same_graph_length _ _ Hs) as Hlen.
  assert (Hapi_c : api_store hc) by (by eapply api_clear).
  destruct (api_store_graph hc root Hapi_c) as (Hok_c & Hacyc_c & Hops_c);
    [by rewrite Hlen|].
  assert (Hfresh : fresh hc root).
  { intros n t Hn Ht. apply (same_graph_reachable h hc root n Hs) in Hn.
    rewrite Hhc, decide_True in Ht by (by apply Hreach).
    destruct (h !! n) as [t0|]; simpl in Ht; [|done].
    by injection Ht as <-. }
  destruct (backward_fresh hc root fuel Hok_c Hacyc_c Hfresh)
    as (order' & h' & Hnd & Hreach' & Hts & Hrun & Hval);
    [by rewrite Hlen..|].
  exists hc, h'. do 2 (split; [done|]). intros x Hx.
  apply (same_graph_reachable h hc root x Hs) in Hx.
  destruct (Hval x Hx) as (t & Htx & Hd).
  exists t, (tangent fuel hc x root). do 2 (split; [done|]).
  destruct (tangent_rules hc root fuel order' x Hok_c) as [HT1 HT2];
    [by rewrite Hlen..|done|done|done|].
  assert (Hroot_in : root ∈ order') by apply Hreach', rtc_refl.
  split.
  - apply (partial_covers hc h); [by apply covers_same, same_graph_sym|].
    apply list_elem_of_lookup in Hroot_in as [i Hi].
    apply (chain_partial hc x order' (tangent fuel hc x) Hts HT1 HT2 root)
      with (i := i); [|done..].
    intros n Hn. by apply Hreach'.
  - intros d' Hd'.
    apply (partial_chain hc x order' (tangent fuel hc x) Hts HT1 HT2 root d');
      [|done].
    apply (partial_covers h hc); [by apply covers_same|done].
Qed.

End FurtherExact.

(** ** The properties at concrete stores *)

Lemma cyclic_graph_ok {F} {SF : Scalar F} : graph_ok (cyclic_graph (F := F)).
Proof. by apply check_graph_ok. Qed.

(** The two nodes are on a cycle. *)
Lemma cyclic_graph_cycle {F} {SF : Scalar F} :
  ¬ acyclic (cyclic_graph (F := F)).
Proof.
  intros Hacyc. apply (Hacyc 0). apply tc_l with 1.
  - eexists _, [1]. split; [reflexivity|]. split; [reflexivity|]. by left.
  - apply tc_once.
    eexists _, [0]. split; [reflexivity|]. split; [reflexivity|]. by left.
Qed.

(** The traversal and the two passes on the cycle: the root comes last,
    and the contribution that comes back to it is added to its [1.0]. *)
Example cyclic_graph_runs :
  (∃ visited, build_topo 4 cyclic_graph_float 0 ([], ∅) = Ok ([1; 0], visited))
  ∧ (∃ h', backward 4 0 cyclic_graph_float = Ok (tt, h')
       ∧ derivative <$> h' !! 0 = Some (Some 2%float)
       ∧ derivative <$> h' !! 1 = Some (Some 1%float)
       ∧ derivative <$> h' !! 2 = Some None
       ∧ clear_derivatives 4 0 h' = Ok (tt, cyclic_graph_float)).
Proof.
  split; [eexists; by vm_compute|].
  eexists. split; [by vm_compute|]. by vm_compute.
Qed.

(** The run that leaves the derivatives of [reuse_graph_used]. *)
Example reuse_graph_used_run :
  backward 7 5 reuse_graph_Z = Ok (tt, reuse_graph_used).
Proof. by vm_compute. Qed.

Example reuse_graph_used_api_store : api_store reuse_graph_used.
Proof.
  apply (api_backward reuse_graph_Z 7 5 tt).
  - apply reuse_graph_api_store.
  - apply reuse_graph_used_run.
Qed.

(** [test_square] on binary64: [x = Tensor(3)], [y = x * x],
    [y.backward()] leaves [6.0] in [x]. *)
Example square_backward_float :
  ∃ y h1 h2,
    _mul 0 0 [leaf 3%float (Some "x"%string)] = Ok (y, h1)
    ∧ backward 2 y h1 = Ok (tt, h2)
    ∧ derivative <$> h2 !! 0 = Some (Some 6%float).
Proof.
  eexists _, _, _. split; [by vm_compute|]. split; by vm_compute.
Qed.

Lemma build_topo_any_graph_witness :
  graph_ok cyclic_graph_float ∧ ¬ acyclic cyclic_graph_float
  ∧ 0 < length cyclic_graph_float ∧ length cyclic_graph_float < 4
  ∧ ∃ order visited,
      build_topo 4 cyclic_graph_float 0 ([], ∅) = Ok (order, visited)
      ∧ NoDup order
      ∧ (∀ n, n ∈ order ↔ reachable cyclic_graph_float 0 n)
      ∧ (∀ n, n ∈ visited ↔ n ∈ order)
      ∧ last order = Some 0
      ∧ (∀ i m, order !! i = Some m → m ≠ 0 →
           ∃ j c, i < j ∧ order !! j = Some c
                  ∧ edge cyclic_graph_float c m)
      ∧ (acyclic cyclic_graph_float → topo_sorted cyclic_graph_float order).
Proof.
  split; [apply cyclic_graph_ok|]. split; [apply cyclic_graph_cycle|].
  split; [simpl; lia|]. split; [simpl; lia|].
  apply (build_topo_any_graph cyclic_graph_float 0 4).
  - apply cyclic_graph_ok.
  - simpl; lia.
  - simpl; lia.
Defined.

Lemma backward_any_graph_witness :
  graph_ok cyclic_graph_float ∧ ¬ acyclic cyclic_graph_float
  ∧ 0 < length cyclic_graph_float ∧ length cyclic_graph_float < 4
  ∧ ∃ h', backward 4 0 cyclic_graph_float = Ok (tt, h')
      ∧ (∀ n, reachable cyclic_graph_float 0 n → present h' n)
      ∧ length h' = length cyclic_graph_float
      ∧ (∀ n, ¬ reachable cyclic_graph_float 0 n →
           h' !! n = cyclic_graph_float !! n).
Proof.
  split; [apply cyclic_graph_ok|]. split; [apply cyclic_graph_cycle|].
  split; [simpl; lia|]. split; [simpl; lia|].
  apply (backward_any_graph cyclic_graph_float 0 4).
  - apply cyclic_graph_ok.
  - simpl; lia.
  - simpl; lia.
Defined.

Lemma clear_derivatives_any_graph_witness :
  graph_ok reuse_graph_used
  ∧ 5 < length reuse_graph_used ∧ length reuse_graph_used < 7
  ∧ ∃ hc,
      clear_derivatives 7 5 reuse_graph_used = Ok (tt, hc)
      ∧ (∀ n t, reachable reuse_graph_used 5 n →
           reuse_graph_used !! n = Some t →
           hc !! n = Some (set_derivative None t))
      ∧ (∀ n, ¬ reachable reuse_graph_used 5 n →
           hc !! n = reuse_graph_used !! n)
      ∧ fresh hc 5
      ∧ (∀ h2, only_derivatives (reachable reuse_graph_used 5)
                 reuse_graph_used h2 →
           clear_derivatives 7 5 h2 = Ok (tt, hc))
      ∧ clear_derivatives 7 5 hc = Ok (tt, hc).
Proof.
  split; [by apply check_graph_ok|].
  split; [simpl; lia|]. split; [simpl; lia|].
  apply (clear_derivatives_any_graph reuse_graph_used 5 7).
  - by apply check_graph_ok.
  - simpl; lia.
  - simpl; lia.
Defined.

Lemma backward_adjoint_equation_witness :
  graph_ok reuse_graph_float ∧ acyclic reuse_graph_float
  ∧ 5 < length reuse_graph_float ∧ length reuse_graph_float < 7
  ∧ ∃ order visited h',
      build_topo 7 reuse_graph_float 5 ([], ∅) = Ok (order, visited)
      ∧ backward 7 5 reuse_graph_float = Ok (tt, h')
      ∧ (∀ m t, reuse_graph_float !! m = Some t →
           ∃ t', h' !! m = Some t'
             ∧ derivative t'
               = acc_all (if decide (m = 5) then Some float_one
                          else derivative t)
                   (incoming reuse_graph_float h' (reverse order) m))
      ∧ incoming reuse_graph_float h' (reverse order) 5 = []
      ∧ (∀ m, ¬ reachable reuse_graph_float 5 m →
           incoming reuse_graph_float h' (reverse order) m = []).
Proof.
  split; [apply reuse_graph_ok|]. split; [apply reuse_graph_acyclic|].
  split; [simpl; lia|]. split; [simpl; lia|].
  apply (backward_adjoint_equation reuse_graph_float 5 7).
  - apply reuse_graph_ok.
  - apply reuse_graph_acyclic.
  - simpl; lia.
  - simpl; lia.
Defined.

Lemma backward_root_derivative_witness :
  graph_ok reuse_graph_used ∧ acyclic reuse_graph_used
  ∧ 5 < length reuse_graph_used ∧ length reuse_graph_used < 7
  ∧ reuse_graph_used !! 0
    = Some (set_derivative (Some 13%Z) (leaf 5%Z (Some "x"%string)))
  ∧ ∃ h', backward 7 0 reuse_graph_used = Ok (tt, h')
      ∧ h' !! 0 = Some (set_derivative (Some 1%Z) (leaf 5%Z (Some "x"%string)))
      ∧ h' = <[0 := set_derivative (Some 1%Z) (leaf 5%Z (Some "x"%string))]>
               reuse_graph_used.
Proof.
  split; [by apply check_graph_ok|].
  split; [by apply args_point_back_acyclic|].
  split; [simpl; lia|]. split; [simpl; lia|]. split; [reflexivity|].
  destruct (backward_root_derivative reuse_graph_used 0
              (set_derivative (Some 13%Z) (leaf 5%Z (Some "x"%string))) 7)
    as (h' & Hrun & Hroot & Hleaf).
  - by apply check_graph_ok.
  - by apply args_point_back_acyclic.
  - simpl; lia.
  - simpl; lia.
  - reflexivity.
  - exists h'. split; [exact Hrun|]. split; [exact Hroot|].
    exact (Hleaf eq_refl).
Defined.

Lemma shared_operand_backward_witness :
  let h := [leaf 3%float (Some "x"%string)] in
  h !! 0 = Some (leaf 3%float (Some "x"%string)) ∧ 2 ≤ 2
  ∧ (∃ y h1 h2 tx',
       _add 0 0 h = Ok (y, h1) ∧ backward 2 y h1 = Ok (tt, h2)
       ∧ h2 !! 0 = Some tx' ∧ derivative tx' = Some 2%float)
  ∧ (∃ y h1 h2 tx',
       _sub 0 0 h = Ok (y, h1) ∧ backward 2 y h1 = Ok (tt, h2)
       ∧ h2 !! 0 = Some tx' ∧ derivative tx' = Some 0%float)
  ∧ (∃ y h1 h2 tx',
       _mul 0 0 h = Ok (y, h1) ∧ backward 2 y h1 = Ok (tt, h2)
       ∧ h2 !! 0 = Some tx' ∧ derivative tx' = Some 6%float).
Proof.
  intros h. split; [reflexivity|]. split; [lia|].
  destruct (shared_operand_backward h 0 (leaf 3%float (Some "x"%string)) 2
              eq_refl eq_refl ltac:(lia))
    as ((y1 & h1 & h1' & t1 & Hop1 & Hb1 & Ht1 & Hd1)
        & (y2 & h2 & h2' & t2 & Hop2 & Hb2 & Ht2 & Hd2)
        & (y3 & h3 & h3' & t3 & Hop3 & Hb3 & Ht3 & Hd3)).
  split; [|split].
  - exists y1, h1, h1', t1. split; [exact Hop1|]. split; [exact Hb1|].
    split; [exact Ht1|]. rewrite Hd1. by vm_compute.
  - exists y2, h2, h2', t2. split; [exact Hop2|]. split; [exact Hb2|].
    split; [exact Ht2|]. rewrite Hd2. by vm_compute.
  - exists y3, h3, h3', t3. split; [exact Hop3|]. split; [exact Hb3|].
    split; [exact Ht3|]. rewrite Hd3. by vm_compute.
Defined.

Lemma number_operands_keep_sides_witness :
  let h := [leaf 3%float (Some "x"%string)] in
  h !! 0 = Some (leaf 3%float (Some "x"%string))
  ∧ literal (F := float) (OInt 2) = Some 2%float
  ∧ int_too_large (F := float) (2 ^ 1024) = true
  ∧ wraps (tensor_op __sub__ 0 (OInt 2)) h 2%float
      (fsub 3%float 2%float) (λ k, [0; k])
  ∧ wraps (reflected_op __sub__ __rsub__ (OInt 2) 0) h 2%float
      (fsub 2%float 3%float) (λ k, [k; 0])
  ∧ tensor_op __mul__ 0 (OInt (2 ^ 1024)) h = Raise OverflowError.
Proof.
  intros h. split; [reflexivity|].
  assert (H2 : literal (F := float) (OInt 2) = Some 2%float)
    by (by vm_compute).
  assert (Hbig : int_too_large (F := float) (2 ^ 1024) = true)
    by (by vm_compute).
  split; [exact H2|]. split; [exact Hbig|].
  destruct (number_operands_keep_sides h 0 (leaf 3%float (Some "x"%string))
              eq_refl) as [Hnum Hover].
  destruct (Hnum (OInt 2) 2%float H2)
    as (_ & _ & Hsub & Hrsub & _ & _).
  destruct (Hover (2 ^ 1024)%Z Hbig) as (_ & _ & _ & _ & Hmul & _).
  split; [exact Hsub|]. split; [exact Hrsub|exact Hmul].
Defined.

Lemma sum_difference_rule_witness :
  let h := [leaf 5%float (Some "a"%string); leaf 3%float (Some "b"%string)] in
  0 ≠ 1 ∧ h !! 0 = Some (leaf 5%float (Some "a"%string))
  ∧ h !! 1 = Some (leaf 3%float (Some "b"%string)) ∧ 2 ≤ 2
  ∧ literal (F := float) (OInt 2) = Some 2%float
  ∧ (∃ y h1 h2 ta' tb',
       _sub 0 1 h = Ok (y, h1) ∧ backward 2 y h1 = Ok (tt, h2)
       ∧ h2 !! 0 = Some ta' ∧ derivative ta' = Some 1%float
       ∧ h2 !! 1 = Some tb' ∧ derivative tb' = Some (-1)%float)
  ∧ (∃ y h1 h2 ta',
       reflected_op __sub__ __rsub__ (OInt 2) 0 h = Ok (y, h1)
       ∧ backward 2 y h1 = Ok (tt, h2)
       ∧ h2 !! 0 = Some ta' ∧ derivative ta' = Some (-1)%float).
Proof.
  intros h. split; [lia|]. split; [reflexivity|]. split; [reflexivity|].
  split; [lia|].
  assert (H2 : literal (F := float) (OInt 2) = Some 2%float)
    by (by vm_compute).
  split; [exact H2|].
  destruct (sum_difference_rule_backward h 0 1
              (leaf 5%float (Some "a"%string))
              (leaf 3%float (Some "b"%string)) 2
              ltac:(lia) eq_refl eq_refl eq_refl eq_refl ltac:(lia))
    as (_ & (y & h1 & h2 & ta' & tb' & Hop & Hrun & Hta & Hda & Htb & Hdb)
        & Hnum).
  destruct (Hnum (OInt 2) 2%float H2)
    as [_ (y' & h1' & h2' & ta'' & Hop' & Hrun' & Hta' & Hda')].
  split.
  - exists y, h1, h2, ta', tb'. split; [exact Hop|]. split; [exact Hrun|].
    split; [exact Hta|]. split; [rewrite Hda; by vm_compute|].
    split; [exact Htb|]. rewrite Hdb. by vm_compute.
  - exists y', h1', h2', ta''. split; [exact Hop'|]. split; [exact Hrun'|].
    split; [exact Hta'|]. rewrite Hda'. by vm_compute.
Defined.

Lemma operators_stay_in_interface_witness :
  api_store reuse_graph_used
  ∧ reflected_op __sub__ __rsub__ (OInt 2) 5
      ∈ operator_forms (F := Z) 5 (OInt 2)
  ∧ ∃ r h',
      reflected_op __sub__ __rsub__ (OInt 2) 5 reuse_graph_used = Ok (r, h')
      ∧ api_store h' ∧ r < length h'
      ∧ ∃ new, h' = reuse_graph_used ++ new.
Proof.
  assert (Hin : reflected_op __sub__ __rsub__ (OInt 2) 5
                ∈ operator_forms (F := Z) 5 (OInt 2))
    by (do 3 right; left).
  split; [apply reuse_graph_used_api_store|]. split; [exact Hin|].
  eexists _, _. split; [by vm_compute|].
  exact (operators_stay_in_interface reuse_graph_used 5 (OInt 2) _ _ _
           reuse_graph_used_api_store Hin eq_refl).
Defined.

Lemma interface_stores_well_formed_witness :
  api_store reuse_graph_used
  ∧ graph_ok reuse_graph_used
  ∧ (∀ n a, edge reuse_graph_used n a → a < n)
  ∧ acyclic reuse_graph_used ∧ all_from_ops reuse_graph_used.
Proof.
  split; [apply reuse_graph_used_api_store|].
  apply (interface_stores_well_formed reuse_graph_used).
  apply reuse_graph_used_api_store.
Defined.

Lemma interface_clear_backward_witness :
  api_store reuse_graph_used
  ∧ 5 < length reuse_graph_used ∧ length reuse_graph_used < 7
  ∧ ∃ hc h',
      clear_derivatives 7 5 reuse_graph_used = Ok (tt, hc)
      ∧ backward 7 5 hc = Ok (tt, h')
      ∧ ∀ x, reachable reuse_graph_used 5 x →
          ∃ t d, h' !! x = Some t ∧ derivative t = Some d
            ∧ partial reuse_graph_used x 5 d
            ∧ ∀ d', partial reuse_graph_used x 5 d' → d' = d.
Proof.
  split; [apply reuse_graph_used_api_store|].
  split; [simpl; lia|]. split; [simpl; lia|].
  apply (interface_clear_backward reuse_graph_used 5 7).
  - apply reuse_graph_used_api_store.
  - simpl; lia.
  - simpl; lia.
Defined.

(** After the clearing, the second pass on [reuse_graph_used] leaves
    [13] in [x] again, not [13] more. *)
Example reuse_graph_used_again :
  ∃ hc, clear_derivatives 7 5 reuse_graph_used = Ok (tt, hc)
    ∧ hc = reuse_graph_Z
    ∧ backward 7 5 hc = Ok (tt, reuse_graph_used).
Proof. eexists. split; [by vm_compute|]. split; by vm_compute. Qed.

(** The test on binary64: after the second pass [x] holds [c.value] and
    [c] holds [x.value]; [s = x + c], which the second root does not
    reach, keeps what the first pass left in it. *)
Example reuse_across_graphs_float :
  ∃ x c s h,
    reuse_across_graphs (F := float) 8 [] = Ok ((x, c, s), h)
    ∧ derivative <$> h !! x = Some (Some 3%float)
    ∧ derivative <$> h !! c = Some (Some 2%float)
    ∧ derivative <$> h !! s = Some (Some 2%float).
Proof.
  eexists _, _, _, _. split; [by vm_compute|]. split; [by vm_compute|].
  split; by vm_compute.
Qed.
